(** * CBDC token ledger: a shallow embedding of the central-bank core

    The development follows the Python modules that carry the
    algorithmic content of the repository:

    - [shared/token_utils.py]: the denomination engine ([make_change],
      [calculate_change], [TokenBundle.select_for_payment]);
    - [central_bank/database.py]: the ownership ledger kept in SQLite
      ([mint_tokens], [mint_specific_denominations], [mint_mixed_tokens],
      [register_fi], [allocate_tokens_to_fi], [transfer_tokens_between_fis],
      [get_money_supply]) and its read-only queries ([get_fi_tokens],
      [get_ledger], [get_all_fis], [validate_wallet]);
    - [shared/zkp.py]: the simulated ownership, transfer and compliance
      proofs, over an abstract digest.

    Python integers are unbounded, so amounts and denominations are [Z].
    Python loops are written as recursive functions over the iterated list;
    the one [while] loop of the source takes fuel and returns [None] when it
    runs out. *)

From Stdlib Require Import ZArith List Lia Bool String Permutation.
From Stdlib Require Import Sorted OrdersEx DecimalString.
Import ListNotations.
Open Scope Z_scope.

(** ** Generic list helpers *)

(** Python's [sum] over a list of integers. *)
Definition sum (l : list Z) : Z := fold_right Z.add 0 l.

(** [sorted(l, key=key, reverse=True)]: a stable sort, largest key first.
    An element that came earlier stays before later elements of equal key. *)
Fixpoint insert_desc {A} (key : A -> Z) (x : A) (l : list A) : list A :=
  match l with
  | [] => [x]
  | y :: ys => if key x <? key y then y :: insert_desc key x ys else x :: l
  end.

Definition sorted_desc {A} (key : A -> Z) (l : list A) : list A :=
  fold_right (insert_desc key) [] l.

(** [sorted(l, key=key)]: the stable ascending sort. *)
Fixpoint insert_asc {A} (key : A -> Z) (x : A) (l : list A) : list A :=
  match l with
  | [] => [x]
  | y :: ys => if key y <? key x then y :: insert_asc key x ys else x :: l
  end.

Definition sorted_asc {A} (key : A -> Z) (l : list A) : list A :=
  fold_right (insert_asc key) [] l.

(** The selection loop shared by [calculate_change] (token_utils.py, lines
    49-53) and [allocate_tokens_to_fi] (database.py, lines 344-348):
<<
    for token in tokens:
        if total >= amount: break
        selected.append(token); total += token['denomination']
>> *)
Fixpoint accumulate_until {A} (denom : A -> Z) (amount : Z) (tokens : list A)
    (selected : list A) (total : Z) : list A * Z :=
  match tokens with
  | [] => (selected, total)
  | t :: ts =>
      if total >=? amount then (selected, total)
      else accumulate_until denom amount ts (selected ++ [t]) (total + denom t)
  end.

(** ** shared/token_utils.py *)

Module TokenUtils.

(** Valid denominations in Indian Rupees (line 11). *)
Definition DENOMINATIONS : list Z := [1; 2; 5; 10; 20; 50; 100; 200; 500; 2000].

(** A token serial, [f"{denomination}-{hash}"]: the denomination it was
    generated for and the 64-bit hash part. *)
Definition serial : Type := (Z * N)%type.

Definition serial_eqb (a b : serial) : bool :=
  (fst a =? fst b) && (snd a =? snd b)%N.

(** The dict-shaped token handed around by the utilities. *)
Record token : Type := mkToken {
  serial_number : serial;
  denomination : Z
}.

(** [validate_denomination]: [amount in DENOMINATIONS]. *)
Definition validate_denomination (amount : Z) : bool :=
  existsb (Z.eqb amount) DENOMINATIONS.

(** [tokens_to_amount]. *)
Definition tokens_to_amount (tokens : list token) : Z :=
  sum (map denomination tokens).

(** The inner loop of [make_change] (lines 76-78):
<<
    while remaining >= denom:
        change.append(denom); remaining -= denom
>>
    [None] is the loop still running when the fuel is spent. *)
Fixpoint while_ge (fuel : nat) (denom : Z) (change : list Z) (remaining : Z)
    : option (list Z * Z) :=
  match fuel with
  | O => None
  | S fuel' =>
      if remaining >=? denom
      then while_ge fuel' denom (change ++ [denom]) (remaining - denom)
      else Some (change, remaining)
  end.

(** The outer loop of [make_change] (line 75), over the sorted denominations. *)
Fixpoint for_denoms (fuel : nat) (denoms : list Z) (change : list Z) (remaining : Z)
    : option (list Z * Z) :=
  match denoms with
  | [] => Some (change, remaining)
  | denom :: rest =>
      match while_ge fuel denom change remaining with
      | None => None
      | Some (change', remaining') => for_denoms fuel rest change' remaining'
      end
  end.

Definition make_change_fuel (fuel : nat) (amount : Z) : option (list Z) :=
  if amount <=? 0 then Some []
  else option_map fst (for_denoms fuel (sorted_desc id DENOMINATIONS) [] amount).

(** [make_change] (lines 64-80).  Every denomination is at least 1, so a
    [while] loop entered with [remaining <= amount] runs at most [amount]
    times; [make_change_total] below shows this fuel is never exhausted. *)
Definition make_change (amount : Z) : option (list Z) :=
  make_change_fuel (S (Z.to_nat amount)) amount.

(** [calculate_change] (lines 33-61).  The result is the Python triple
    [(tokens_to_spend, change_tokens, remaining)]. *)
Definition calculate_change (amount : Z) (available_tokens : list token)
    : option (list token * list Z * Z) :=
  let sorted_tokens := sorted_desc denomination available_tokens in
  let '(tokens_to_spend, total_spent) :=
    accumulate_until denomination amount sorted_tokens [] 0 in
  if total_spent <? amount then Some ([], [], amount - total_spent)
  else
    let change_amount := total_spent - amount in
    match make_change change_amount with
    | None => None
    | Some change_tokens => Some (tokens_to_spend, change_tokens, 0)
    end.

(** [TokenBundle.select_for_payment] (lines 158-165), on [self.tokens]. *)
Definition select_for_payment (self_tokens : list token) (amount : Z)
    : option (list token * Z) :=
  match calculate_change amount self_tokens with
  | None => None
  | Some (tokens_to_spend, _, remaining) =>
      if remaining >? 0 then Some ([], remaining)
      else Some (tokens_to_spend, tokens_to_amount tokens_to_spend - amount)
  end.

End TokenUtils.

(** ** central_bank/database.py *)

Module Database.

Definition serial := TokenUtils.serial.
Definition serial_eqb := TokenUtils.serial_eqb.

(** *** The schema ([init_db], lines 26-97)

    Columns that only carry display text ([description], [purpose],
    [api_url], [public_key], [zkp_proof]) are left out; every column a query
    of this module filters, sums or updates is kept. *)

Inductive token_status : Type := active | spent | destroyed.
Inductive owner_kind : Type := cb | fi | wallet | subwallet.
Inductive transaction_kind : Type := mint | allocation | cross_fi_transfer.

Definition status_eqb (a b : token_status) : bool :=
  match a, b with
  | active, active | spent, spent | destroyed, destroyed => true
  | _, _ => false
  end.

Definition owner_kind_eqb (a b : owner_kind) : bool :=
  match a, b with
  | cb, cb | fi, fi | wallet, wallet | subwallet, subwallet => true
  | _, _ => false
  end.

Definition transaction_kind_eqb (a b : transaction_kind) : bool :=
  match a, b with
  | mint, mint | allocation, allocation | cross_fi_transfer, cross_fi_transfer => true
  | _, _ => false
  end.

(** A row of [tokens]. *)
Record token_row : Type := mkRow {
  serial_number : serial;
  denomination : Z;
  status : token_status;
  current_owner : string;
  owner_type : owner_kind;
  minted_at : Z;
  batch_id : N;
  last_transfer_at : option Z
}.

(** A row of [financial_institutions]. *)
Record fi_row : Type := mkFi {
  fi_id : string;
  name : string;
  registered_at : Z
}.

(** A row of [ledger]. *)
Record ledger_row : Type := mkLedger {
  id : N;
  transaction_type : transaction_kind;
  from_entity : string;
  to_entity : string;
  token_serials : list serial;
  total_amount : Z;
  timestamp : Z
}.

(** A row of [nullifiers]. *)
Record nullifier_row : Type := mkNullifier {
  nullifier : string;
  token_serial : serial;
  spent_at : Z;
  transaction_id : N
}.

(** A row of [token_batches]; the key is [batch_id] or, for
    [mint_specific_denominations], [f"{batch_id}-{denom}"]. *)
Record batch_row : Type := mkBatch {
  b_batch_id : N * option Z;
  b_denomination : Z;
  b_count : Z;
  b_minted_at : Z
}.

(** The database file: each table in insertion (rowid) order. *)
Record db : Type := mkDb {
  tokens : list token_row;
  financial_institutions : list fi_row;
  ledger : list ledger_row;
  nullifiers : list nullifier_row;
  token_batches : list batch_row
}.

Definition empty_db : db := mkDb [] [] [] [] [].

(** What an operation sees around it: the committed database, the entropy
    behind [secrets.token_hex] and the clock behind [time.time].  Entropy is
    a counter, so two identifiers drawn from it never collide and the
    PRIMARY KEY constraints never reject an insertion. *)
Record world : Type := mkWorld {
  store : db;
  entropy : N;
  clock : Z
}.

Definition empty_world : world := mkWorld empty_db 0 0.

(** [secrets.token_hex]. *)
Definition token_hex (w : world) : N * world :=
  (entropy w, mkWorld (store w) (N.succ (entropy w)) (clock w)).

(** [generate_serial_number] (token_utils.py, lines 13-23). *)
Definition generate_serial_number (denomination : Z) (w : world) : serial * world :=
  let '(h, w') := token_hex w in ((denomination, h), w').

(** *** Connections and transactions

    [get_db] opens a connection on the committed database; statements act on
    its pending copy; [commit] publishes the copy; [close] without [commit]
    drops it.  A statement executed on a closed connection raises
    [sqlite3.ProgrammingError]. *)

Record connection : Type := mkConn {
  pending : db;
  is_open : bool
}.

Inductive error : Type :=
| InvalidDenomination
| CountOutOfRange
| CountNotPositive (denom : Z)
| CountExceeds (denom : Z)
| AmountNotPositive
| CannotCreateExactAmount (amount : Z)
| FIAlreadyRegistered
| FINotFound
| TokenNotOwned (s : serial) (from_fi : string).

Inductive exn : Type :=
| ProgrammingError.

(** How a call ends: a result dict, an [{'error': ...}] dict, a raised
    exception, or (in the model only) exhausted fuel. *)
Inductive outcome (A : Type) : Type :=
| Success (a : A)
| Failure (e : error)
| Raised (x : exn)
| OutOfFuel.

Arguments Success {A} a.
Arguments Failure {A} e.
Arguments Raised {A} x.
Arguments OutOfFuel {A}.

Definition get_db (w : world) : connection := mkConn (store w) true.

Definition close (conn : connection) : connection := mkConn (pending conn) false.

Definition commit (conn : connection) (w : world) : world :=
  mkWorld (pending conn) (entropy w) (clock w).

Definition execute (stmt : db -> db) (conn : connection) : exn + connection :=
  if is_open conn then inr (mkConn (stmt (pending conn)) true)
  else inl ProgrammingError.

Fixpoint execute_each {A} (stmt : A -> db -> db) (xs : list A) (conn : connection)
    : exn + connection :=
  match xs with
  | [] => inr conn
  | x :: rest =>
      match execute (stmt x) conn with
      | inl e => inl e
      | inr conn' => execute_each stmt rest conn'
      end
  end.

(** *** Statements *)

Definition insert_token (r : token_row) (d : db) : db :=
  mkDb (tokens d ++ [r]) (financial_institutions d) (ledger d) (nullifiers d)
       (token_batches d).

Definition insert_fi (r : fi_row) (d : db) : db :=
  mkDb (tokens d) (financial_institutions d ++ [r]) (ledger d) (nullifiers d)
       (token_batches d).

Definition insert_ledger (r : ledger_row) (d : db) : db :=
  mkDb (tokens d) (financial_institutions d) (ledger d ++ [r]) (nullifiers d)
       (token_batches d).

Definition insert_batch (r : batch_row) (d : db) : db :=
  mkDb (tokens d) (financial_institutions d) (ledger d) (nullifiers d)
       (token_batches d ++ [r]).

(** [UPDATE tokens SET ... WHERE serial_number = ?]. *)
Definition update_tokens (s : serial) (f : token_row -> token_row) (d : db) : db :=
  mkDb (map (fun r => if serial_eqb (serial_number r) s then f r else r) (tokens d))
       (financial_institutions d) (ledger d) (nullifiers d) (token_batches d).

(** The row written by every minting path:
    [VALUES (?, ?, 'active', 'CB', 'cb', ?, ?)]. *)
Definition minted_row (s : serial) (denom : Z) (timestamp : Z) (batch : N) : token_row :=
  mkRow s denom active "CB" cb timestamp batch None.

(** [SELECT SUM(denomination) FROM tokens WHERE ...], with [or 0]. *)
Definition sum_where (p : token_row -> bool) (d : db) : Z :=
  sum (map denomination (filter p (tokens d))).

(** The body shared by the three minting loops: generate a serial, append
    the token dict, insert the row. *)
Fixpoint mint_each (denoms : list Z) (timestamp : Z) (batch : N)
    (w : world) (pend : db) (minted : list TokenUtils.token)
    : world * db * list TokenUtils.token :=
  match denoms with
  | [] => (w, pend, minted)
  | denom :: rest =>
      let '(s, w') := generate_serial_number denom w in
      mint_each rest timestamp batch w'
        (insert_token (minted_row s denom timestamp batch) pend)
        (minted ++ [TokenUtils.mkToken s denom])
  end.

Record mint_result : Type := mkMint {
  mr_batch_id : N;
  mr_total_value : Z;
  mr_tokens : list TokenUtils.token
}.

(** [mint_tokens] (lines 100-153). *)
Definition mint_tokens (denomination : Z) (count : Z) (w : world)
    : world * outcome mint_result :=
  if negb (TokenUtils.validate_denomination denomination)
  then (w, Failure InvalidDenomination)
  else if (count <=? 0) || (count >? 10000)
  then (w, Failure CountOutOfRange)
  else
    let conn := get_db w in
    let '(batch, w1) := token_hex w in
    let timestamp := clock w in
    let '(w2, pend, minted) :=
      mint_each (repeat denomination (Z.to_nat count)) timestamp batch w1
                (pending conn) [] in
    let pend := insert_batch (mkBatch (batch, None) denomination count timestamp) pend in
    let '(tx_id, w3) := token_hex w2 in
    let pend := insert_ledger
      (mkLedger tx_id mint "CENTRAL_BANK" "CB_VAULT"
                (map TokenUtils.serial_number minted) (denomination * count) timestamp)
      pend in
    (commit (mkConn pend true) w3,
     Success (mkMint batch (denomination * count) minted)).

(** The validation loop of [mint_specific_denominations] (lines 162-168);
    the dict is its list of items in insertion order. *)
Fixpoint validate_counts (denomination_counts : list (Z * Z)) : option error :=
  match denomination_counts with
  | [] => None
  | (denom, count) :: rest =>
      if negb (TokenUtils.validate_denomination denom) then Some InvalidDenomination
      else if count <=? 0 then Some (CountNotPositive denom)
      else if count >? 10000 then Some (CountExceeds denom)
      else validate_counts rest
  end.

(** The minting loop of [mint_specific_denominations] (lines 180-204). *)
Fixpoint mint_specific_loop (items : list (Z * Z)) (timestamp : Z) (batch : N)
    (w : world) (pend : db) (all_tokens : list TokenUtils.token) (total_value : Z)
    : world * db * list TokenUtils.token * Z :=
  match items with
  | [] => (w, pend, all_tokens, total_value)
  | (denom, count) :: rest =>
      if count <=? 0
      then mint_specific_loop rest timestamp batch w pend all_tokens total_value
      else
        let '(w', pend', all_tokens') :=
          mint_each (repeat denom (Z.to_nat count)) timestamp batch w pend all_tokens in
        let pend' := insert_batch (mkBatch (batch, Some denom) denom count timestamp) pend' in
        mint_specific_loop rest timestamp batch w' pend' all_tokens'
                           (total_value + denom * count)
  end.

(** [mint_specific_denominations] (lines 156-224). *)
Definition mint_specific_denominations (denomination_counts : list (Z * Z)) (w : world)
    : world * outcome mint_result :=
  match validate_counts denomination_counts with
  | Some e => (w, Failure e)
  | None =>
      let conn := get_db w in
      let '(batch, w1) := token_hex w in
      let timestamp := clock w in
      let '(w2, pend, all_tokens, total_value) :=
        mint_specific_loop denomination_counts timestamp batch w1 (pending conn) [] 0 in
      let '(tx_id, w3) := token_hex w2 in
      let pend := insert_ledger
        (mkLedger tx_id mint "CENTRAL_BANK" "CB_VAULT"
                  (map TokenUtils.serial_number all_tokens) total_value timestamp)
        pend in
      (commit (mkConn pend true) w3, Success (mkMint batch total_value all_tokens))
  end.

(** [mint_mixed_tokens] (lines 227-288). *)
Definition mint_mixed_tokens (amount : Z) (w : world) : world * outcome mint_result :=
  if amount <=? 0 then (w, Failure AmountNotPositive)
  else
    match TokenUtils.make_change amount with
    | None => (w, OutOfFuel)
    | Some denominations_needed =>
        if negb (sum denominations_needed =? amount)
        then (w, Failure (CannotCreateExactAmount amount))
        else
          let conn := get_db w in
          let '(batch, w1) := token_hex w in
          let timestamp := clock w in
          let '(w2, pend, minted) :=
            mint_each denominations_needed timestamp batch w1 (pending conn) [] in
          let pend := insert_batch
            (mkBatch (batch, None) 0 (Z.of_nat (List.length minted)) timestamp) pend in
          let '(tx_id, w3) := token_hex w2 in
          let pend := insert_ledger
            (mkLedger tx_id mint "CENTRAL_BANK" "CB_VAULT"
                      (map TokenUtils.serial_number minted) amount timestamp)
            pend in
          (commit (mkConn pend true) w3, Success (mkMint batch amount minted))
    end.

(** [register_fi] (lines 291-318); [generate_keypair] draws one random key. *)
Definition register_fi (fi_id0 : string) (name0 : string) (w : world)
    : world * outcome string :=
  let conn := get_db w in
  if existsb (fun f => String.eqb (fi_id f) fi_id0) (financial_institutions (pending conn))
  then (w, Failure FIAlreadyRegistered)
  else
    let '(_, w1) := token_hex w in
    let timestamp := clock w in
    let pend := insert_fi (mkFi fi_id0 name0 timestamp) (pending conn) in
    (commit (mkConn pend true) w1, Success fi_id0).

(** The CB vault query of [allocate_tokens_to_fi] (lines 334-339):
<<
    SELECT serial_number, denomination FROM tokens
    WHERE current_owner = 'CB' AND status = 'active' ORDER BY denomination DESC
>>
    SQL leaves the order of equal denominations open; here rows of equal
    denomination come in insertion order.  No property below depends on it. *)
Definition held_in_cb_vault (r : token_row) : bool :=
  String.eqb (current_owner r) "CB" && status_eqb (status r) active.

Definition select_cb_vault (d : db) : list TokenUtils.token :=
  sorted_desc TokenUtils.denomination
    (map (fun r => TokenUtils.mkToken (serial_number r) (denomination r))
         (filter held_in_cb_vault (tokens d))).

(** The exact-subset pass (lines 366-369), over the ascending list. *)
Fixpoint exact_subset (amount : Z) (tokens : list TokenUtils.token)
    (selected : list TokenUtils.token) (total : Z) : list TokenUtils.token * Z :=
  match tokens with
  | [] => (selected, total)
  | t :: ts =>
      if total + TokenUtils.denomination t <=? amount
      then exact_subset amount ts (selected ++ [t]) (total + TokenUtils.denomination t)
      else exact_subset amount ts selected total
  end.

Record allocation_result : Type := mkAllocation {
  al_fi_id : string;
  al_amount : Z;
  al_token_count : nat;
  al_tokens : list TokenUtils.token;
  al_transaction_id : N
}.

(** [UPDATE tokens SET current_owner = ?, owner_type = 'fi',
    last_transfer_at = ? WHERE serial_number = ?] (lines 384-387). *)
Definition allocated_row (fi_id0 : string) (timestamp : Z) (r : token_row) : token_row :=
  mkRow (serial_number r) (denomination r) (status r) fi_id0 fi
        (minted_at r) (batch_id r) (Some timestamp).

Definition give_to_fi (fi_id0 : string) (timestamp : Z) (t : TokenUtils.token) : db -> db :=
  update_tokens (TokenUtils.serial_number t) (allocated_row fi_id0 timestamp).

(** Lines 380-413 of [allocate_tokens_to_fi]: transfer ownership, record the
    allocation in the ledger, commit.  [conn] is the connection opened at the
    top of the call, in whatever state the branches above left it. *)
Definition record_allocation (w : world) (conn : connection) (fi_id0 : string)
    (selected : list TokenUtils.token) (total : Z) : world * outcome allocation_result :=
  let timestamp := clock w in
  match execute_each (give_to_fi fi_id0 timestamp) selected conn with
  | inl x => (w, Raised x)
  | inr conn1 =>
      let '(tx_id, w1) := token_hex w in
      match execute
              (insert_ledger
                 (mkLedger tx_id allocation "CB" fi_id0
                           (map TokenUtils.serial_number selected) total timestamp))
              conn1 with
      | inl x => (w1, Raised x)
      | inr conn2 =>
          (commit conn2 w1,
           Success (mkAllocation fi_id0 total (List.length selected) selected tx_id))
      end
  end.

(** [allocate_tokens_to_fi] (lines 321-413).  [depth] bounds the nesting of
    the recursive call of line 358.  A minting call that returns an error
    dict ends the allocation with that dict
    ([if 'error' in mint_result: return mint_result]). *)
Fixpoint allocate_tokens_to_fi (depth : nat) (fi_id0 : string) (amount : Z) (w : world)
    : world * outcome allocation_result :=
  match depth with
  | O => (w, OutOfFuel)
  | S depth' =>
      let conn := get_db w in
      match find (fun f => String.eqb (fi_id f) fi_id0)
                 (financial_institutions (pending conn)) with
      | None => (w, Failure FINotFound)
      | Some _ =>
          let available := select_cb_vault (pending conn) in
          let '(selected, total) :=
            accumulate_until TokenUtils.denomination amount available [] 0 in
          if total <? amount then
            (* conn.close(); mint the difference; retry *)
            match mint_mixed_tokens (amount - total) w with
            | (w1, Success _) => allocate_tokens_to_fi depth' fi_id0 amount w1
            | (w1, Failure e) => (w1, Failure e)
            | (w1, Raised x) => (w1, Raised x)
            | (w1, OutOfFuel) => (w1, OutOfFuel)
            end
          else if total >? amount then
            let '(selected, total) :=
              exact_subset amount (sorted_asc TokenUtils.denomination available) [] 0 in
            if total <? amount then
              (* conn.close(); mint the whole amount; go on with the closed conn *)
              match mint_mixed_tokens amount w with
              | (w1, Success mint_result) =>
                  record_allocation w1 (close conn) fi_id0 (mr_tokens mint_result) amount
              | (w1, Failure e) => (w1, Failure e)
              | (w1, Raised x) => (w1, Raised x)
              | (w1, OutOfFuel) => (w1, OutOfFuel)
              end
            else record_allocation w conn fi_id0 selected total
          else record_allocation w conn fi_id0 selected total
      end
  end.

Record money_supply : Type := mkSupply {
  total_minted : Z;
  in_circulation : Z;
  in_cb_vault : Z;
  in_fis : Z;
  in_wallets : Z;
  in_subwallets : Z;
  is_balanced : bool
}.

Definition active_of_kind (k : owner_kind) (r : token_row) : bool :=
  owner_kind_eqb (owner_type r) k && status_eqb (status r) active.

(** [get_money_supply] (lines 432-477); the per-denomination count is a
    display field and is left out. *)
Definition get_money_supply (w : world) : money_supply :=
  let d := store w in
  let total_minted := sum_where (fun r => negb (status_eqb (status r) destroyed)) d in
  let in_cb := sum_where held_in_cb_vault d in
  let in_fis := sum_where (active_of_kind fi) d in
  let in_wallets := sum_where (active_of_kind wallet) d in
  let in_subwallets := sum_where (active_of_kind subwallet) d in
  mkSupply total_minted (total_minted - in_cb) in_cb in_fis in_wallets in_subwallets
           (in_cb + in_fis + in_wallets + in_subwallets =? total_minted).

(** [UPDATE tokens SET current_owner = ?, last_transfer_at = ?
    WHERE serial_number = ?] (lines 534-537). *)
Definition moved_row (to_fi : string) (timestamp : Z) (r : token_row) : token_row :=
  mkRow (serial_number r) (denomination r) (status r) to_fi (owner_type r)
        (minted_at r) (batch_id r) (Some timestamp).

Definition move_token (to_fi : string) (timestamp : Z) (s : serial) : db -> db :=
  update_tokens s (moved_row to_fi timestamp).

(** The loop of [transfer_tokens_between_fis] (lines 522-537), on the pending
    copy; [inl] is the early [return {'error': ...}]. *)
Fixpoint transfer_loop (from_fi to_fi : string) (timestamp : Z)
    (serials : list serial) (pend : db) (total : Z) : error + db * Z :=
  match serials with
  | [] => inr (pend, total)
  | s :: rest =>
      match find (fun r => serial_eqb (serial_number r) s
                           && String.eqb (current_owner r) from_fi)
                 (tokens pend) with
      | None => inl (TokenNotOwned s from_fi)
      | Some token =>
          transfer_loop from_fi to_fi timestamp rest
                        (move_token to_fi timestamp s pend) (total + denomination token)
      end
  end.

Record transfer_result : Type := mkTransfer {
  tr_transaction_id : N;
  tr_amount : Z;
  tr_token_count : nat
}.

(** [transfer_tokens_between_fis] (lines 514-556).  The early return closes
    the connection without [commit], so the world is handed back as it was. *)
Definition transfer_tokens_between_fis (from_fi to_fi : string)
    (token_serials0 : list serial) (w : world) : world * outcome transfer_result :=
  let conn := get_db w in
  let timestamp := clock w in
  match transfer_loop from_fi to_fi timestamp token_serials0 (pending conn) 0 with
  | inl e => (w, Failure e)
  | inr (pend, total) =>
      let '(tx_id, w1) := token_hex w in
      let pend := insert_ledger
        (mkLedger tx_id cross_fi_transfer from_fi to_fi token_serials0 total timestamp)
        pend in
      (commit (mkConn pend true) w1,
       Success (mkTransfer tx_id total (List.length token_serials0)))
  end.

End Database.

(** ** The nullifier registry

    [init_db] declares the [nullifiers] table, but no function under
    [central_bank/] or [shared/] reads or writes it. *)

Module NullifierRegistry.

Import Database.

Inductive consume_result : Type := Ok | AlreadySpent.

Definition insert_nullifier (r : nullifier_row) (d : db) : db :=
  mkDb (tokens d) (financial_institutions d) (ledger d) (nullifiers d ++ [r])
       (token_batches d).

(** [SELECT ... FROM nullifiers WHERE nullifier = ?]. *)
Definition is_spent (value : string) (d : db) : bool :=
  existsb (fun r => String.eqb (nullifier r) value) (nullifiers d).

(** Modelled from the spec: the registry operation [consume] is missing from
    the sources at hand (only the table it works on is declared).  Section
    4.3: "consume(nullifierValue, tokenSerial, txId) -> Ok | AlreadySpent:
    inserts if absent; if present, signals AlreadySpent (the double-spend
    signal)."  The row written carries the four columns of the table. *)
Definition consume (nullifierValue : string) (tokenSerial : serial) (txId : N)
    (w : world) : world * consume_result :=
  let conn := get_db w in
  if is_spent nullifierValue (pending conn) then (w, AlreadySpent)
  else
    let pend := insert_nullifier
      (mkNullifier nullifierValue tokenSerial (clock w) txId) (pending conn) in
    (commit (mkConn pend true) w, Ok).

(** A run of [consume] calls, one after the other. *)
Definition consume_all (calls : list (string * serial * N)) (w : world) : world :=
  fold_left (fun w '(value, tokenSerial, txId) => fst (consume value tokenSerial txId w))
            calls w.

(** The values held by the registry, in insertion order. *)
Definition spent_values (w : world) : list string :=
  map nullifier (nullifiers (store w)).

End NullifierRegistry.

(** ** Histories of the central bank

    The operations a client can run against the central bank, one after the
    other; [OpTick] lets the clock move between them. *)

Module History.

Import Database.

Inductive op : Type :=
| OpMint (denomination : Z) (count : Z)
| OpMintSpecific (denomination_counts : list (Z * Z))
| OpMintMixed (amount : Z)
| OpRegister (fi_id : string) (name : string)
| OpAllocate (fi_id : string) (amount : Z)
| OpTransfer (from_fi to_fi : string) (token_serials : list serial)
| OpTick (now : Z).

(** The recursion of [allocate_tokens_to_fi] is given depth 2: one call and
    one nested call, which is all it ever makes. *)
Definition step (o : op) (w : world) : world :=
  match o with
  | OpMint denomination count => fst (mint_tokens denomination count w)
  | OpMintSpecific counts => fst (mint_specific_denominations counts w)
  | OpMintMixed amount => fst (mint_mixed_tokens amount w)
  | OpRegister fi_id name => fst (register_fi fi_id name w)
  | OpAllocate fi_id amount => fst (allocate_tokens_to_fi 2 fi_id amount w)
  | OpTransfer from_fi to_fi serials =>
      fst (transfer_tokens_between_fis from_fi to_fi serials w)
  | OpTick now => mkWorld (store w) (entropy w) now
  end.

Definition run (ops : list op) (w : world) : world :=
  fold_left (fun w o => step o w) ops w.

(** Total value recorded by the ledger's [mint] entries. *)
Definition ledger_minted (d : db) : Z :=
  sum (map total_amount
           (filter (fun e => transaction_kind_eqb (transaction_type e) mint) (ledger d))).

(** Total value of the tokens whose status is [destroyed]. *)
Definition total_destroyed (d : db) : Z :=
  sum_where (fun r => status_eqb (status r) destroyed) d.

(** [sum(denomination over all tokens with status = active)]. *)
Definition active_supply (d : db) : Z :=
  sum_where (fun r => status_eqb (status r) active) d.

End History.

(** ** Closed forms used in the proofs *)

Module ClosedForms.

(** The denominations as [make_change] walks them, largest first. *)
Definition descending : list Z := sorted_desc id TokenUtils.DENOMINATIONS.

(** What the two nested loops of [make_change] append for [r], and what
    they leave. *)
Fixpoint greedy (denoms : list Z) (r : Z) : list Z :=
  match denoms with
  | [] => []
  | d :: rest => repeat d (Z.to_nat (r / d)) ++ greedy rest (r mod d)
  end.

Fixpoint residue (denoms : list Z) (r : Z) : Z :=
  match denoms with
  | [] => r
  | d :: rest => residue rest (r mod d)
  end.

(** The number of tokens of [greedy]. *)
Fixpoint greedy_count (denoms : list Z) (r : Z) : Z :=
  match denoms with
  | [] => 0
  | d :: rest => r / d + greedy_count rest (r mod d)
  end.

(** One more token of any denomination costs the greedy count at most one
    more token: the check made for each residue below 2000. *)
Definition coin_step_ok (m : Z) : bool :=
  forallb (fun d => greedy_count descending (m + d) <=? greedy_count descending m + 1)
          TokenUtils.DENOMINATIONS.

(** The tokens a minting loop creates for [denoms] when the entropy counter
    stands at [e]. *)
Fixpoint fresh_tokens (denoms : list Z) (e : N) : list TokenUtils.token :=
  match denoms with
  | [] => []
  | d :: rest => TokenUtils.mkToken (d, e) d :: fresh_tokens rest (N.succ e)
  end.

(** The row inserted for a freshly minted token. *)
Definition row_of (timestamp : Z) (batch : N) (t : TokenUtils.token) : Database.token_row :=
  Database.minted_row (TokenUtils.serial_number t) (TokenUtils.denomination t)
                      timestamp batch.

(** The tokens of the CB vault, in table order. *)
Definition cb_vault (d : Database.db) : list TokenUtils.token :=
  map (fun r => TokenUtils.mkToken (Database.serial_number r) (Database.denomination r))
      (filter Database.held_in_cb_vault (Database.tokens d)).

(** [SELECT ... WHERE serial_number = ? AND current_owner = ?] finds a row. *)
Definition owned_by (from_fi : string) (s : Database.serial) (d : Database.db) : bool :=
  existsb (fun r => Database.serial_eqb (Database.serial_number r) s
                    && String.eqb (Database.current_owner r) from_fi)
          (Database.tokens d).

(** Every token row is active and carries a denomination of the fixed set:
    what the minting paths write and no path of the module changes. *)
Definition tokens_valid (d : Database.db) : Prop :=
  Forall (fun r => Database.status r = Database.active /\
                   In (Database.denomination r) TokenUtils.DENOMINATIONS)
         (Database.tokens d).

(** The ledger accounts for the tokens: valid rows whose denominations sum
    to the total of the [mint] entries. *)
Definition conserved (d : Database.db) : Prop :=
  tokens_valid d /\
  sum (map Database.denomination (Database.tokens d)) = History.ledger_minted d.

(** Two databases whose token rows carry the same denominations and
    statuses, row by row, and whose ledgers record the same minted total. *)
Definition same_value (d d' : Database.db) : Prop :=
  map Database.denomination (Database.tokens d')
    = map Database.denomination (Database.tokens d) /\
  map Database.status (Database.tokens d') = map Database.status (Database.tokens d) /\
  History.ledger_minted d' = History.ledger_minted d.

(** Serials are pairwise distinct and all older than the entropy counter:
    what the PRIMARY KEY on [serial_number] relies on. *)
Definition serials_fresh (w : Database.world) : Prop :=
  NoDup (map Database.serial_number (Database.tokens (Database.store w))) /\
  Forall (fun r => (snd (Database.serial_number r) < Database.entropy w)%N)
         (Database.tokens (Database.store w)).

(** Owner and tier agree: a token is either in the vault with tier [cb], or
    with another owner and tier [fi]. *)
Definition tiers_consistent (d : Database.db) : Prop :=
  Forall (fun r =>
            (Database.current_owner r = "CB"%string /\ Database.owner_type r = Database.cb)
            \/ (Database.current_owner r <> "CB"%string /\
                Database.owner_type r = Database.fi))
         (Database.tokens d).

(** [w'] differs from [w] in its tokens by freshly minted rows at most. *)
Definition minted_into (w w' : Database.world) : Prop :=
  exists denoms timestamp batch e0,
    (Database.entropy w <= e0)%N /\
    (e0 + N.of_nat (List.length denoms) <= Database.entropy w')%N /\
    Database.tokens (Database.store w')
    = Database.tokens (Database.store w)
      ++ map (row_of timestamp batch) (fresh_tokens denoms e0).

(** An operation that names the vault neither as the target of an
    allocation nor as a party of a transfer. *)
Definition vault_not_a_party (o : History.op) : Prop :=
  match o with
  | History.OpAllocate fi_id _ => fi_id <> "CB"%string
  | History.OpTransfer from_fi to_fi _ => from_fi <> "CB"%string /\ to_fi <> "CB"%string
  | _ => True
  end.

(** The FI is in [financial_institutions]. *)
Definition registered (fi_id : string) (d : Database.db) : Prop :=
  exists f, find (fun f => String.eqb (Database.fi_id f) fi_id)
                 (Database.financial_institutions d) = Some f.

(** The vault holds tokens of positive denomination only. *)
Definition vault_positive (d : Database.db) : Prop :=
  Forall (fun t => 0 < TokenUtils.denomination t) (cb_vault d).

(** The value held in the vault. *)
Definition vault_total (d : Database.db) : Z :=
  TokenUtils.tokens_to_amount (cb_vault d).



End ClosedForms.

(** ** Concrete histories *)

Module Examples.

Import Database History.

(** FI-A registers, then the bank mints one 100. *)
Definition one_hundred : world :=
  run [OpRegister "FI-A" "Bank A"; OpMint 100 1] empty_world.

(** FI-A registers, then the bank mints two 100s. *)
Definition two_hundreds : world :=
  run [OpRegister "FI-A" "Bank A"; OpMint 100 2] empty_world.

(** FI-A registers, the bank mints three 100s and allocates 200 to FI-A:
    FI-A holds serials 2 and 3, the vault keeps serial 4. *)
Definition allocated : world :=
  run [OpRegister "FI-A" "Bank A"; OpMint 100 3; OpAllocate "FI-A" 200] empty_world.

(** The bank mints one 100 and the transfer endpoint is asked to move it
    from "CB" to FI-A. *)
Definition transfer_out_of_vault : list op :=
  [OpRegister "FI-A" "Bank A"; OpMint 100 1; OpTransfer "CB" "FI-A" [(100, 2%N)]].

(** An FI registers under the vault's own id, "CB", and is allocated the
    one 100 the bank has minted. *)
Definition allocate_to_fi_named_cb : list op :=
  [OpRegister "CB" "Bank C"; OpMint 100 1; OpAllocate "CB" 100].


End Examples.

(** ** shared/token_utils.py, the remaining helpers *)

Module TokenTools.

Import TokenUtils.

(** [break_token] (lines 93-113); the result is the Python pair
    [(tokens_for_recipient, tokens_for_sender)]. *)
Definition break_token (token : TokenUtils.token) (target_amount : Z)
    : option (list Z * list Z) :=
  let denomination := TokenUtils.denomination token in
  if target_amount >? denomination then Some ([], [denomination])
  else if target_amount =? denomination then Some ([denomination], [])
  else
    match make_change target_amount with
    | None => None
    | Some recipient_tokens =>
        match make_change (denomination - target_amount) with
        | None => None
        | Some change_tokens => Some (recipient_tokens, change_tokens)
        end
    end.

(** A Python dict from denominations to counts, as its items in insertion
    order; [dict_get] is [result.get(d, default)], [dict_set] is
    [result[d] = v]. *)
Fixpoint dict_get (d : Z) (result : list (Z * Z)) (default : Z) : Z :=
  match result with
  | [] => default
  | (k, v) :: rest => if k =? d then v else dict_get d rest default
  end.

Fixpoint dict_set (d : Z) (v : Z) (result : list (Z * Z)) : list (Z * Z) :=
  match result with
  | [] => [(d, v)]
  | (k, v0) :: rest => if k =? d then (k, v) :: rest else (k, v0) :: dict_set d v rest
  end.

(** [TokenBundle.by_denomination] (lines 150-156), on [self.tokens]; the
    same loop groups the tokens in [format_token_display] (lines 122-125). *)
Definition by_denomination (self_tokens : list TokenUtils.token) : list (Z * Z) :=
  fold_left
    (fun result t =>
       let d := TokenUtils.denomination t in
       dict_set d (dict_get d result 0 + 1) result)
    self_tokens [].

(** [TokenBundle.total] and [TokenBundle.count] (lines 142-148). *)
Definition total (self_tokens : list TokenUtils.token) : Z :=
  tokens_to_amount self_tokens.

Definition count (self_tokens : list TokenUtils.token) : Z :=
  Z.of_nat (List.length self_tokens).

End TokenTools.

(** ** central_bank/database.py, the read queries *)

Module Queries.

Import Database.

(** A row of the result of [get_fi_tokens]. *)
Record holding : Type := mkHolding {
  h_serial_number : serial;
  h_denomination : Z;
  h_minted_at : Z;
  h_last_transfer_at : option Z
}.

(** [WHERE current_owner = ? AND status = 'active']. *)
Definition held_by (owner : string) (r : token_row) : bool :=
  String.eqb (current_owner r) owner && status_eqb (status r) active.

(** [get_fi_tokens] (lines 416-429); as in the vault query, rows of equal
    denomination come in insertion order. *)
Definition get_fi_tokens (fi_id0 : string) (w : world) : list holding :=
  sorted_desc h_denomination
    (map (fun r => mkHolding (serial_number r) (denomination r) (minted_at r)
                             (last_transfer_at r))
         (filter (held_by fi_id0) (tokens (store w)))).


(** A row of the result of [get_all_fis]. *)
Record fi_summary : Type := mkSummary {
  s_fi_id : string;
  s_name : string;
  s_registered_at : Z;
  s_balance : Z
}.

(** [get_all_fis] (lines 494-511). *)
Definition get_all_fis (w : world) : list fi_summary :=
  map (fun f => mkSummary (fi_id f) (name f) (registered_at f)
                          (sum_where (held_by (fi_id f)) (store w)))
      (financial_institutions (store w)).

(** [validate_wallet] (lines 559-576): [Some balance] is
    [{'valid': True, ..., 'balance': balance}], [None] is [{'valid': False}]. *)
Definition validate_wallet (wallet_id : string) (w : world) : option Z :=
  let rows := filter (held_by wallet_id) (tokens (store w)) in
  if Z.of_nat (List.length rows) >? 0 then Some (sum (map denomination rows))
  else None.

End Queries.

(** ** Auxiliary forms for the further properties *)

Module MoreForms.

Import ClosedForms.

(** The greedy count of a residue below 2000 is at most 11. *)
Definition coin_count_ok (m : Z) : bool := greedy_count descending m <=? 11.

(** A list of integers that never increases. *)
Definition nonincreasing (l : list Z) : Prop := StronglySorted (fun a b => b <= a) l.

(** A list ordered by a key, largest first. *)
Definition ordered_desc {A} (key : A -> Z) (l : list A) : Prop :=
  StronglySorted (fun a b => key b <= key a) l.

(** The value a denomination-to-count dict stands for, and the number of
    tokens it counts. *)
Definition dict_value (result : list (Z * Z)) : Z :=
  sum (map (fun kv => fst kv * snd kv) result).

Definition dict_tokens (result : list (Z * Z)) : Z :=
  sum (map snd result).

(** The number of tokens of denomination [d]. *)
Definition count_of (d : Z) (tokens : list TokenUtils.token) : Z :=
  Z.of_nat (List.length (filter (fun t => TokenUtils.denomination t =? d) tokens)).

(** An item of a [mint_specific_denominations] request that passes its
    validation: a valid denomination with a count from 1 to 10000. *)
Definition request_ok (item : Z * Z) : Prop :=
  In (fst item) TokenUtils.DENOMINATIONS /\ 1 <= snd item <= 10000.

(** The denominations a validated request mints, in minting order. *)
Definition minted_denominations (items : list (Z * Z)) : list Z :=
  flat_map (fun item => repeat (fst item) (Z.to_nat (snd item))) items.

(** What never changes about a token once it is minted. *)
Definition token_core (r : Database.token_row)
    : Database.serial * Z * Database.token_status * Z * N :=
  (Database.serial_number r, Database.denomination r, Database.status r,
   Database.minted_at r, Database.batch_id r).

(** [d'] is [d] grown: token rows are kept in place with their core, new
    ones come after them; ledger entries and FI rows are kept and new ones
    appended, FI ids staying distinct; the nullifier table is the same. *)
Definition grows (d d' : Database.db) : Prop :=
  (exists new, map token_core (Database.tokens d')
               = map token_core (Database.tokens d) ++ new) /\
  (exists new, Database.ledger d' = Database.ledger d ++ new) /\
  (exists new, Database.financial_institutions d'
               = Database.financial_institutions d ++ new) /\
  (NoDup (map Database.fi_id (Database.financial_institutions d)) ->
   NoDup (map Database.fi_id (Database.financial_institutions d'))) /\
  Database.nullifiers d' = Database.nullifiers d.

(** What an owner holds: [SUM(denomination) ... WHERE current_owner = ? AND
    status = 'active'], the balance every query of the module reports. *)
Definition balance (owner : string) (d : Database.db) : Z :=
  Database.sum_where (Queries.held_by owner) d.

(** Every token row is active. *)
Definition all_active (d : Database.db) : Prop :=
  Forall (fun r => Database.status r = Database.active) (Database.tokens d).

(** Serials are pairwise distinct in the token table. *)
Definition serials_distinct (d : Database.db) : Prop :=
  NoDup (map Database.serial_number (Database.tokens d)).

(** The denomination of the row the ownership query of a transfer finds
    for a serial (0 when it finds none). *)
Definition owned_denomination (from_fi : string) (d : Database.db) (s : Database.serial) : Z :=
  match find (fun r => Database.serial_eqb (Database.serial_number r) s
                       && String.eqb (Database.current_owner r) from_fi)
             (Database.tokens d) with
  | Some r => Database.denomination r
  | None => 0
  end.

End MoreForms.

(** ** shared/zkp.py

    The simulated proofs are SHA-256 digests of formatted strings.  The
    digest is a parameter of the model ([sha256 data] stands for
    [hashlib.sha256(data.encode()).hexdigest()]), and so is Python's
    rendering of the transaction dict ([str(tx_data)]).  The results of
    [time.time()] and [secrets.token_hex] are arguments of the generating
    functions; the verifying functions take the current time [now]. *)

Module Zkp.

Local Open Scope string_scope.

(** [COMPLIANCE_LIMITS] (lines 14-20). *)
Definition SINGLE_TX_LIMIT : Z := 50000.
Definition DAILY_LIMIT : Z := 200000.
Definition MONTHLY_LIMIT : Z := 1000000.
Definition OFFLINE_LIMIT : Z := 10000.
Definition IOT_DEVICE_LIMIT : Z := 5000.

(** The five minutes, in milliseconds, a proof stays fresh. *)
Definition MAX_AGE : Z := 5 * 60 * 1000.

(** An integer and a boolean inside an f-string. *)
Definition str_int (z : Z) : string := NilZero.string_of_int (Z.to_int z).

Definition str_bool (b : bool) : string := if b then "True" else "False".

(** Python's truth value of an optional string: [None] and the empty string
    are false. *)
Definition truthy (s : option string) : bool :=
  match s with
  | Some s => negb (String.eqb s "")
  | None => false
  end.




(** The dict returned by [generate_ownership_proof]. *)
Record ownership_proof : Type := mkOwnership {
  op_type : string;
  op_public_key : string;
  op_token_serial : option string;
  op_challenge : string;
  op_timestamp : Z;
  op_nonce : string;
  op_proof : string;
  op_verification_hash : string
}.

(** The [checks] dict of a compliance proof. *)
Record compliance_checks : Type := mkChecks {
  single_tx_valid : bool;
  daily_valid : bool;
  monthly_valid : bool;
  offline_valid : bool;
  iot_valid : bool
}.

(** The dict returned by [generate_compliance_proof]. *)
Record compliance_proof : Type := mkCompliance {
  cp_type : string;
  cp_timestamp : Z;
  cp_nonce : string;
  cp_is_compliant : bool;
  cp_checks : compliance_checks;
  cp_commitment : string;
  cp_verification_tag : string
}.


(** The answer of [verify_compliance_proof]: [{'valid': False, 'error': e}]
    or [{'valid': True, 'is_compliant': b, 'checks': c}]. *)
Inductive compliance_verdict : Type :=
| Invalid (error : string)
| Valid (is_compliant : bool) (checks : compliance_checks).

(** [str(checks)]: the dict of five booleans, in insertion order. *)
Definition str_checks (c : compliance_checks) : string :=
  "{'single_tx_valid': " ++ str_bool (single_tx_valid c)
  ++ ", 'daily_valid': " ++ str_bool (daily_valid c)
  ++ ", 'monthly_valid': " ++ str_bool (monthly_valid c)
  ++ ", 'offline_valid': " ++ str_bool (offline_valid c)
  ++ ", 'iot_valid': " ++ str_bool (iot_valid c) ++ "}".

(** Lines 163-170 of [generate_compliance_proof]. *)
Definition compliance_checks_of (amount daily_spent monthly_spent : Z)
    (is_offline is_iot : bool) : compliance_checks :=
  mkChecks (amount <=? SINGLE_TX_LIMIT)%Z
           (daily_spent + amount <=? DAILY_LIMIT)%Z
           (monthly_spent + amount <=? MONTHLY_LIMIT)%Z
           (negb is_offline || (amount <=? OFFLINE_LIMIT)%Z)
           (negb is_iot || (amount <=? IOT_DEVICE_LIMIT)%Z).

(** [all(checks.values())]. *)
Definition all_checks (c : compliance_checks) : bool :=
  single_tx_valid c && daily_valid c && monthly_valid c && offline_valid c
  && iot_valid c.

Section Hashing.

Variable sha256 : string -> string.

(** [str(tx_data)] for the dict with keys from, to, tokens, amount,
    timestamp. *)
Variable str_tx_data : string -> string -> list string -> Z -> Z -> string.

(** [derive_public_key] (lines 28-31). *)
Definition derive_public_key (private_key : string) : string :=
  "pk_" ++ substring 0 40 (sha256 private_key).

(** The string both [generate_ownership_proof] and [verify_ownership_proof]
    hash for the verification hash. *)
Definition verify_data (public_key challenge : string) (timestamp : Z)
    (token_serial : option string) : string :=
  let data := public_key ++ "|" ++ challenge ++ "|" ++ str_int timestamp in
  match token_serial with
  | Some s => if truthy token_serial then data ++ "|" ++ s else data
  | None => data
  end.

(** [generate_ownership_proof] (lines 41-74).  [timestamp] is the clock,
    [nonce] is [secrets.token_hex(16)] and [random_challenge] is the
    [secrets.token_hex(32)] used when no challenge is given. *)
Definition generate_ownership_proof (timestamp : Z) (nonce random_challenge : string)
    (private_key public_key : string) (token_serial : option string)
    (challenge : option string) : ownership_proof :=
  let challenge_value :=
    match challenge with
    | Some c => if truthy challenge then c else random_challenge
    | None => random_challenge
    end in
  let sign_data :=
    private_key ++ "|" ++ challenge_value ++ "|" ++ str_int timestamp ++ "|" ++ nonce in
  let sign_data :=
    match token_serial with
    | Some s => if truthy token_serial then sign_data ++ "|" ++ s else sign_data
    | None => sign_data
    end in
  let signature := sha256 sign_data in
  let verification_hash :=
    substring 0 16 (sha256 (verify_data public_key challenge_value timestamp token_serial)) in
  mkOwnership "ownership" public_key token_serial challenge_value timestamp nonce
              signature verification_hash.

(** [verify_ownership_proof] (lines 77-94). *)
Definition verify_ownership_proof (proof : ownership_proof)
    (expected_public_key : string) (now : Z) : bool :=
  if negb (String.eqb (op_type proof) "ownership") then false
  else if negb (String.eqb (op_public_key proof) expected_public_key) then false
  else
    let age := now - op_timestamp proof in
    if age >? MAX_AGE then false
    else
      let expected_hash :=
        substring 0 16
          (sha256 (verify_data (op_public_key proof) (op_challenge proof)
                               (op_timestamp proof) (op_token_serial proof))) in
      String.eqb (op_verification_hash proof) expected_hash.



(** The string hashed for the verification tag of a compliance proof. *)
Definition compliance_tag (commitment : string) (timestamp : Z) (is_compliant : bool)
    : string :=
  substring 0 24
    (sha256 (commitment ++ "|" ++ str_int timestamp ++ "|" ++ str_bool is_compliant)).

(** [generate_compliance_proof] (lines 153-191). *)
Definition generate_compliance_proof (timestamp : Z) (nonce : string)
    (amount daily_spent monthly_spent : Z) (is_offline is_iot : bool)
    : compliance_proof :=
  let checks := compliance_checks_of amount daily_spent monthly_spent is_offline is_iot in
  let is_compliant := all_checks checks in
  let commitment := sha256 ("COMPLIANCE|" ++ str_checks checks ++ "|" ++ nonce) in
  mkCompliance "compliance_proof" timestamp nonce is_compliant checks commitment
               (compliance_tag commitment timestamp is_compliant).

(** [verify_compliance_proof] (lines 194-219). *)
Definition verify_compliance_proof (proof : compliance_proof) (now : Z)
    : compliance_verdict :=
  if negb (String.eqb (cp_type proof) "compliance_proof") then
    Invalid "Invalid proof type"
  else
    let age := now - cp_timestamp proof in
    if age >? MAX_AGE then Invalid "Proof expired"
    else
      let expected_tag :=
        compliance_tag (cp_commitment proof) (cp_timestamp proof) (cp_is_compliant proof) in
      if negb (String.eqb (cp_verification_tag proof) expected_tag) then
        Invalid "Invalid verification tag"
      else Valid (cp_is_compliant proof) (cp_checks proof).

End Hashing.

End Zkp.


(** * Properties *)

(** ** Lists, sums and the two sorts *)

Lemma sum_app (l1 l2 : list Z) : sum (l1 ++ l2) = sum l1 + sum l2.
Proof. unfold sum. induction l1 as [|x l1 IH]; simpl; lia. Qed.

Lemma sum_repeat (d : Z) (n : nat) : sum (repeat d n) = d * Z.of_nat n.
Proof.
  induction n as [|n IH]; [simpl; lia|].
  rewrite Nat2Z.inj_succ. change (sum (repeat d (S n))) with (d + sum (repeat d n)). lia.
Qed.

Lemma sum_nonneg (l : list Z) : Forall (fun d => 0 < d) l -> 0 <= sum l.
Proof. induction 1 as [|x l Hx _ IH]; simpl; lia. Qed.

Lemma sum_perm (l1 l2 : list Z) : Permutation l1 l2 -> sum l1 = sum l2.
Proof. induction 1; simpl; lia. Qed.

Lemma insert_desc_perm {A} (key : A -> Z) (x : A) (l : list A) :
  Permutation (insert_desc key x l) (x :: l).
Proof.
  induction l as [|y ys IH]; simpl; [reflexivity|].
  destruct (key x <? key y); [|reflexivity].
  rewrite IH. apply perm_swap.
Qed.

Lemma sorted_desc_perm {A} (key : A -> Z) (l : list A) :
  Permutation (sorted_desc key l) l.
Proof.
  induction l as [|x l IH]; simpl; [reflexivity|].
  rewrite insert_desc_perm. now constructor.
Qed.

Lemma insert_asc_perm {A} (key : A -> Z) (x : A) (l : list A) :
  Permutation (insert_asc key x l) (x :: l).
Proof.
  induction l as [|y ys IH]; simpl; [reflexivity|].
  destruct (key y <? key x); [|reflexivity].
  rewrite IH. apply perm_swap.
Qed.

Lemma sorted_asc_perm {A} (key : A -> Z) (l : list A) :
  Permutation (sorted_asc key l) l.
Proof.
  induction l as [|x l IH]; simpl; [reflexivity|].
  rewrite insert_asc_perm. now constructor.
Qed.

(** What the selection loop returns: it took a prefix of the tokens, and it
    stopped short of the end only once the total had reached the amount. *)
Lemma accumulate_until_spec {A} (denom : A -> Z) (amount : Z) (tokens : list A) :
  forall selected total,
  exists taken rest,
    tokens = taken ++ rest /\
    accumulate_until denom amount tokens selected total
      = (selected ++ taken, total + sum (map denom taken)) /\
    (total + sum (map denom taken) < amount -> rest = []).
Proof.
  induction tokens as [|t ts IH]; intros selected total.
  - exists [], []. simpl. rewrite app_nil_r, Z.add_0_r. auto.
  - simpl. destruct (Z.geb_spec total amount) as [Hge|Hlt].
    + exists [], (t :: ts). simpl. rewrite app_nil_r, Z.add_0_r.
      split; [reflexivity|]. split; [reflexivity|]. intros; exfalso; lia.
    + destruct (IH (selected ++ [t]) (total + denom t)) as (taken & rest & -> & Heq & Hrest).
      exists (t :: taken), rest. simpl. rewrite Heq, <- app_assoc. simpl.
      split; [reflexivity|]. split; [f_equal; lia|]. intros H. apply Hrest. lia.
Qed.


(** ** The denomination engine *)

Module DenominationEngine.

Import TokenUtils ClosedForms.

Lemma descending_eq : descending = [2000; 500; 200; 100; 50; 20; 10; 5; 2; 1].
Proof. reflexivity. Qed.

Lemma descending_positive : Forall (fun d => 0 < d) descending.
Proof. rewrite descending_eq. repeat constructor. Qed.

Lemma denominations_positive (d : Z) : In d DENOMINATIONS -> 0 < d.
Proof. unfold DENOMINATIONS. simpl. intuition lia. Qed.

Lemma descending_in (d : Z) : In d descending <-> In d DENOMINATIONS.
Proof.
  unfold descending. split; apply Permutation_in;
    [|symmetry]; apply sorted_desc_perm.
Qed.

(** The [while] loop with enough fuel: it appends [remaining / denom] copies
    of [denom] and leaves [remaining mod denom]. *)
Lemma while_ge_spec (fuel : nat) (denom : Z) :
  forall change remaining,
    0 < denom -> 0 <= remaining -> (Z.to_nat remaining < fuel)%nat ->
    while_ge fuel denom change remaining
      = Some (change ++ repeat denom (Z.to_nat (remaining / denom)), remaining mod denom).
Proof.
  induction fuel as [|fuel IH]; intros change remaining Hd Hr Hfuel; [lia|].
  simpl. destruct (Z.geb_spec remaining denom) as [Hge|Hlt].
  - rewrite IH by lia.
    replace (remaining / denom) with ((remaining - denom) / denom + 1).
    2:{ replace remaining with ((remaining - denom) + 1 * denom) at 2 by lia.
        rewrite Z.div_add by lia. reflexivity. }
    replace (remaining mod denom) with ((remaining - denom) mod denom).
    2:{ replace remaining with ((remaining - denom) + 1 * denom) at 2 by lia.
        rewrite Z.mod_add by lia. reflexivity. }
    assert (0 <= (remaining - denom) / denom) by (apply Z.div_pos; lia).
    rewrite Z2Nat.inj_add by lia. rewrite Nat.add_comm. simpl.
    rewrite <- app_assoc. reflexivity.
  - rewrite Z.div_small, Z.mod_small by lia. simpl. now rewrite app_nil_r.
Qed.

Lemma for_denoms_spec (fuel : nat) (denoms : list Z) :
  forall change remaining,
    Forall (fun d => 0 < d) denoms -> 0 <= remaining ->
    (Z.to_nat remaining < fuel)%nat ->
    for_denoms fuel denoms change remaining
      = Some (change ++ greedy denoms remaining, residue denoms remaining).
Proof.
  induction denoms as [|d rest IH]; intros change remaining Hpos Hr Hfuel; simpl.
  - now rewrite app_nil_r.
  - inversion Hpos as [|? ? Hd Hrest]; subst.
    rewrite while_ge_spec by assumption.
    assert (0 <= remaining mod d < d) by (apply Z.mod_pos_bound; lia).
    assert (remaining mod d <= remaining) by (apply Z.mod_le; lia).
    rewrite IH by (auto; lia). now rewrite <- app_assoc.
Qed.

Lemma greedy_sum (denoms : list Z) :
  forall r, Forall (fun d => 0 < d) denoms -> 0 <= r ->
    sum (greedy denoms r) + residue denoms r = r.
Proof.
  induction denoms as [|d rest IH]; intros r Hpos Hr; simpl; [lia|].
  inversion Hpos as [|? ? Hd Hrest]; subst.
  assert (0 <= r mod d < d) by (apply Z.mod_pos_bound; lia).
  assert (0 <= r / d) by (apply Z.div_pos; lia).
  rewrite sum_app, sum_repeat, Z2Nat.id by lia.
  specialize (IH (r mod d) Hrest ltac:(lia)).
  pose proof (Z.div_mod r d ltac:(lia)). lia.
Qed.

Lemma greedy_members (denoms : list Z) :
  forall r, Forall (fun d => In d denoms) (greedy denoms r).
Proof.
  induction denoms as [|d rest IH]; intros r; simpl; [constructor|].
  apply Forall_app. split.
  - apply Forall_forall. intros x Hx. apply repeat_spec in Hx. now left.
  - eapply Forall_impl; [|apply IH]. intros x Hx. now right.
Qed.

Lemma residue_zero (denoms : list Z) : residue denoms 0 = 0.
Proof. induction denoms as [|d rest IH]; simpl; [reflexivity|]. now rewrite Zmod_0_l. Qed.

Lemma residue_descending (r : Z) : 0 <= r -> residue descending r = 0.
Proof.
  intros Hr. rewrite descending_eq. cbn [residue].
  rewrite Z.mod_1_r. reflexivity.
Qed.

(** [make_change] in closed form, for any fuel above the amount. *)
Lemma make_change_fuel_greedy (fuel : nat) (amount : Z) :
  0 < amount -> (Z.to_nat amount < fuel)%nat ->
  make_change_fuel fuel amount = Some (greedy descending amount).
Proof.
  intros Hpos Hfuel. unfold make_change_fuel.
  destruct (Z.leb_spec amount 0); [lia|].
  fold descending.
  rewrite for_denoms_spec by (auto using descending_positive; lia).
  reflexivity.
Qed.

Lemma make_change_greedy (amount : Z) :
  0 < amount -> make_change amount = Some (greedy descending amount).
Proof. intros H. apply make_change_fuel_greedy; [assumption|lia]. Qed.

Lemma make_change_nonpositive (amount : Z) :
  amount <= 0 -> make_change amount = Some [].
Proof.
  intros H. unfold make_change, make_change_fuel.
  destruct (Z.leb_spec amount 0); [reflexivity|lia].
Qed.

(** The fuel handed to the loops never runs out, and more fuel changes
    nothing. *)
Lemma make_change_total (amount : Z) :
  exists change, make_change amount = Some change /\
    forall fuel, (Z.to_nat amount < fuel)%nat -> make_change_fuel fuel amount = Some change.
Proof.
  destruct (Z.leb_spec amount 0) as [Hle|Hgt].
  - exists []. split; [now apply make_change_nonpositive|].
    intros fuel _. unfold make_change_fuel.
    destruct (Z.leb_spec amount 0); [reflexivity|lia].
  - exists (greedy descending amount). split; [now apply make_change_greedy|].
    intros fuel Hfuel. now apply make_change_fuel_greedy.
Qed.

Lemma greedy_descending_sum (amount : Z) :
  0 <= amount -> sum (greedy descending amount) = amount.
Proof.
  intros H. pose proof (greedy_sum descending amount descending_positive H) as Hs.
  rewrite residue_descending in Hs by assumption. lia.
Qed.

Lemma greedy_descending_members (amount : Z) :
  Forall (fun d => In d DENOMINATIONS) (greedy descending amount).
Proof.
  eapply Forall_impl; [|apply greedy_members].
  intros d. apply descending_in.
Qed.

(** C5 (change correctness): for a positive amount [make_change] returns
    tokens that all belong to the fixed denomination set and sum exactly to
    the amount; for an amount that is zero or negative it returns the empty
    list. *)
Theorem make_change_correct (amount : Z) :
  (0 < amount ->
     exists change, make_change amount = Some change /\
       Forall (fun d => In d [1; 2; 5; 10; 20; 50; 100; 200; 500; 2000]) change /\
       sum change = amount) /\
  (amount <= 0 -> make_change amount = Some []).
Proof.
  split.
  - intros Hpos. exists (greedy descending amount).
    split; [now apply make_change_greedy|].
    split; [apply greedy_descending_members|].
    apply greedy_descending_sum. lia.
  - apply make_change_nonpositive.
Qed.

Lemma make_change_correct_witness :
  exists change, make_change 3888 = Some change /\
    Forall (fun d => In d [1; 2; 5; 10; 20; 50; 100; 200; 500; 2000]) change /\
    sum change = 3888.
Proof. apply (proj1 (make_change_correct 3888)). lia. Defined.

(** *** Optimality of the greedy decomposition *)

Lemma greedy_length (denoms : list Z) :
  forall r, Forall (fun d => 0 < d) denoms -> 0 <= r ->
    Z.of_nat (List.length (greedy denoms r)) = greedy_count denoms r /\
    0 <= greedy_count denoms r.
Proof.
  induction denoms as [|d rest IH]; intros r Hpos Hr; simpl; [lia|].
  inversion Hpos as [|? ? Hd Hrest]; subst.
  assert (0 <= r mod d < d) by (apply Z.mod_pos_bound; lia).
  assert (0 <= r / d) by (apply Z.div_pos; lia).
  destruct (IH (r mod d) Hrest ltac:(lia)) as [IH1 IH2].
  rewrite length_app, repeat_length, Nat2Z.inj_add, Z2Nat.id by lia. lia.
Qed.

(** The greedy count is 2000-periodic up to one token per period. *)
Lemma greedy_count_period (m q : Z) :
  greedy_count descending (m + q * 2000) = greedy_count descending m + q.
Proof.
  rewrite descending_eq. cbn [greedy_count].
  rewrite Z.div_add, Z.mod_add by lia. lia.
Qed.

Lemma coin_step_table :
  forallb coin_step_ok (map Z.of_nat (seq 0 2000)) = true.
Proof. vm_compute. reflexivity. Qed.

Lemma coin_step_small (m d : Z) :
  0 <= m < 2000 -> In d DENOMINATIONS ->
  greedy_count descending (m + d) <= greedy_count descending m + 1.
Proof.
  intros Hm Hd.
  pose proof coin_step_table as Htab.
  rewrite forallb_forall in Htab.
  specialize (Htab m). unfold coin_step_ok in Htab.
  rewrite forallb_forall in Htab.
  apply Z.leb_le. apply Htab; [|assumption].
  apply in_map_iff. exists (Z.to_nat m). split; [lia|].
  apply in_seq. lia.
Qed.

(** Adding one token of any denomination to an amount raises the greedy
    count by at most one. *)
Lemma coin_step (m d : Z) :
  0 <= m -> In d DENOMINATIONS ->
  greedy_count descending (m + d) <= greedy_count descending m + 1.
Proof.
  intros Hm Hd.
  pose proof (Z.div_mod m 2000 ltac:(lia)) as Hdm.
  pose proof (Z.mod_pos_bound m 2000 ltac:(lia)) as Hb.
  replace (m + d) with ((m mod 2000 + d) + (m / 2000) * 2000) by lia.
  replace m with (m mod 2000 + (m / 2000) * 2000) at 3 by lia.
  rewrite !greedy_count_period.
  pose proof (coin_step_small (m mod 2000) d Hb Hd). lia.
Qed.

Lemma greedy_count_zero : greedy_count descending 0 = 0.
Proof. reflexivity. Qed.

Lemma greedy_count_le_length (l : list Z) :
  Forall (fun d => In d DENOMINATIONS) l ->
  0 <= sum l /\ greedy_count descending (sum l) <= Z.of_nat (List.length l).
Proof.
  induction 1 as [|d l Hd _ [IH0 IH]].
  - change (sum []) with 0. rewrite greedy_count_zero. simpl. lia.
  - pose proof (denominations_positive d Hd).
    change (sum (d :: l)) with (d + sum l).
    rewrite (Z.add_comm d). pose proof (coin_step (sum l) d IH0 Hd).
    rewrite length_cons, Nat2Z.inj_succ. lia.
Qed.

(** C6 (greedy optimality): for a positive amount, no list of tokens drawn
    from the denomination set and summing to the amount is shorter than the
    list [make_change] returns. *)
Theorem make_change_optimal (amount : Z) (l : list Z) :
  0 < amount ->
  Forall (fun d => In d [1; 2; 5; 10; 20; 50; 100; 200; 500; 2000]) l ->
  sum l = amount ->
  exists change, make_change amount = Some change /\
    sum change = amount /\
    (List.length change <= List.length l)%nat.
Proof.
  intros Hpos Hl Hsum.
  exists (greedy descending amount).
  split; [now apply make_change_greedy|].
  split; [apply greedy_descending_sum; lia|].
  destruct (greedy_length descending amount descending_positive ltac:(lia)) as [Hlen _].
  destruct (greedy_count_le_length l Hl) as [_ Hle].
  rewrite Hsum in Hle. lia.
Qed.

Lemma make_change_optimal_witness :
  exists change, make_change 6 = Some change /\
    sum change = 6 /\ (List.length change <= List.length [2; 2; 2])%nat.
Proof.
  apply (make_change_optimal 6 [2; 2; 2]).
  - lia.
  - repeat (apply Forall_cons; [simpl; tauto|]). apply Forall_nil.
  - reflexivity.
Defined.

(** *** Selecting tokens for a payment *)

Lemma tokens_to_amount_perm (l1 l2 : list token) :
  Permutation l1 l2 -> tokens_to_amount l1 = tokens_to_amount l2.
Proof. intros H. unfold tokens_to_amount. apply sum_perm. now apply Permutation_map. Qed.

(** [calculate_change] in its two cases: the greedy prefix of the sorted
    tokens when it covers the amount, the shortfall over all tokens when it
    does not. *)
Lemma calculate_change_cases (amount : Z) (available : list token) :
  exists taken rest,
    sorted_desc denomination available = taken ++ rest /\
    ((amount <= tokens_to_amount taken /\
      exists change,
        make_change (tokens_to_amount taken - amount) = Some change /\
        calculate_change amount available = Some (taken, change, 0))
     \/
     (rest = [] /\ tokens_to_amount available < amount /\
      calculate_change amount available
        = Some ([], [], amount - tokens_to_amount available))).
Proof.
  unfold calculate_change.
  destruct (accumulate_until_spec denomination amount
              (sorted_desc denomination available) [] 0)
    as (taken & rest & Hsplit & Heq & Hrest).
  rewrite Heq. cbn [app]. rewrite Z.add_0_l in *.
  fold (tokens_to_amount taken) in *.
  exists taken, rest. split; [assumption|].
  destruct (Z.ltb_spec (tokens_to_amount taken) amount) as [Hlt|Hge].
  - right. specialize (Hrest Hlt). subst rest. rewrite app_nil_r in Hsplit.
    assert (tokens_to_amount taken = tokens_to_amount available) as Hsum.
    { apply tokens_to_amount_perm. rewrite <- Hsplit. apply sorted_desc_perm. }
    rewrite <- Hsum. auto.
  - left. split; [assumption|].
    destruct (make_change_total (tokens_to_amount taken - amount)) as (change & Hc & _).
    exists change. rewrite Hc. auto.
Qed.

(** C7 (selection soundness): [calculate_change] and
    [TokenBundle.select_for_payment] either return a selection, drawn from
    the available tokens, whose denominations sum to at least the requested
    amount, or signal insufficient funds with an empty selection and exactly
    the shortfall: the amount minus the sum of all available tokens. *)
Theorem select_for_payment_sound (available : list token) (amount : Z) :
  exists spend change remaining,
    calculate_change amount available = Some (spend, change, remaining) /\
    ((remaining = 0 /\
      amount <= tokens_to_amount spend /\
      (exists rest, Permutation (spend ++ rest) available) /\
      select_for_payment available amount
        = Some (spend, tokens_to_amount spend - amount))
     \/
     (0 < remaining /\
      spend = [] /\ change = [] /\
      remaining = amount - tokens_to_amount available /\
      select_for_payment available amount = Some ([], remaining))).
Proof.
  destruct (calculate_change_cases amount available)
    as (taken & rest & Hsplit & [(Hge & change & _ & Hcalc) | (_ & Hlt & Hcalc)]).
  - exists taken, change, 0. split; [assumption|]. left.
    split; [reflexivity|]. split; [assumption|]. split.
    + exists rest. rewrite <- Hsplit. apply sorted_desc_perm.
    + unfold select_for_payment. rewrite Hcalc. reflexivity.
  - exists [], [], (amount - tokens_to_amount available).
    split; [assumption|]. right.
    split; [lia|]. repeat (split; [reflexivity|]).
    unfold select_for_payment. rewrite Hcalc.
    destruct (Z.gtb_spec (amount - tokens_to_amount available) 0); [reflexivity|lia].
Qed.

End DenominationEngine.

(** ** The ownership ledger *)

Module OwnershipLedger.

Import Database History ClosedForms.

Lemma serial_eqb_eq (a b : serial) : serial_eqb a b = true <-> a = b.
Proof.
  unfold serial_eqb, TokenUtils.serial_eqb. destruct a as [a1 a2], b as [b1 b2]. simpl.
  rewrite andb_true_iff, Z.eqb_eq, N.eqb_eq. split.
  - intros [-> ->]. reflexivity.
  - intros H. inversion H. auto.
Qed.

Lemma fresh_tokens_denominations (denoms : list Z) :
  forall e, map TokenUtils.denomination (fresh_tokens denoms e) = denoms.
Proof. induction denoms as [|d rest IH]; intros e; simpl; [|rewrite IH]; reflexivity. Qed.

Lemma fresh_tokens_amount (denoms : list Z) (e : N) :
  TokenUtils.tokens_to_amount (fresh_tokens denoms e) = sum denoms.
Proof. unfold TokenUtils.tokens_to_amount. now rewrite fresh_tokens_denominations. Qed.

Lemma tokens_to_amount_app (l1 l2 : list TokenUtils.token) :
  TokenUtils.tokens_to_amount (l1 ++ l2)
  = TokenUtils.tokens_to_amount l1 + TokenUtils.tokens_to_amount l2.
Proof. unfold TokenUtils.tokens_to_amount. now rewrite map_app, sum_app. Qed.

Lemma fresh_tokens_app (l1 l2 : list Z) :
  forall e, fresh_tokens (l1 ++ l2) e
            = fresh_tokens l1 e ++ fresh_tokens l2 (e + N.of_nat (List.length l1)).
Proof.
  induction l1 as [|d l1 IH]; intros e.
  - cbn. now rewrite N.add_0_r.
  - cbn [app fresh_tokens List.length]. rewrite IH. do 3 f_equal. lia.
Qed.

(** The minting loop in closed form. *)
Lemma mint_each_spec (denoms : list Z) (timestamp : Z) (batch : N) :
  forall w pend minted,
    mint_each denoms timestamp batch w pend minted
    = (mkWorld (store w) (entropy w + N.of_nat (List.length denoms)) (clock w),
       mkDb (tokens pend ++ map (row_of timestamp batch) (fresh_tokens denoms (entropy w)))
            (financial_institutions pend) (ledger pend) (nullifiers pend)
            (token_batches pend),
       minted ++ fresh_tokens denoms (entropy w)).
Proof.
  induction denoms as [|d rest IH]; intros w pend minted.
  - simpl. rewrite N.add_0_r, !app_nil_r. destruct w, pend. reflexivity.
  - cbn [mint_each generate_serial_number token_hex]. rewrite IH.
    cbn [store entropy clock insert_token tokens financial_institutions ledger
         nullifiers token_batches fresh_tokens map List.length].
    rewrite <- !app_assoc. cbn [app].
    replace (N.succ (entropy w) + N.of_nat (List.length rest))%N
      with (entropy w + N.of_nat (S (List.length rest)))%N by lia.
    reflexivity.
Qed.

(** [mint_mixed_tokens] for a positive amount: the greedy tokens are added to
    the vault and one [mint] entry of exactly [amount] is appended. *)
Lemma mint_mixed_tokens_spec (amount : Z) (w : world) :
  0 < amount ->
  let minted := fresh_tokens (greedy descending amount) (N.succ (entropy w)) in
  exists e',
    mint_mixed_tokens amount w
    = (mkWorld
         (mkDb (tokens (store w) ++ map (row_of (clock w) (entropy w)) minted)
               (financial_institutions (store w))
               (ledger (store w) ++
                  [mkLedger e' mint "CENTRAL_BANK" "CB_VAULT"
                            (map TokenUtils.serial_number minted) amount (clock w)])
               (nullifiers (store w))
               (token_batches (store w) ++
                  [mkBatch (entropy w, None) 0 (Z.of_nat (List.length minted)) (clock w)]))
         (N.succ e') (clock w),
       Success (mkMint (entropy w) amount minted)).
Proof.
  intros Hpos minted. unfold mint_mixed_tokens.
  destruct (Z.leb_spec amount 0); [lia|].
  rewrite DenominationEngine.make_change_greedy by assumption.
  rewrite DenominationEngine.greedy_descending_sum by lia.
  rewrite Z.eqb_refl. cbn [negb token_hex].
  rewrite mint_each_spec. cbn [store entropy clock get_db pending app].
  eexists. reflexivity.
Qed.



(** *** Transfers *)

Lemma find_none_existsb {A} (p : A -> bool) (l : list A) :
  find p l = None <-> existsb p l = false.
Proof.
  induction l as [|x l IH]; simpl; [tauto|].
  destruct (p x); simpl; [split; discriminate|assumption].
Qed.

Lemma find_owned_by (from_fi : string) (s : serial) (d : db) :
  find (fun r => serial_eqb (serial_number r) s && String.eqb (current_owner r) from_fi)
       (tokens d) = None <-> owned_by from_fi s d = false.
Proof. apply find_none_existsb. Qed.

(** Moving a token the sender owns creates no new ownership by the sender. *)
Lemma owned_by_move_token (from_fi to_fi : string) (timestamp : Z) (s0 s : serial) (d : db) :
  owned_by from_fi s0 d = true ->
  owned_by from_fi s (move_token to_fi timestamp s0 d) = true ->
  owned_by from_fi s d = true.
Proof.
  unfold owned_by, move_token, update_tokens. cbn [tokens].
  intros H0 H. rewrite existsb_exists in *.
  destruct H as (r' & Hin & Hr'). apply in_map_iff in Hin.
  destruct Hin as (r & <- & Hin).
  destruct (serial_eqb (serial_number r) s0) eqn:Hs0.
  - cbn [serial_number current_owner] in Hr'.
    apply andb_true_iff in Hr'. destruct Hr' as [Hs _].
    apply serial_eqb_eq in Hs0, Hs. subst s0. rewrite <- Hs. exact H0.
  - exists r. auto.
Qed.

(** A serial the sender does not own, anywhere in the list, stops the loop
    with the error return. *)
Lemma transfer_loop_rejects (from_fi to_fi : string) (timestamp : Z)
    (serials : list serial) :
  forall pend total,
    (exists s, In s serials /\ owned_by from_fi s pend = false) ->
    exists e, transfer_loop from_fi to_fi timestamp serials pend total = inl e.
Proof.
  induction serials as [|s0 rest IH]; intros pend total (s & Hin & Hnot).
  - destruct Hin.
  - cbn [transfer_loop].
    destruct (find _ (tokens pend)) as [token|] eqn:Hfind; [|eauto].
    assert (owned_by from_fi s0 pend = true) as Hs0.
    { destruct (owned_by from_fi s0 pend) eqn:E; [reflexivity|].
      apply find_owned_by in E. congruence. }
    apply IH. exists s. split.
    + destruct Hin as [->|Hin]; [congruence|assumption].
    + destruct (owned_by from_fi s (move_token to_fi timestamp s0 pend)) eqn:E;
        [|reflexivity].
      apply (owned_by_move_token _ _ _ _ _ _ Hs0) in E. congruence.
Qed.

(** C3 (atomic transfer): when at least one of the named serials is not a
    token owned by the claimed sender, [transfer_tokens_between_fis] returns
    an error and commits nothing: every token row (so the [current_owner] and
    [last_transfer_at] of every named token) is as before, and no ledger
    entry is appended. *)
Theorem transfer_atomic (from_fi to_fi : string) (token_serials : list serial) (w : world) :
  (exists s, In s token_serials /\ owned_by from_fi s (store w) = false) ->
  exists e,
    transfer_tokens_between_fis from_fi to_fi token_serials w = (w, Failure e) /\
    tokens (store (fst (transfer_tokens_between_fis from_fi to_fi token_serials w)))
      = tokens (store w) /\
    ledger (store (fst (transfer_tokens_between_fis from_fi to_fi token_serials w)))
      = ledger (store w).
Proof.
  intros Hbad. unfold transfer_tokens_between_fis. cbn [get_db pending].
  destruct (transfer_loop_rejects from_fi to_fi (clock w) token_serials (store w) 0 Hbad)
    as (e & ->).
  exists e. auto.
Qed.

Lemma transfer_atomic_witness :
  exists e,
    transfer_tokens_between_fis "FI-A" "FI-B" [(100, 2%N); (100, 4%N); (100, 3%N)]
        Examples.allocated
      = (Examples.allocated, Failure e) /\
    tokens (store (fst (transfer_tokens_between_fis "FI-A" "FI-B"
                          [(100, 2%N); (100, 4%N); (100, 3%N)] Examples.allocated)))
      = tokens (store Examples.allocated) /\
    ledger (store (fst (transfer_tokens_between_fis "FI-A" "FI-B"
                          [(100, 2%N); (100, 4%N); (100, 3%N)] Examples.allocated)))
      = ledger (store Examples.allocated).
Proof.
  apply (transfer_atomic "FI-A" "FI-B" [(100, 2%N); (100, 4%N); (100, 3%N)]
           Examples.allocated).
  exists (100, 4%N). split; [simpl; auto|vm_compute; reflexivity].
Defined.

(** A single serial the sender owns is moved whatever the token's status:
    the ownership query has no [status] condition. *)
Lemma transfer_single_any_status (from_fi to_fi : string) (s : serial) (w : world)
    (token : token_row) :
  find (fun r => serial_eqb (serial_number r) s && String.eqb (current_owner r) from_fi)
       (tokens (store w)) = Some token ->
  snd (transfer_tokens_between_fis from_fi to_fi [s] w)
    = Success (mkTransfer (entropy w) (denomination token) 1).
Proof.
  intros Hfind. unfold transfer_tokens_between_fis.
  cbn [get_db pending transfer_loop]. rewrite Hfind. reflexivity.
Qed.


(** C1 (money conservation), evaluated where it fails.  After minting one
    100 and moving it out of the vault through the transfer operation, the
    active supply still equals what was minted, but [get_money_supply] finds
    the token in no tier and reports [is_balanced = False].  After allocating
    the 100 to an FI registered as "CB", it finds the token in two tiers and
    reports [is_balanced = False] again. *)
Theorem transfer_from_vault_unbalances :
  let w := run Examples.transfer_out_of_vault empty_world in
  let w' := run Examples.allocate_to_fi_named_cb empty_world in
  (active_supply (store w) = 100 /\
   ledger_minted (store w) = 100 /\
   get_money_supply w = mkSupply 100 100 0 0 0 0 false) /\
  (active_supply (store w') = 100 /\
   ledger_minted (store w') = 100 /\
   get_money_supply w' = mkSupply 100 0 100 100 0 0 false).
Proof. repeat split. Qed.

(** *** Allocation *)

Lemma select_cb_vault_perm (d : db) : Permutation (select_cb_vault d) (cb_vault d).
Proof. apply sorted_desc_perm. Qed.



Lemma cb_vault_minted (d : db) (timestamp : Z) (batch : N) (minted : list TokenUtils.token)
    fis led nul bat :
  cb_vault (mkDb (tokens d ++ map (row_of timestamp batch) minted) fis led nul bat)
  = cb_vault d ++ minted.
Proof.
  unfold cb_vault. cbn [tokens]. rewrite filter_app, map_app. f_equal.
  induction minted as [|t minted IH]; [reflexivity|].
  cbn [map filter].
  change (held_in_cb_vault (row_of timestamp batch t)) with true.
  cbn [map]. rewrite IH. destruct t. reflexivity.
Qed.

Lemma execute_each_open {A} (stmt : A -> db -> db) (xs : list A) :
  forall d, execute_each stmt xs (mkConn d true)
            = inr (mkConn (fold_left (fun d x => stmt x d) xs d) true).
Proof. induction xs as [|x xs IH]; intros d; simpl; [reflexivity|apply IH]. Qed.


(** The tail of [allocate_tokens_to_fi] on the connection it opened. *)
Lemma record_allocation_open (w : world) (fi_id0 : string)
    (selected : list TokenUtils.token) (total : Z) :
  record_allocation w (get_db w) fi_id0 selected total
  = (mkWorld
       (insert_ledger
          (mkLedger (entropy w) allocation "CB" fi_id0
                    (map TokenUtils.serial_number selected) total (clock w))
          (fold_left (fun d t => give_to_fi fi_id0 (clock w) t d) selected (store w)))
       (N.succ (entropy w)) (clock w),
     Success (mkAllocation fi_id0 total (List.length selected) selected (entropy w))).
Proof.
  unfold record_allocation, get_db. rewrite execute_each_open. reflexivity.
Qed.

(** The same tail on a connection that was closed: the first statement
    raises, and nothing reaches the database. *)
Lemma record_allocation_closed (w : world) (d : db) (fi_id0 : string)
    (selected : list TokenUtils.token) (total : Z) :
  exists w', record_allocation w (mkConn d false) fi_id0 selected total
             = (w', Raised ProgrammingError) /\ store w' = store w /\
             (entropy w <= entropy w')%N.
Proof.
  unfold record_allocation. destruct selected as [|t selected]; simpl.
  - eexists. split; [reflexivity|]. cbn. split; [reflexivity|lia].
  - eexists. split; [reflexivity|]. split; [reflexivity|lia].
Qed.


Lemma allocate_unregistered (depth : nat) (fi_id0 : string) (amount : Z) (w : world) :
  find (fun f => String.eqb (fi_id f) fi_id0) (financial_institutions (store w)) = None ->
  allocate_tokens_to_fi (S depth) fi_id0 amount w = (w, Failure FINotFound).
Proof. intros H. cbn [allocate_tokens_to_fi get_db pending]. now rewrite H. Qed.





(** The ownership updates of an allocation, in closed form: every row whose
    serial was selected now belongs to the FI. *)
Lemma give_to_fi_tokens (fi_id0 : string) (timestamp : Z) (sel : list TokenUtils.token) :
  forall d,
    tokens (fold_left (fun d t => give_to_fi fi_id0 timestamp t d) sel d)
    = map (fun r =>
             if existsb (fun t => serial_eqb (serial_number r) (TokenUtils.serial_number t)) sel
             then allocated_row fi_id0 timestamp r else r)
          (tokens d).
Proof.
  induction sel as [|t sel IH]; intros d.
  - simpl. now rewrite map_id.
  - cbn [fold_left]. rewrite IH. unfold give_to_fi, update_tokens. cbn [tokens].
    rewrite map_map. apply map_ext. intros r. cbn [existsb].
    destruct (serial_eqb (serial_number r) (TokenUtils.serial_number t)) eqn:E; cbn [orb].
    + cbn [allocated_row serial_number].
      destruct (existsb _ sel); reflexivity.
    + reflexivity.
Qed.












End OwnershipLedger.

(** ** The nullifier registry *)

Module NoReplay.

Import Database NullifierRegistry.

Lemma is_spent_in (value : string) (w : world) :
  is_spent value (store w) = true <-> In value (spent_values w).
Proof.
  unfold is_spent, spent_values. rewrite existsb_exists, in_map_iff. split.
  - intros (r & Hin & Heq). apply String.eqb_eq in Heq. eauto.
  - intros (r & Heq & Hin). exists r. split; [assumption|]. now apply String.eqb_eq.
Qed.

(** A present value: nothing is written. *)
Lemma consume_present (value : string) (s : serial) (t : N) (w : world) :
  is_spent value (store w) = true -> consume value s t w = (w, AlreadySpent).
Proof. intros H. unfold consume. cbn [get_db pending]. now rewrite H. Qed.

(** An absent value: one row is appended to [nullifiers], nothing else moves. *)
Lemma consume_absent (value : string) (s : serial) (t : N) (w : world) :
  is_spent value (store w) = false ->
  consume value s t w
  = (mkWorld (insert_nullifier (mkNullifier value s (clock w) t) (store w))
             (entropy w) (clock w), Ok).
Proof. intros H. unfold consume. cbn [get_db pending]. now rewrite H. Qed.

Lemma consume_keeps_spent (value other : string) (s : serial) (t : N) (w : world) :
  is_spent value (store w) = true ->
  is_spent value (store (fst (consume other s t w))) = true.
Proof.
  intros H. destruct (is_spent other (store w)) eqn:E.
  - now rewrite consume_present.
  - rewrite consume_absent by assumption. cbn [fst store].
    unfold is_spent, insert_nullifier in *. cbn [nullifiers].
    rewrite existsb_app, H. reflexivity.
Qed.

Lemma consume_marks_spent (value : string) (s : serial) (t : N) (w : world) :
  is_spent value (store (fst (consume value s t w))) = true.
Proof.
  destruct (is_spent value (store w)) eqn:E.
  - now rewrite consume_present.
  - rewrite consume_absent by assumption. cbn [fst store].
    unfold is_spent, insert_nullifier. cbn [nullifiers nullifier].
    rewrite existsb_app. cbn [existsb nullifier].
    rewrite String.eqb_refl. now rewrite orb_true_r.
Qed.

Lemma consume_nodup (value : string) (s : serial) (t : N) (w : world) :
  NoDup (spent_values w) -> NoDup (spent_values (fst (consume value s t w))).
Proof.
  intros Hnd. destruct (is_spent value (store w)) eqn:E.
  - now rewrite consume_present.
  - rewrite consume_absent by assumption. unfold spent_values in *.
    cbn [fst store insert_nullifier nullifiers]. rewrite map_app. cbn [map nullifier].
    apply NoDup_app_remove_l with (l := []). cbn [app].
    apply Permutation_NoDup with (l := value :: map nullifier (nullifiers (store w))).
    + apply Permutation_cons_append.
    + constructor; [|exact Hnd].
      intros Hin. apply is_spent_in in Hin. congruence.
Qed.

Lemma consume_all_invariant (calls : list (string * serial * N)) :
  forall value w,
    NoDup (spent_values w) -> is_spent value (store w) = true ->
    NoDup (spent_values (consume_all calls w)) /\
    is_spent value (store (consume_all calls w)) = true.
Proof.
  induction calls as [|[[v s] t] calls IH]; intros value w Hnd Hspent; [auto|].
  cbn [consume_all fold_left]. apply IH.
  - now apply consume_nodup.
  - now apply consume_keeps_spent.
Qed.

(** C2 (no replay): [consume] inserts an absent value and answers [Ok]; once
    a value has been consumed, consuming it again, at any later point,
    answers [AlreadySpent] and leaves every table as it was; the registry
    holds the value exactly once. *)
Theorem consume_no_replay (value : string) (s1 s2 : serial) (t1 t2 : N)
    (between : list (string * serial * N)) (w : world) :
  NoDup (spent_values w) ->
  let w1 := fst (consume value s1 t1 w) in
  let w2 := consume_all between w1 in
  (is_spent value (store w) = false ->
     snd (consume value s1 t1 w) = Ok /\
     nullifiers (store w1)
       = nullifiers (store w) ++ [mkNullifier value s1 (clock w) t1]) /\
  consume value s2 t2 w2 = (w2, AlreadySpent) /\
  count_occ string_dec (spent_values w2) value = 1%nat.
Proof.
  intros Hnd w1 w2. split; [|].
  - intros Habsent. subst w1. rewrite consume_absent by assumption. auto.
  - assert (NoDup (spent_values w1)) as Hnd1 by now apply consume_nodup.
    assert (is_spent value (store w1) = true) as Hspent1 by apply consume_marks_spent.
    destruct (consume_all_invariant between value w1 Hnd1 Hspent1) as [Hnd2 Hspent2].
    fold w2 in Hnd2, Hspent2. split.
    + now apply consume_present.
    + apply is_spent_in in Hspent2.
      pose proof (proj1 (NoDup_count_occ string_dec (spent_values w2)) Hnd2 value).
      pose proof (proj1 (count_occ_In string_dec (spent_values w2) value) Hspent2).
      lia.
Qed.

Lemma consume_no_replay_witness :
  (is_spent "n1" (store empty_world) = false ->
     snd (consume "n1" (100, 1%N) 7 empty_world) = Ok /\
     nullifiers (store (fst (consume "n1" (100, 1%N) 7 empty_world)))
       = nullifiers (store empty_world) ++ [mkNullifier "n1" (100, 1%N) (clock empty_world) 7]) /\
  consume "n1" (100, 1%N) 8
          (consume_all [("n2"%string, (50, 2%N), 9%N)] (fst (consume "n1" (100, 1%N) 7 empty_world)))
    = (consume_all [("n2"%string, (50, 2%N), 9%N)] (fst (consume "n1" (100, 1%N) 7 empty_world)),
       AlreadySpent) /\
  count_occ string_dec
    (spent_values
       (consume_all [("n2"%string, (50, 2%N), 9%N)] (fst (consume "n1" (100, 1%N) 7 empty_world))))
    "n1"%string = 1%nat.
Proof.
  apply (consume_no_replay "n1" (100, 1%N) (100, 1%N) 7 8 [("n2"%string, (50, 2%N), 9%N)]
           empty_world).
  constructor.
Defined.

End NoReplay.

(** ** Conservation along histories *)

Module Conservation.

Import Database History ClosedForms.

Lemma tokens_valid_maps (d : db) :
  tokens_valid d <->
  Forall (fun s => s = active) (map status (tokens d)) /\
  Forall (fun x => In x TokenUtils.DENOMINATIONS) (map denomination (tokens d)).
Proof.
  unfold tokens_valid. rewrite !Forall_forall. split.
  - intros H. split; intros x Hx; apply in_map_iff in Hx;
      destruct Hx as (r & <- & Hr); apply (H r Hr).
  - intros [Hs Hd] r Hr. split; [apply Hs|apply Hd]; now apply in_map.
Qed.

Lemma same_value_refl (d : db) : same_value d d.
Proof. repeat split. Qed.

Lemma same_value_trans (d1 d2 d3 : db) :
  same_value d1 d2 -> same_value d2 d3 -> same_value d1 d3.
Proof. intros (A & B & C) (A' & B' & C'). repeat split; congruence. Qed.

Lemma conserved_same_value (d d' : db) : conserved d -> same_value d d' -> conserved d'.
Proof.
  intros [Hvalid Hsum] (Hden & Hst & Hled). split.
  - apply tokens_valid_maps. rewrite Hden, Hst. now apply tokens_valid_maps.
  - now rewrite Hden, Hled.
Qed.

(** An update that rewrites owner columns only keeps the value. *)
Lemma update_tokens_same_value (s : serial) (f : token_row -> token_row) (d : db) :
  (forall r, denomination (f r) = denomination r /\ status (f r) = status r) ->
  same_value d (update_tokens s f d).
Proof.
  intros Hf. unfold same_value, update_tokens, ledger_minted. cbn [tokens ledger].
  rewrite !map_map. repeat split; apply map_ext; intros r;
    destruct (serial_eqb (serial_number r) s); try reflexivity; apply Hf.
Qed.

Lemma insert_ledger_same_value (e : ledger_row) (d : db) :
  transaction_type e <> mint -> same_value d (insert_ledger e d).
Proof.
  intros He. unfold same_value, insert_ledger, ledger_minted. cbn [tokens ledger].
  repeat split. rewrite filter_app. cbn [filter].
  destruct (transaction_type e); try congruence; cbn; now rewrite app_nil_r.
Qed.

(** A minting step adds valid rows and the matching ledger entry. *)
Lemma conserved_minted (d : db) (timestamp : Z) (batch e : N)
    (minted : list TokenUtils.token) (serials : list serial) (total : Z) fis nul bat :
  conserved d ->
  Forall (fun t => In (TokenUtils.denomination t) TokenUtils.DENOMINATIONS) minted ->
  TokenUtils.tokens_to_amount minted = total ->
  conserved
    (mkDb (tokens d ++ map (row_of timestamp batch) minted) fis
          (ledger d ++ [mkLedger e mint "CENTRAL_BANK" "CB_VAULT" serials total timestamp])
          nul bat).
Proof.
  intros [Hvalid Hsum] Hminted <-. split.
  - unfold tokens_valid in *. cbn [tokens]. apply Forall_app. split; [exact Hvalid|].
    apply Forall_forall. intros r Hr. apply in_map_iff in Hr.
    destruct Hr as (t & <- & Ht). rewrite Forall_forall in Hminted.
    split; [reflexivity|exact (Hminted t Ht)].
  - unfold ledger_minted in *. cbn [tokens ledger].
    rewrite filter_app, !map_app, !sum_app, Hsum, map_map. cbn.
    unfold TokenUtils.tokens_to_amount. rewrite Z.add_0_r. reflexivity.
Qed.

Lemma fresh_tokens_valid (denoms : list Z) :
  forall e, Forall (fun d => In d TokenUtils.DENOMINATIONS) denoms ->
    Forall (fun t => In (TokenUtils.denomination t) TokenUtils.DENOMINATIONS)
           (fresh_tokens denoms e).
Proof.
  intros e H.
  apply (proj1 (Forall_map TokenUtils.denomination
                  (fun d => In d TokenUtils.DENOMINATIONS) (fresh_tokens denoms e))).
  now rewrite OwnershipLedger.fresh_tokens_denominations.
Qed.

Lemma validate_denomination_in (x : Z) :
  TokenUtils.validate_denomination x = true -> In x TokenUtils.DENOMINATIONS.
Proof.
  unfold TokenUtils.validate_denomination. rewrite existsb_exists.
  intros (y & Hy & Heq). apply Z.eqb_eq in Heq. now subst.
Qed.

Lemma mint_tokens_conserved (denomination0 count : Z) (w : world) :
  conserved (store w) -> conserved (store (fst (mint_tokens denomination0 count w))).
Proof.
  intros Hc. unfold mint_tokens.
  destruct (TokenUtils.validate_denomination denomination0) eqn:Hv; [|exact Hc].
  cbn [negb]. destruct (Z.leb_spec count 0); [exact Hc|].
  destruct (Z.gtb_spec count 10000); [exact Hc|]. cbn [orb token_hex].
  rewrite OwnershipLedger.mint_each_spec.
  unfold commit, insert_ledger, insert_batch.
  cbn [store entropy clock get_db pending app fst
       tokens ledger financial_institutions nullifiers token_batches].
  apply conserved_minted; [exact Hc| |].
  - apply fresh_tokens_valid.
    apply Forall_forall. intros x Hx. apply repeat_spec in Hx. subst.
    now apply validate_denomination_in.
  - rewrite OwnershipLedger.fresh_tokens_amount, sum_repeat. lia.
Qed.

Lemma mint_mixed_tokens_conserved (amount : Z) (w : world) :
  conserved (store w) -> conserved (store (fst (mint_mixed_tokens amount w))).
Proof.
  intros Hc. destruct (Z.leb_spec amount 0) as [Hle|Hgt].
  - unfold mint_mixed_tokens. destruct (Z.leb_spec amount 0); [exact Hc|lia].
  - destruct (OwnershipLedger.mint_mixed_tokens_spec amount w Hgt) as (e' & ->).
    cbn [fst store]. apply conserved_minted; [exact Hc| |].
    + apply fresh_tokens_valid.
      apply DenominationEngine.greedy_descending_members.
    + rewrite OwnershipLedger.fresh_tokens_amount.
      apply DenominationEngine.greedy_descending_sum. lia.
Qed.

(** The nested minting loops of [mint_specific_denominations], after a
    successful validation: one run of fresh tokens. *)
Lemma mint_specific_loop_spec (items : list (Z * Z)) (timestamp : Z) (batch : N) :
  forall w pend all_tokens total_value,
    validate_counts items = None ->
    exists bat' denoms,
      mint_specific_loop items timestamp batch w pend all_tokens total_value
      = (mkWorld (store w) (entropy w + N.of_nat (List.length denoms)) (clock w),
         mkDb (tokens pend ++ map (row_of timestamp batch) (fresh_tokens denoms (entropy w)))
              (financial_institutions pend) (ledger pend) (nullifiers pend) bat',
         all_tokens ++ fresh_tokens denoms (entropy w),
         total_value + sum denoms) /\
      Forall (fun d => In d TokenUtils.DENOMINATIONS) denoms.
Proof.
  induction items as [|[denom count] items IH]; intros w pend all_tokens total_value Hv.
  - exists (token_batches pend), []. cbn [mint_specific_loop map fresh_tokens List.length].
    rewrite !app_nil_r, N.add_0_r. cbn. rewrite Z.add_0_r.
    destruct pend, w. split; [reflexivity|constructor].
  - cbn [validate_counts] in Hv.
    destruct (TokenUtils.validate_denomination denom) eqn:Hd; [|discriminate].
    cbn [negb] in Hv.
    destruct (Z.leb_spec count 0) as [|Hpos]; [discriminate|].
    destruct (count >? 10000); [discriminate|].
    cbn [mint_specific_loop]. destruct (Z.leb_spec count 0); [lia|].
    rewrite OwnershipLedger.mint_each_spec.
    set (run1 := repeat denom (Z.to_nat count)).
    match goal with
    | |- context [mint_specific_loop items timestamp batch ?w1 ?p1 ?a1 ?t1] =>
        destruct (IH w1 p1 a1 t1 Hv) as (bat' & denoms & Heq & Hdenoms)
    end.
    exists bat', (run1 ++ denoms). rewrite Heq.
    unfold insert_batch.
    cbn [store entropy clock tokens financial_institutions ledger nullifiers token_batches].
    rewrite OwnershipLedger.fresh_tokens_app, map_app, <- !app_assoc, sum_app, length_app.
    assert (sum run1 = denom * count) as Hrun.
    { unfold run1. rewrite sum_repeat. lia. }
    rewrite Hrun, Z.add_assoc.
    replace (entropy w + N.of_nat (List.length run1) + N.of_nat (List.length denoms))%N
      with (entropy w + N.of_nat (List.length run1 + List.length denoms))%N by lia.
    split; [reflexivity|].
    apply Forall_app. split; [|exact Hdenoms].
    apply Forall_forall. intros x Hx. apply repeat_spec in Hx. subst.
    now apply validate_denomination_in.
Qed.

Lemma mint_specific_denominations_conserved (counts : list (Z * Z)) (w : world) :
  conserved (store w) -> conserved (store (fst (mint_specific_denominations counts w))).
Proof.
  intros Hc. unfold mint_specific_denominations.
  destruct (validate_counts counts) eqn:Hv; [exact Hc|].
  cbn [token_hex get_db pending].
  match goal with
  | |- context [mint_specific_loop counts ?ts ?b ?w1 ?p1 ?a1 ?t1] =>
      destruct (mint_specific_loop_spec counts ts b w1 p1 a1 t1 Hv)
        as (bat' & denoms & -> & Hdenoms)
  end.
  unfold commit, insert_ledger.
  cbn [fst store pending tokens financial_institutions ledger nullifiers token_batches app].
  apply conserved_minted; [exact Hc|now apply fresh_tokens_valid|].
  rewrite OwnershipLedger.fresh_tokens_amount. lia.
Qed.

Lemma register_fi_conserved (fi_id0 name0 : string) (w : world) :
  conserved (store w) -> conserved (store (fst (register_fi fi_id0 name0 w))).
Proof.
  intros Hc. unfold register_fi. cbn [get_db pending].
  destruct (existsb _ (financial_institutions (store w))); [exact Hc|].
  cbn [token_hex fst commit store pending].
  eapply conserved_same_value; [exact Hc|]. repeat split.
Qed.

Lemma give_to_fi_same_value (fi_id0 : string) (timestamp : Z) (sel : list TokenUtils.token) :
  forall d, same_value d (fold_left (fun d t => give_to_fi fi_id0 timestamp t d) sel d).
Proof.
  induction sel as [|t sel IH]; intros d; cbn [fold_left]; [apply same_value_refl|].
  eapply same_value_trans; [|apply IH].
  apply update_tokens_same_value. intros r. split; reflexivity.
Qed.

Lemma record_allocation_conserved (w : world) (conn : connection) (fi_id0 : string)
    (sel : list TokenUtils.token) (total : Z) :
  conserved (store w) -> conserved (pending conn) ->
  conserved (store (fst (record_allocation w conn fi_id0 sel total))).
Proof.
  intros Hw Hconn. destruct conn as [d [|]].
  - unfold record_allocation. rewrite OwnershipLedger.execute_each_open.
    cbn [token_hex execute is_open pending fst commit store].
    eapply conserved_same_value; [exact Hconn|].
    eapply same_value_trans; [apply give_to_fi_same_value|].
    apply insert_ledger_same_value. discriminate.
  - destruct (OwnershipLedger.record_allocation_closed w d fi_id0 sel total)
      as (w' & -> & Hstore & _).
    cbn [fst]. now rewrite Hstore.
Qed.

Lemma allocate_conserved (depth : nat) (fi_id0 : string) (amount : Z) :
  forall w, conserved (store w) ->
    conserved (store (fst (allocate_tokens_to_fi depth fi_id0 amount w))).
Proof.
  induction depth as [|depth IH]; intros w Hc; [exact Hc|].
  cbn [allocate_tokens_to_fi get_db pending].
  destruct (find _ (financial_institutions (store w))); [|exact Hc].
  destruct (accumulate_until _ amount (select_cb_vault (store w)) [] 0) as [sel total].
  destruct (total <? amount).
  - pose proof (mint_mixed_tokens_conserved (amount - total) w Hc) as Hm.
    destruct (mint_mixed_tokens (amount - total) w) as [w1 [r|e|x|]]; cbn [fst] in *;
      auto.
  - destruct (total >? amount).
    + destruct (exact_subset amount _ [] 0) as [sel2 total2].
      destruct (total2 <? amount).
      * pose proof (mint_mixed_tokens_conserved amount w Hc) as Hm.
        destruct (mint_mixed_tokens amount w) as [w1 [r|e|x|]]; cbn [fst] in *; auto.
        apply record_allocation_conserved; assumption.
      * apply (record_allocation_conserved w (mkConn (store w) true)); assumption.
    + apply (record_allocation_conserved w (mkConn (store w) true)); assumption.
Qed.

Lemma transfer_loop_same_value (from_fi to_fi : string) (timestamp : Z)
    (serials : list serial) :
  forall pend total pend' total',
    transfer_loop from_fi to_fi timestamp serials pend total = inr (pend', total') ->
    same_value pend pend'.
Proof.
  induction serials as [|s rest IH]; intros pend total pend' total' H.
  - cbn in H. inversion H. apply same_value_refl.
  - cbn [transfer_loop] in H. destruct (find _ (tokens pend)); [|discriminate].
    eapply same_value_trans; [|eapply IH; exact H].
    apply update_tokens_same_value. intros r. split; reflexivity.
Qed.

Lemma transfer_conserved (from_fi to_fi : string) (serials : list serial) (w : world) :
  conserved (store w) ->
  conserved (store (fst (transfer_tokens_between_fis from_fi to_fi serials w))).
Proof.
  intros Hc. unfold transfer_tokens_between_fis. cbn [get_db pending].
  destruct (transfer_loop _ _ _ serials (store w) 0) as [e|[pend total]] eqn:Hloop;
    [exact Hc|].
  cbn [token_hex fst commit store pending].
  eapply conserved_same_value; [exact Hc|].
  eapply same_value_trans; [eapply transfer_loop_same_value; exact Hloop|].
  apply insert_ledger_same_value. discriminate.
Qed.

Lemma step_conserved (o : op) (w : world) :
  conserved (store w) -> conserved (store (step o w)).
Proof.
  intros Hc. destruct o; cbn [step].
  - now apply mint_tokens_conserved.
  - now apply mint_specific_denominations_conserved.
  - now apply mint_mixed_tokens_conserved.
  - now apply register_fi_conserved.
  - now apply allocate_conserved.
  - now apply transfer_conserved.
  - exact Hc.
Qed.

Lemma run_conserved (ops : list op) :
  forall w, conserved (store w) -> conserved (store (run ops w)).
Proof.
  induction ops as [|o ops IH]; intros w Hc; [exact Hc|].
  cbn [run fold_left]. apply IH. now apply step_conserved.
Qed.

Lemma empty_conserved : conserved (store empty_world).
Proof. split; [constructor|reflexivity]. Qed.

Lemma sum_where_all (p : token_row -> bool) (d : db) :
  (forall r, In r (tokens d) -> p r = true) ->
  sum_where p d = sum (map denomination (tokens d)).
Proof.
  intros H. unfold sum_where. f_equal. f_equal.
  induction (tokens d) as [|r l IH]; [reflexivity|]. cbn [filter].
  rewrite (H r (or_introl eq_refl)). f_equal. apply IH. intros r' Hr'. apply H. now right.
Qed.

Lemma sum_where_none (p : token_row -> bool) (d : db) :
  (forall r, In r (tokens d) -> p r = false) -> sum_where p d = 0.
Proof.
  intros H. unfold sum_where.
  induction (tokens d) as [|r l IH]; [reflexivity|]. cbn [filter].
  rewrite (H r (or_introl eq_refl)). apply IH. intros r' Hr'. apply H. now right.
Qed.

(** Money conservation along every history from the empty ledger: the
    active supply equals the total of the ledger's mint entries less the
    total destroyed, nothing is ever destroyed, every vault token has a
    positive denomination, and [total_minted] of [get_money_supply] is that
    same total. *)
Theorem history_conserves (ops : list op) :
  let w := run ops empty_world in
  active_supply (store w) = ledger_minted (store w) - total_destroyed (store w) /\
  total_destroyed (store w) = 0 /\
  total_minted (get_money_supply w) = ledger_minted (store w) /\
  tokens_valid (store w) /\
  vault_positive (store w).
Proof.
  intros w. destruct (run_conserved ops empty_world empty_conserved) as [Hvalid Hsum].
  fold w in Hvalid, Hsum.
  assert (forall r, In r (tokens (store w)) -> status r = active) as Hactive.
  { intros r Hr. unfold tokens_valid in Hvalid. rewrite Forall_forall in Hvalid.
    apply (Hvalid r Hr). }
  assert (total_destroyed (store w) = 0) as Hdestroyed.
  { apply sum_where_none. intros r Hr. now rewrite (Hactive r Hr). }
  split; [|split; [exact Hdestroyed|split; [|split; [exact Hvalid|]]]].
  - rewrite Hdestroyed, Z.sub_0_r, <- Hsum. apply sum_where_all.
    intros r Hr. now rewrite (Hactive r Hr).
  - cbn [get_money_supply total_minted]. rewrite <- Hsum. apply sum_where_all.
    intros r Hr. now rewrite (Hactive r Hr).
  - unfold vault_positive, cb_vault. apply Forall_forall. intros t Ht.
    apply in_map_iff in Ht. destruct Ht as (r & <- & Hr).
    apply filter_In in Hr. destruct Hr as [Hr _].
    unfold tokens_valid in Hvalid. rewrite Forall_forall in Hvalid.
    cbn [TokenUtils.denomination].
    apply DenominationEngine.denominations_positive, (Hvalid r Hr).
Qed.

End Conservation.

(** ** Tier accounting along histories *)

Module Balance.

Import Database History ClosedForms.

Lemma fresh_tokens_hashes (denoms : list Z) :
  forall e t, In t (fresh_tokens denoms e) ->
    (e <= snd (TokenUtils.serial_number t) < e + N.of_nat (List.length denoms))%N.
Proof.
  induction denoms as [|d denoms IH]; intros e t Hin; [destruct Hin|].
  cbn [fresh_tokens List.length] in *. destruct Hin as [<-|Hin].
  - cbn. lia.
  - specialize (IH _ _ Hin). lia.
Qed.

Lemma fresh_tokens_nodup (denoms : list Z) :
  forall e, NoDup (map TokenUtils.serial_number (fresh_tokens denoms e)).
Proof.
  induction denoms as [|d denoms IH]; intros e; cbn [fresh_tokens map]; constructor.
  - intros Hin. apply in_map_iff in Hin. destruct Hin as (t & Heq & Hin).
    apply fresh_tokens_hashes in Hin. rewrite Heq in Hin. cbn in Hin. lia.
  - apply IH.
Qed.

Lemma row_of_serials (timestamp : Z) (batch : N) (new : list TokenUtils.token) :
  map serial_number (map (row_of timestamp batch) new) = map TokenUtils.serial_number new.
Proof. rewrite map_map. reflexivity. Qed.

Lemma minted_into_refl (w : world) : minted_into w w.
Proof.
  exists [], 0, 0%N, (entropy w). cbn. rewrite app_nil_r. repeat split; lia.
Qed.

(** Freshly minted rows keep the serials distinct and the tiers consistent. *)
Lemma minted_into_invariant (w w' : world) :
  serials_fresh w -> tiers_consistent (store w) -> minted_into w w' ->
  serials_fresh w' /\ tiers_consistent (store w').
Proof.
  intros [Hnd Hold] Htiers (denoms & timestamp & batch & e0 & He0 & He' & Htokens).
  unfold serials_fresh, tiers_consistent. rewrite Htokens. repeat split.
  - rewrite map_app, row_of_serials. apply NoDup_app; [exact Hnd|apply fresh_tokens_nodup|].
    intros s Hs Hnew. apply in_map_iff in Hs. destruct Hs as (r & <- & Hr).
    apply in_map_iff in Hnew. destruct Hnew as (t & Heq & Ht).
    apply fresh_tokens_hashes in Ht. rewrite Forall_forall in Hold.
    specialize (Hold r Hr). rewrite Heq in Ht. lia.
  - apply Forall_app. split.
    + eapply Forall_impl; [|exact Hold]. cbn beta. intros r Hr. lia.
    + apply Forall_forall. intros r Hr. apply in_map_iff in Hr.
      destruct Hr as (t & <- & Ht). apply fresh_tokens_hashes in Ht. cbn. lia.
  - apply Forall_app. split; [exact Htiers|].
    apply Forall_forall. intros r Hr. apply in_map_iff in Hr.
    destruct Hr as (t & <- & _). left. split; reflexivity.
Qed.

Lemma mint_tokens_minted (denomination0 count : Z) (w : world) :
  minted_into w (fst (mint_tokens denomination0 count w)).
Proof.
  unfold mint_tokens.
  destruct (negb _); [apply minted_into_refl|].
  destruct (_ || _); [apply minted_into_refl|].
  cbn [token_hex]. rewrite OwnershipLedger.mint_each_spec.
  exists (repeat denomination0 (Z.to_nat count)), (clock w), (entropy w), (N.succ (entropy w)).
  cbn. repeat split; lia.
Qed.

Lemma mint_specific_denominations_minted (counts : list (Z * Z)) (w : world) :
  minted_into w (fst (mint_specific_denominations counts w)).
Proof.
  unfold mint_specific_denominations.
  destruct (validate_counts counts) eqn:Hv; [apply minted_into_refl|].
  cbn [token_hex get_db pending].
  match goal with
  | |- context [mint_specific_loop counts ?ts ?b ?w1 ?p1 ?a1 ?t1] =>
      destruct (Conservation.mint_specific_loop_spec counts ts b w1 p1 a1 t1 Hv)
        as (bat' & denoms & -> & _)
  end.
  exists denoms, (clock w), (entropy w), (N.succ (entropy w)).
  cbn. repeat split; lia.
Qed.

Lemma mint_mixed_tokens_minted (amount : Z) (w : world) :
  minted_into w (fst (mint_mixed_tokens amount w)).
Proof.
  destruct (Z.leb_spec amount 0) as [Hle|Hgt].
  - unfold mint_mixed_tokens. destruct (Z.leb_spec amount 0); [|lia].
    apply minted_into_refl.
  - unfold mint_mixed_tokens. destruct (Z.leb_spec amount 0); [lia|].
    rewrite DenominationEngine.make_change_greedy by assumption.
    rewrite DenominationEngine.greedy_descending_sum by lia.
    rewrite Z.eqb_refl. cbn [negb token_hex].
    rewrite OwnershipLedger.mint_each_spec.
    exists (greedy descending amount), (clock w), (entropy w), (N.succ (entropy w)).
    cbn. repeat split; lia.
Qed.

Lemma register_fi_minted (fi_id0 name0 : string) (w : world) :
  minted_into w (fst (register_fi fi_id0 name0 w)).
Proof.
  unfold register_fi. cbn [get_db pending].
  destruct (existsb _ _); [apply minted_into_refl|].
  exists [], 0, 0%N, (entropy w). cbn. rewrite app_nil_r. repeat split; lia.
Qed.

(** An update that keeps serials and tiers, with entropy moving forward. *)
Lemma updated_invariant (w w' : world) (g : token_row -> token_row) :
  serials_fresh w -> tiers_consistent (store w) ->
  (entropy w <= entropy w')%N ->
  tokens (store w') = map g (tokens (store w)) ->
  (forall r, serial_number (g r) = serial_number r) ->
  (forall r, In r (tokens (store w)) ->
     g r = r \/ (current_owner (g r) <> "CB"%string /\ owner_type (g r) = fi)) ->
  serials_fresh w' /\ tiers_consistent (store w').
Proof.
  intros [Hnd Hold] Htiers Hent Htokens Hserial Htier.
  unfold serials_fresh, tiers_consistent. rewrite Htokens. repeat split.
  - rewrite map_map. erewrite map_ext; [exact Hnd|]. intros r. apply Hserial.
  - apply Forall_forall. intros r' Hr'. apply in_map_iff in Hr'.
    destruct Hr' as (r & <- & Hr). rewrite Hserial.
    rewrite Forall_forall in Hold. specialize (Hold r Hr). lia.
  - apply Forall_forall. intros r' Hr'. apply in_map_iff in Hr'.
    destruct Hr' as (r & <- & Hr). destruct (Htier r Hr) as [->|Hfi].
    + unfold tiers_consistent in Htiers. rewrite Forall_forall in Htiers.
      apply (Htiers r Hr).
    + right. exact Hfi.
Qed.

Lemma record_allocation_invariant (w : world) (conn : connection) (fi_id0 : string)
    (sel : list TokenUtils.token) (total : Z) :
  fi_id0 <> "CB"%string ->
  serials_fresh w -> tiers_consistent (store w) ->
  (is_open conn = true -> pending conn = store w) ->
  serials_fresh (fst (record_allocation w conn fi_id0 sel total)) /\
  tiers_consistent (store (fst (record_allocation w conn fi_id0 sel total))).
Proof.
  intros Hfi Hfresh Htiers Hconn. destruct conn as [d [|]].
  - cbn in Hconn. rewrite (Hconn eq_refl). fold (get_db w).
    rewrite OwnershipLedger.record_allocation_open. cbn [fst].
    eapply (updated_invariant w); [exact Hfresh|exact Htiers|cbn; lia| | |].
    + cbn [store insert_ledger tokens]. apply OwnershipLedger.give_to_fi_tokens.
    + intros r. cbn beta. destruct (existsb _ sel); reflexivity.
    + intros r _. cbn beta. destruct (existsb _ sel); [right|left; reflexivity].
      cbn. split; [exact Hfi|reflexivity].
  - destruct (OwnershipLedger.record_allocation_closed w d fi_id0 sel total)
      as (w' & -> & Hstore & Hent).
    cbn [fst]. apply (minted_into_invariant w); [exact Hfresh|exact Htiers|].
    exists [], 0, 0%N, (entropy w). cbn. rewrite app_nil_r, Hstore. repeat split; lia.
Qed.

Lemma allocate_invariant (depth : nat) (fi_id0 : string) (amount : Z) :
  fi_id0 <> "CB"%string ->
  forall w, serials_fresh w -> tiers_consistent (store w) ->
    serials_fresh (fst (allocate_tokens_to_fi depth fi_id0 amount w)) /\
    tiers_consistent (store (fst (allocate_tokens_to_fi depth fi_id0 amount w))).
Proof.
  intros Hfi. induction depth as [|depth IH]; intros w Hfresh Htiers; [auto|].
  cbn [allocate_tokens_to_fi get_db pending].
  destruct (find _ (financial_institutions (store w))); [|auto].
  destruct (accumulate_until _ amount (select_cb_vault (store w)) [] 0) as [sel total].
  destruct (total <? amount).
  - destruct (minted_into_invariant w _ Hfresh Htiers
                (mint_mixed_tokens_minted (amount - total) w)) as [Hf1 Ht1].
    destruct (mint_mixed_tokens (amount - total) w) as [w1 [r|e|x|]]; cbn [fst] in *; auto.
  - destruct (total >? amount).
    + destruct (exact_subset amount _ [] 0) as [sel2 total2].
      destruct (total2 <? amount).
      * destruct (minted_into_invariant w _ Hfresh Htiers
                    (mint_mixed_tokens_minted amount w)) as [Hf1 Ht1].
        destruct (mint_mixed_tokens amount w) as [w1 [r|e|x|]]; cbn [fst] in *; auto.
        apply record_allocation_invariant; auto. cbn. discriminate.
      * apply record_allocation_invariant; auto.
    + apply record_allocation_invariant; auto.
Qed.

Lemma nodup_serial_same_row (rows : list token_row) (a b : token_row) :
  NoDup (map serial_number rows) -> In a rows -> In b rows ->
  serial_number a = serial_number b -> a = b.
Proof.
  induction rows as [|r rows IH]; intros Hnd Ha Hb Heq; [destruct Ha|].
  cbn [map] in Hnd. inversion Hnd as [|? ? Hnotin Hnd']; subst.
  destruct Ha as [<-|Ha], Hb as [<-|Hb]; auto.
  - exfalso. apply Hnotin. rewrite Heq. now apply in_map.
  - exfalso. apply Hnotin. rewrite <- Heq. now apply in_map.
Qed.

(** Each turn of the transfer loop keeps the serials and, between parties
    other than the vault, the agreement of owner and tier. *)
Lemma transfer_loop_invariant (from_fi to_fi : string) (timestamp : Z)
    (serials : list serial) :
  from_fi <> "CB"%string -> to_fi <> "CB"%string ->
  forall pend total pend' total',
    NoDup (map serial_number (tokens pend)) -> tiers_consistent pend ->
    transfer_loop from_fi to_fi timestamp serials pend total = inr (pend', total') ->
    map serial_number (tokens pend') = map serial_number (tokens pend) /\
    tiers_consistent pend'.
Proof.
  intros Hfrom Hto.
  induction serials as [|s rest IH]; intros pend total pend' total' Hnd Htiers Hloop.
  - cbn in Hloop. inversion Hloop; subst. auto.
  - cbn [transfer_loop] in Hloop.
    destruct (find _ (tokens pend)) as [token|] eqn:Hfind; [|discriminate].
    apply find_some in Hfind. destruct Hfind as [Hin Hmatch].
    apply andb_true_iff in Hmatch. destruct Hmatch as [Hs Howner].
    apply OwnershipLedger.serial_eqb_eq in Hs. apply String.eqb_eq in Howner.
    assert (map serial_number (tokens (move_token to_fi timestamp s pend))
            = map serial_number (tokens pend)) as Hserials.
    { unfold move_token, update_tokens. cbn [tokens]. rewrite map_map.
      apply map_ext. intros r. destruct (serial_eqb (serial_number r) s); reflexivity. }
    assert (tiers_consistent (move_token to_fi timestamp s pend)) as Htiers'.
    { unfold tiers_consistent, move_token, update_tokens in *. cbn [tokens].
      apply Forall_forall. intros r' Hr'. apply in_map_iff in Hr'.
      destruct Hr' as (r & <- & Hr). rewrite Forall_forall in Htiers.
      destruct (serial_eqb (serial_number r) s) eqn:E; [|apply (Htiers r Hr)].
      apply OwnershipLedger.serial_eqb_eq in E.
      assert (r = token) as -> by (apply (nodup_serial_same_row (tokens pend)); congruence).
      right. cbn. split; [exact Hto|].
      destruct (Htiers token Hin) as [[Hcb _]|[_ Hfi]]; [congruence|exact Hfi]. }
    destruct (IH _ _ _ _ ltac:(rewrite Hserials; exact Hnd) Htiers' Hloop) as [Hs' Ht'].
    split; [congruence|exact Ht'].
Qed.

Lemma transfer_invariant (from_fi to_fi : string) (serials : list serial) (w : world) :
  from_fi <> "CB"%string -> to_fi <> "CB"%string ->
  serials_fresh w -> tiers_consistent (store w) ->
  serials_fresh (fst (transfer_tokens_between_fis from_fi to_fi serials w)) /\
  tiers_consistent (store (fst (transfer_tokens_between_fis from_fi to_fi serials w))).
Proof.
  intros Hfrom Hto [Hnd Hold] Htiers. unfold transfer_tokens_between_fis.
  cbn [get_db pending].
  destruct (transfer_loop _ _ _ serials (store w) 0) as [e|[pend total]] eqn:Hloop;
    [split; [split|]; assumption|].
  destruct (transfer_loop_invariant _ _ _ _ Hfrom Hto _ _ _ _ Hnd Htiers Hloop)
    as [Hserials Htiers'].
  unfold serials_fresh, tiers_consistent, commit, insert_ledger in *.
  cbn [token_hex fst store pending entropy tokens]. repeat split.
  - now rewrite Hserials.
  - apply Forall_forall. intros r Hr.
    assert (In (serial_number r) (map serial_number (tokens (store w)))) as Hin
      by (rewrite <- Hserials; now apply in_map).
    apply in_map_iff in Hin. destruct Hin as (r0 & Heq & Hr0).
    rewrite Forall_forall in Hold. specialize (Hold r0 Hr0). rewrite <- Heq. lia.
  - exact Htiers'.
Qed.

Lemma step_invariant (o : op) (w : world) :
  vault_not_a_party o ->
  serials_fresh w -> tiers_consistent (store w) ->
  serials_fresh (step o w) /\ tiers_consistent (store (step o w)).
Proof.
  intros Hparty Hfresh Htiers. destruct o; cbn [step vault_not_a_party] in *.
  - eapply minted_into_invariant; eauto using mint_tokens_minted.
  - eapply minted_into_invariant; eauto using mint_specific_denominations_minted.
  - eapply minted_into_invariant; eauto using mint_mixed_tokens_minted.
  - eapply minted_into_invariant; eauto using register_fi_minted.
  - now apply allocate_invariant.
  - destruct Hparty. now apply transfer_invariant.
  - split; assumption.
Qed.

Lemma run_invariant (ops : list op) :
  Forall vault_not_a_party ops ->
  forall w, serials_fresh w -> tiers_consistent (store w) ->
    serials_fresh (run ops w) /\ tiers_consistent (store (run ops w)).
Proof.
  induction 1 as [|o ops Ho _ IH]; intros w Hfresh Htiers; [auto|].
  cbn [run fold_left].
  destruct (step_invariant o w Ho Hfresh Htiers) as [Hf Ht]. now apply IH.
Qed.

Lemma sum_filter_cons (p : token_row -> bool) (r : token_row) (rows : list token_row) :
  sum (map denomination (filter p (r :: rows)))
  = (if p r then denomination r else 0) + sum (map denomination (filter p rows)).
Proof. cbn [filter]. destruct (p r); reflexivity. Qed.

(** With every token active and owner and tier in agreement, each token is
    counted in exactly one of the four tiers. *)
Lemma tiers_add_up (rows : list token_row) :
  Forall (fun r => status r = active /\
                   ((current_owner r = "CB"%string /\ owner_type r = cb)
                    \/ (current_owner r <> "CB"%string /\ owner_type r = fi))) rows ->
  sum (map denomination (filter held_in_cb_vault rows))
  + sum (map denomination (filter (active_of_kind fi) rows))
  + sum (map denomination (filter (active_of_kind wallet) rows))
  + sum (map denomination (filter (active_of_kind subwallet) rows))
  = sum (map denomination
             (filter (fun r => negb (status_eqb (status r) destroyed)) rows)).
Proof.
  induction 1 as [|r rows [Hactive Htier] _ IH]; [reflexivity|].
  rewrite !sum_filter_cons. unfold held_in_cb_vault at 1, active_of_kind at 1 3 5.
  rewrite Hactive. cbn [status_eqb negb].
  destruct Htier as [[Hcb Hkind]|[Hother Hkind]]; rewrite Hkind; cbn [owner_kind_eqb andb].
  - rewrite Hcb, String.eqb_refl. cbn [andb]. lia.
  - apply String.eqb_neq in Hother. rewrite Hother. cbn [andb]. lia.
Qed.

(** What holds of the tier accounting: along every history from the empty
    ledger in which the vault is never the target of an allocation nor a
    party of a transfer, serials stay distinct and [get_money_supply]
    reports [is_balanced = True]. *)
Theorem history_balanced (ops : list op) :
  Forall vault_not_a_party ops ->
  let w := run ops empty_world in
  NoDup (map serial_number (tokens (store w))) /\
  is_balanced (get_money_supply w) = true.
Proof.
  intros Hops w.
  assert (serials_fresh empty_world) as Hfresh0 by (split; constructor).
  assert (tiers_consistent (store empty_world)) as Htiers0 by constructor.
  destruct (run_invariant ops Hops empty_world Hfresh0 Htiers0) as [[Hnd _] Htiers].
  destruct (Conservation.run_conserved ops empty_world Conservation.empty_conserved)
    as [Hvalid _].
  fold w in Hnd, Htiers, Hvalid. split; [exact Hnd|].
  cbn [get_money_supply is_balanced]. apply Z.eqb_eq. unfold sum_where.
  apply tiers_add_up. unfold tokens_valid, tiers_consistent in *.
  rewrite Forall_forall in *. intros r Hr. split; [apply (Hvalid r Hr)|apply (Htiers r Hr)].
Qed.

End Balance.

(** * Further properties of the code *)

(** ** More on the denomination engine *)

Module ChangeMaking.

Import TokenUtils TokenTools ClosedForms MoreForms.

Lemma strongly_sorted_app {A} (R : A -> A -> Prop) (l1 l2 : list A) :
  StronglySorted R l1 -> StronglySorted R l2 ->
  (forall a b, In a l1 -> In b l2 -> R a b) ->
  StronglySorted R (l1 ++ l2).
Proof.
  induction 1 as [|x l1 Hs IH Hx]; intros H2 Hcross; [exact H2|].
  cbn [app]. constructor.
  - apply IH; [exact H2|]. intros a b Ha Hb. apply Hcross; [now right|exact Hb].
  - apply Forall_app. split; [exact Hx|].
    apply Forall_forall. intros b Hb. apply Hcross; [now left|exact Hb].
Qed.

Lemma strongly_sorted_app_inv {A} (R : A -> A -> Prop) (l1 l2 : list A) :
  StronglySorted R (l1 ++ l2) ->
  StronglySorted R l1 /\ StronglySorted R l2 /\
  (forall a b, In a l1 -> In b l2 -> R a b).
Proof.
  induction l1 as [|x l1 IH]; cbn [app]; intros H.
  - split; [constructor|]. split; [exact H|]. intros a b [].
  - inversion H as [|? ? Hs Hx]; subst. destruct (IH Hs) as (H1 & H2 & Hcross).
    apply Forall_app in Hx. destruct Hx as [Hx1 Hx2]. split; [now constructor|].
    split; [exact H2|]. intros a b [<-|Ha] Hb.
    + rewrite Forall_forall in Hx2. now apply Hx2.
    + now apply Hcross.
Qed.

Lemma repeat_nonincreasing (d : Z) (n : nat) : nonincreasing (repeat d n).
Proof.
  induction n as [|n IH]; cbn [repeat]; constructor; [exact IH|].
  apply Forall_forall. intros x Hx. apply repeat_spec in Hx. lia.
Qed.

Lemma greedy_nonincreasing (denoms : list Z) :
  StronglySorted (fun a b => b < a) denoms ->
  forall r, nonincreasing (greedy denoms r).
Proof.
  induction 1 as [|d rest Hs IH Hd]; intros r; cbn [greedy]; [constructor|].
  apply strongly_sorted_app; [apply repeat_nonincreasing|apply IH|].
  intros a b Ha Hb. apply repeat_spec in Ha. subst a.
  pose proof (DenominationEngine.greedy_members rest (r mod d)) as Hm.
  rewrite Forall_forall in Hm, Hd. specialize (Hd b (Hm b Hb)). lia.
Qed.

Lemma descending_strict : StronglySorted (fun a b => b < a) descending.
Proof.
  rewrite DenominationEngine.descending_eq.
  repeat (constructor; [|repeat (constructor; [lia|]); constructor]).
  constructor.
Qed.

(** [make_change] lists its tokens largest first: the result never
    increases from one token to the next. *)
Theorem make_change_nonincreasing (amount : Z) :
  exists change, make_change amount = Some change /\ nonincreasing change.
Proof.
  destruct (Z.leb_spec amount 0) as [Hle|Hgt].
  - exists []. split; [now apply DenominationEngine.make_change_nonpositive|constructor].
  - exists (greedy descending amount).
    split; [now apply DenominationEngine.make_change_greedy|].
    apply greedy_nonincreasing, descending_strict.
Qed.

Lemma coin_count_table :
  forallb coin_count_ok (map Z.of_nat (seq 0 2000)) = true.
Proof. vm_compute. reflexivity. Qed.

Lemma greedy_count_bound (amount : Z) :
  0 <= amount -> greedy_count descending amount <= amount / 2000 + 11.
Proof.
  intros Hpos.
  pose proof (Z.div_mod amount 2000 ltac:(lia)) as Hdm.
  pose proof (Z.mod_pos_bound amount 2000 ltac:(lia)) as Hb.
  replace amount with (amount mod 2000 + (amount / 2000) * 2000) at 1 by lia.
  rewrite DenominationEngine.greedy_count_period.
  pose proof coin_count_table as Htab. rewrite forallb_forall in Htab.
  specialize (Htab (amount mod 2000)). unfold coin_count_ok in Htab.
  assert ((greedy_count descending (amount mod 2000) <=? 11) = true) as Hle.
  { apply Htab. apply in_map_iff. exists (Z.to_nat (amount mod 2000)).
    split; [lia|]. apply in_seq. lia. }
  apply Z.leb_le in Hle. lia.
Qed.

(** [make_change] is frugal: for a positive amount it returns at most
    [amount // 2000 + 11] tokens. *)
Theorem make_change_length_bound (amount : Z) :
  0 < amount ->
  exists change, make_change amount = Some change /\
    Z.of_nat (List.length change) <= amount / 2000 + 11.
Proof.
  intros Hpos. exists (greedy descending amount).
  split; [now apply DenominationEngine.make_change_greedy|].
  destruct (DenominationEngine.greedy_length descending amount
              DenominationEngine.descending_positive ltac:(lia)) as [-> _].
  apply greedy_count_bound. lia.
Qed.

Lemma make_change_length_bound_witness :
  exists change, make_change 1999 = Some change /\
    Z.of_nat (List.length change) <= 1999 / 2000 + 11.
Proof. apply (make_change_length_bound 1999). lia. Defined.

(** *** Breaking a token *)

Lemma make_change_sum (amount : Z) :
  exists change, make_change amount = Some change /\
    sum change = Z.max 0 amount /\
    Forall (fun d => In d DENOMINATIONS) change.
Proof.
  destruct (Z.leb_spec amount 0) as [Hle|Hgt].
  - exists []. split; [now apply DenominationEngine.make_change_nonpositive|].
    split; [cbn; lia|constructor].
  - exists (greedy descending amount).
    split; [now apply DenominationEngine.make_change_greedy|].
    split; [rewrite DenominationEngine.greedy_descending_sum; lia|].
    apply DenominationEngine.greedy_descending_members.
Qed.

(** [break_token] conserves value for a target that is not negative: the
    two lists together are worth the token, and when the target does not
    exceed the token the recipient's list is worth exactly the target. *)
Theorem break_token_conserves (token : TokenUtils.token) (target_amount : Z) :
  0 <= target_amount ->
  exists recipient change,
    break_token token target_amount = Some (recipient, change) /\
    sum recipient + sum change = TokenUtils.denomination token /\
    (target_amount <= TokenUtils.denomination token -> sum recipient = target_amount).
Proof.
  intros Hpos. unfold break_token. cbv zeta.
  destruct (Z.gtb_spec target_amount (TokenUtils.denomination token)) as [Hgt|Hle].
  - exists [], [TokenUtils.denomination token]. split; [reflexivity|].
    split; [cbn; lia|lia].
  - destruct (Z.eqb_spec target_amount (TokenUtils.denomination token)) as [Heq|Hne].
    + exists [TokenUtils.denomination token], []. split; [reflexivity|].
      split; [cbn; lia|cbn; lia].
    + destruct (make_change_sum target_amount) as (r & -> & Hr & _).
      destruct (make_change_sum (TokenUtils.denomination token - target_amount))
        as (c & -> & Hc & _).
      exists r, c. split; [reflexivity|]. split; lia.
Qed.

Lemma break_token_conserves_witness :
  exists recipient change,
    break_token (mkToken (500, 7%N) 500) 120 = Some (recipient, change) /\
    sum recipient + sum change = 500 /\
    (120 <= 500 -> sum recipient = 120).
Proof. apply (break_token_conserves (mkToken (500, 7%N) 500) 120). lia. Defined.

(** [break_token] does not guard against a negative target: the recipient
    gets nothing and the sender's change is worth the token plus the
    absolute value of the target. *)
Theorem break_token_negative_target (token : TokenUtils.token) (target_amount : Z) :
  target_amount < 0 -> target_amount < TokenUtils.denomination token ->
  exists change,
    break_token token target_amount = Some ([], change) /\
    sum change = TokenUtils.denomination token - target_amount /\
    TokenUtils.denomination token < sum change.
Proof.
  intros Hneg Hlt. unfold break_token. cbv zeta.
  destruct (Z.gtb_spec target_amount (TokenUtils.denomination token)); [lia|].
  destruct (Z.eqb_spec target_amount (TokenUtils.denomination token)); [lia|].
  rewrite DenominationEngine.make_change_nonpositive by lia.
  destruct (make_change_sum (TokenUtils.denomination token - target_amount))
    as (c & -> & Hc & _).
  exists c. split; [reflexivity|]. lia.
Qed.

Lemma break_token_negative_target_witness :
  exists change,
    break_token (mkToken (100, 7%N) 100) (-50) = Some ([], change) /\
    sum change = 100 - (-50) /\ 100 < sum change.
Proof. apply (break_token_negative_target (mkToken (100, 7%N) 100) (-50)); cbn; lia. Defined.

(** *** What [calculate_change] selects and what it gives back *)

(** A result whose third component is 0 is a successful selection. *)
Lemma calculate_change_success (amount : Z) (available spend : list token)
    (change : list Z) :
  calculate_change amount available = Some (spend, change, 0) ->
  amount <= tokens_to_amount spend /\
  make_change (tokens_to_amount spend - amount) = Some change /\
  exists rest, sorted_desc denomination available = spend ++ rest.
Proof.
  intros Hcalc.
  destruct (DenominationEngine.calculate_change_cases amount available)
    as (taken & rest & Hsplit & [(Hge & c & Hc & Heq) | (_ & Hlt & Heq)]);
    rewrite Heq in Hcalc; inversion Hcalc; subst.
  - split; [exact Hge|]. split; [exact Hc|]. now exists rest.
  - lia.
Qed.

(** The change [calculate_change] asks for is exactly the overshoot of the
    selection over the amount, in valid denominations. *)
Theorem calculate_change_change_exact (amount : Z) (available spend : list token)
    (change : list Z) :
  calculate_change amount available = Some (spend, change, 0) ->
  sum change = tokens_to_amount spend - amount /\
  Forall (fun d => In d DENOMINATIONS) change.
Proof.
  intros Hcalc. destruct (calculate_change_success _ _ _ _ Hcalc) as (Hge & Hc & _).
  destruct (make_change_sum (tokens_to_amount spend - amount)) as (c & Hc' & Hsum & Hvalid).
  rewrite Hc in Hc'. inversion Hc'; subst c. split; [lia|exact Hvalid].
Qed.

Lemma calculate_change_change_exact_witness :
  sum [20; 10] = tokens_to_amount [mkToken (100, 1%N) 100] - 70 /\
  Forall (fun d => In d DENOMINATIONS) [20; 10].
Proof.
  apply (calculate_change_change_exact 70
           [mkToken (20, 0%N) 20; mkToken (100, 1%N) 100] [mkToken (100, 1%N) 100] [20; 10]).
  reflexivity.
Defined.

Lemma insert_desc_ordered {A} (key : A -> Z) (x : A) (l : list A) :
  ordered_desc key l -> ordered_desc key (insert_desc key x l).
Proof.
  unfold ordered_desc. induction 1 as [|y ys Hs IH Hy]; cbn [insert_desc].
  - constructor; constructor.
  - destruct (Z.ltb_spec (key x) (key y)) as [Hlt|Hge].
    + constructor; [exact IH|].
      eapply Permutation_Forall; [symmetry; apply insert_desc_perm|].
      constructor; [lia|exact Hy].
    + constructor; [now constructor|].
      constructor; [lia|]. eapply Forall_impl; [|exact Hy]. cbn beta. intros; lia.
Qed.

Lemma sorted_desc_ordered {A} (key : A -> Z) (l : list A) :
  ordered_desc key (sorted_desc key l).
Proof.
  induction l as [|x l IH]; cbn [sorted_desc fold_right]; [constructor|].
  now apply insert_desc_ordered.
Qed.

(** The selection loop stops as soon as the amount is reached: what it took
    before its last token was still short. *)
Lemma accumulate_until_last {A} (denom : A -> Z) (amount : Z) (tokens : list A) :
  forall selected total,
  exists taken rest,
    tokens = taken ++ rest /\
    accumulate_until denom amount tokens selected total
      = (selected ++ taken, total + sum (map denom taken)) /\
    (taken <> [] -> total + sum (map denom (removelast taken)) < amount).
Proof.
  induction tokens as [|t ts IH]; intros selected total.
  - exists [], []. cbn. rewrite app_nil_r, Z.add_0_r. repeat split. congruence.
  - cbn [accumulate_until]. destruct (Z.geb_spec total amount) as [Hge|Hlt].
    + exists [], (t :: ts). cbn. rewrite app_nil_r, Z.add_0_r. repeat split. congruence.
    + destruct (IH (selected ++ [t]) (total + denom t))
        as (taken & rest & -> & Heq & Hlast).
      exists (t :: taken), rest. rewrite Heq, <- app_assoc.
      split; [reflexivity|]. split.
      { cbn [app map].
        change (sum (denom t :: map denom taken)) with (denom t + sum (map denom taken)).
        f_equal. lia. }
      intros _. destruct taken as [|t' taken]; [cbn; lia|].
      specialize (Hlast ltac:(discriminate)).
      change (removelast (t :: t' :: taken)) with (t :: removelast (t' :: taken)).
      change (sum (map denom (t :: removelast (t' :: taken))))
        with (denom t + sum (map denom (removelast (t' :: taken)))).
      lia.
Qed.

(** A successful selection for a positive amount is greedy and minimal: it
    is not empty, without its last token it falls short of the amount, and
    no token left behind is larger than a token taken. *)
Theorem selection_largest_first (amount : Z) (available spend : list token)
    (change : list Z) :
  0 < amount ->
  calculate_change amount available = Some (spend, change, 0) ->
  spend <> [] /\
  tokens_to_amount (removelast spend) < amount /\
  exists rest,
    Permutation (spend ++ rest) available /\
    forall t u, In t spend -> In u rest -> denomination u <= denomination t.
Proof.
  intros Hpos Hcalc.
  destruct (calculate_change_success _ _ _ _ Hcalc) as (Hge & _ & _).
  assert (spend <> []) as Hne.
  { intros ->. cbn in Hge. lia. }
  split; [exact Hne|].
  unfold calculate_change in Hcalc.
  destruct (accumulate_until_last denomination amount
              (sorted_desc denomination available) [] 0)
    as (taken & rest & Hsplit & Heq & Hlast).
  rewrite Heq in Hcalc. cbn [app] in Hcalc. rewrite Z.add_0_l in *.
  fold (tokens_to_amount taken) in Hcalc.
  destruct (tokens_to_amount taken <? amount); [inversion Hcalc; subst; congruence|].
  destruct (make_change _); inversion Hcalc; subst.
  split; [apply Hlast; exact Hne|].
  exists rest. split.
  - rewrite <- Hsplit. apply sorted_desc_perm.
  - pose proof (sorted_desc_ordered denomination available) as Hord.
    unfold ordered_desc in Hord. rewrite Hsplit in Hord.
    apply strongly_sorted_app_inv in Hord. destruct Hord as (_ & _ & Hcross).
    intros t u Ht Hu. now apply Hcross.
Qed.

Lemma selection_largest_first_witness :
  [mkToken (100, 1%N) 100] <> [] /\
  tokens_to_amount (removelast [mkToken (100, 1%N) 100]) < 70 /\
  exists rest,
    Permutation ([mkToken (100, 1%N) 100] ++ rest)
                [mkToken (20, 0%N) 20; mkToken (100, 1%N) 100] /\
    forall t u, In t [mkToken (100, 1%N) 100] -> In u rest ->
                denomination u <= denomination t.
Proof.
  apply (selection_largest_first 70
           [mkToken (20, 0%N) 20; mkToken (100, 1%N) 100] [mkToken (100, 1%N) 100] [20; 10]).
  - lia.
  - reflexivity.
Defined.

(** *** Grouping tokens by denomination *)

Lemma dict_get_set_same (d v default : Z) (result : list (Z * Z)) :
  dict_get d (dict_set d v result) default = v.
Proof.
  induction result as [|[k v0] rest IH]; cbn [dict_set dict_get].
  - now rewrite Z.eqb_refl.
  - destruct (Z.eqb_spec k d) as [->|Hne]; cbn [dict_get].
    + now rewrite Z.eqb_refl.
    + destruct (Z.eqb_spec k d); [contradiction|exact IH].
Qed.

Lemma dict_get_set_other (d d' v default : Z) (result : list (Z * Z)) :
  d' <> d -> dict_get d' (dict_set d v result) default = dict_get d' result default.
Proof.
  intros Hne. induction result as [|[k v0] rest IH]; cbn [dict_set dict_get].
  - destruct (Z.eqb_spec d d'); [congruence|reflexivity].
  - destruct (Z.eqb_spec k d) as [->|Hk]; cbn [dict_get].
    + destruct (Z.eqb_spec d d'); [congruence|reflexivity].
    + now rewrite IH.
Qed.

Lemma dict_set_keys (d v : Z) (result : list (Z * Z)) :
  NoDup (map fst result) ->
  NoDup (map fst (dict_set d v result)) /\
  forall k, In k (map fst (dict_set d v result)) <-> k = d \/ In k (map fst result).
Proof.
  induction result as [|[k0 v0] rest IH]; cbn [dict_set map fst]; intros Hnd.
  - split; [repeat constructor; intros []|]. intros k. cbn. intuition.
  - inversion Hnd as [|? ? Hnotin Hnd']; subst.
    destruct (Z.eqb_spec k0 d) as [->|Hne]; cbn [map fst].
    + split; [exact Hnd|]. intros k. cbn. intuition.
    + destruct (IH Hnd') as [IHnd IHin]. split.
      * constructor; [|exact IHnd]. rewrite IHin. intuition.
      * intros k. cbn. rewrite IHin. intuition.
Qed.

Lemma dict_set_increment (d : Z) (result : list (Z * Z)) :
  dict_value (dict_set d (dict_get d result 0 + 1) result) = dict_value result + d /\
  dict_tokens (dict_set d (dict_get d result 0 + 1) result) = dict_tokens result + 1.
Proof.
  unfold dict_value, dict_tokens.
  induction result as [|[k v0] rest [IHv IHt]]; cbn [dict_set dict_get].
  - cbn. lia.
  - destruct (Z.eqb_spec k d) as [->|Hne]; cbn [map sum fold_right fst snd] in *.
    + split; lia.
    + unfold sum in *. split; lia.
Qed.

Lemma count_of_cons (d : Z) (t : token) (tokens : list token) :
  count_of d (t :: tokens)
  = (if denomination t =? d then 1 else 0) + count_of d tokens.
Proof.
  unfold count_of. cbn [filter]. destruct (denomination t =? d); cbn [List.length]; lia.
Qed.

(** The grouping loop from any dict built so far. *)
Lemma by_denomination_from (tokens : list token) :
  forall result,
    NoDup (map fst result) ->
    let result' :=
      fold_left (fun result t =>
                   dict_set (denomination t) (dict_get (denomination t) result 0 + 1) result)
                tokens result in
    (forall d, dict_get d result' 0 = dict_get d result 0 + count_of d tokens) /\
    NoDup (map fst result') /\
    dict_value result' = dict_value result + tokens_to_amount tokens /\
    dict_tokens result' = dict_tokens result + Z.of_nat (List.length tokens).
Proof.
  induction tokens as [|t tokens IH]; intros result Hnd; cbn [fold_left].
  - cbv zeta. unfold count_of, tokens_to_amount. cbn.
    split; [intros d; lia|]. split; [exact Hnd|]. split; lia.
  - destruct (dict_set_keys (denomination t) (dict_get (denomination t) result 0 + 1)
                result Hnd) as [Hnd' _].
    destruct (dict_set_increment (denomination t) result) as [Hv Ht].
    specialize (IH _ Hnd'). cbv zeta in IH |- *.
    destruct IH as (IHget & IHnd & IHv & IHt).
    split; [|split; [exact IHnd|split]].
    + intros d. rewrite IHget, count_of_cons.
      destruct (Z.eqb_spec (denomination t) d) as [<-|Hne].
      * rewrite dict_get_set_same. lia.
      * rewrite dict_get_set_other by congruence. lia.
    + rewrite IHv, Hv.
      change (tokens_to_amount (t :: tokens))
        with (denomination t + tokens_to_amount tokens). lia.
    + rewrite IHt, Ht. cbn [List.length]. lia.
Qed.

(** [by_denomination] counts faithfully: the count it holds for a
    denomination is the number of tokens of that denomination (0 for a
    denomination it does not hold), no denomination is listed twice, and its
    counts account for every token and for the bundle's total. *)
Theorem by_denomination_counts (self_tokens : list token) :
  (forall d, dict_get d (by_denomination self_tokens) 0 = count_of d self_tokens) /\
  NoDup (map fst (by_denomination self_tokens)) /\
  dict_value (by_denomination self_tokens) = total self_tokens /\
  dict_tokens (by_denomination self_tokens) = count self_tokens.
Proof.
  destruct (by_denomination_from self_tokens [] ltac:(constructor))
    as (Hget & Hnd & Hv & Ht).
  unfold by_denomination, total, count. repeat split; auto.
Qed.

End ChangeMaking.

(** ** More on the ownership ledger *)

Module LedgerOperations.

Import Database History ClosedForms MoreForms.

Lemma validate_denomination_iff (x : Z) :
  TokenUtils.validate_denomination x = true <-> In x TokenUtils.DENOMINATIONS.
Proof.
  split; [apply Conservation.validate_denomination_in|].
  intros H. unfold TokenUtils.validate_denomination. apply existsb_exists.
  exists x. split; [exact H|apply Z.eqb_refl].
Qed.

Lemma fresh_tokens_length (denoms : list Z) (e : N) :
  List.length (fresh_tokens denoms e) = List.length denoms.
Proof.
  rewrite <- (OwnershipLedger.fresh_tokens_denominations denoms e) at 2.
  now rewrite length_map.
Qed.

Lemma vault_total_minted (d : db) (timestamp : Z) (batch : N)
    (minted : list TokenUtils.token) fis led nul bat :
  vault_total (mkDb (tokens d ++ map (row_of timestamp batch) minted) fis led nul bat)
  = vault_total d + TokenUtils.tokens_to_amount minted.
Proof.
  unfold vault_total. rewrite OwnershipLedger.cb_vault_minted.
  apply OwnershipLedger.tokens_to_amount_app.
Qed.



Lemma validate_counts_ok (items : list (Z * Z)) :
  validate_counts items = None <-> Forall request_ok items.
Proof.
  induction items as [|[d c] items IH]; cbn [validate_counts].
  - split; [constructor|reflexivity].
  - destruct (TokenUtils.validate_denomination d) eqn:Hd; cbn [negb].
    + apply validate_denomination_iff in Hd.
      destruct (Z.leb_spec c 0) as [Hlow|Hlow].
      { split; [discriminate|]. intros Hall. inversion Hall as [|? ? [_ Hc] _]; subst.
        cbn in Hc. lia. }
      destruct (Z.gtb_spec c 10000) as [Hhigh|Hhigh].
      { split; [discriminate|]. intros Hall. inversion Hall as [|? ? [_ Hc] _]; subst.
        cbn in Hc. lia. }
      rewrite IH. split.
      * intros Hall. constructor; [split; cbn; [exact Hd|lia]|exact Hall].
      * intros Hall. now inversion Hall.
    + split; [discriminate|]. intros Hall. inversion Hall as [|? ? [Hin _] _]; subst.
      cbn in Hin. apply validate_denomination_iff in Hin. congruence.
Qed.

Lemma minted_denominations_totals (items : list (Z * Z)) :
  Forall request_ok items ->
  sum (minted_denominations items) = dict_value items /\
  Z.of_nat (List.length (minted_denominations items)) = dict_tokens items /\
  Forall (fun d => In d TokenUtils.DENOMINATIONS) (minted_denominations items).
Proof.
  unfold dict_value, dict_tokens.
  induction 1 as [|[d c] items [Hd Hc] _ (IHs & IHl & IHv)].
  - cbn. repeat split; constructor.
  - cbn in Hd, Hc. cbn [minted_denominations flat_map map fst snd].
    fold (minted_denominations items).
    rewrite sum_app, sum_repeat, length_app, repeat_length, Nat2Z.inj_add.
    change (sum (d * c :: map (fun kv => fst kv * snd kv) items))
      with (d * c + sum (map (fun kv => fst kv * snd kv) items)).
    change (sum (c :: map snd items)) with (c + sum (map snd items)).
    repeat split; try lia.
    apply Forall_app. split; [|exact IHv].
    apply Forall_forall. intros x Hx. apply repeat_spec in Hx. now subst.
Qed.

(** The nested minting loops of [mint_specific_denominations] on a request
    that passes validation. *)
Lemma mint_specific_loop_minted (items : list (Z * Z)) (timestamp : Z) (batch : N) :
  Forall request_ok items ->
  forall w pend all_tokens total_value,
    exists bat',
      mint_specific_loop items timestamp batch w pend all_tokens total_value
      = (mkWorld (store w)
                 (entropy w + N.of_nat (List.length (minted_denominations items)))
                 (clock w),
         mkDb (tokens pend ++
                 map (row_of timestamp batch)
                     (fresh_tokens (minted_denominations items) (entropy w)))
              (financial_institutions pend) (ledger pend) (nullifiers pend) bat',
         all_tokens ++ fresh_tokens (minted_denominations items) (entropy w),
         total_value + dict_value items).
Proof.
  induction 1 as [|[d c] items [Hd Hc] Hrest IH]; intros w pend all_tokens total_value;
    [|cbn in Hd, Hc].
  - exists (token_batches pend). cbn [mint_specific_loop minted_denominations flat_map].
    unfold dict_value. cbn. rewrite !app_nil_r, N.add_0_r, Z.add_0_r.
    destruct pend, w. reflexivity.
  - cbn [mint_specific_loop]. destruct (Z.leb_spec c 0); [lia|].
    rewrite OwnershipLedger.mint_each_spec.
    match goal with
    | |- context [mint_specific_loop items timestamp batch ?w1 ?p1 ?a1 ?t1] =>
        destruct (IH w1 p1 a1 t1) as (bat' & Heq)
    end.
    exists bat'. rewrite Heq. unfold insert_batch.
    cbn [store entropy clock tokens financial_institutions ledger nullifiers token_batches].
    cbn [minted_denominations flat_map fst snd]. fold (minted_denominations items).
    rewrite OwnershipLedger.fresh_tokens_app, map_app, <- !app_assoc, length_app.
    unfold dict_value. cbn [map fst snd].
    change (sum (d * c :: map (fun kv => fst kv * snd kv) items))
      with (d * c + sum (map (fun kv => fst kv * snd kv) items)).
    rewrite Z.add_assoc.
    replace (entropy w + N.of_nat (List.length (repeat d (Z.to_nat c)))
             + N.of_nat (List.length (minted_denominations items)))%N
      with (entropy w + N.of_nat (List.length (repeat d (Z.to_nat c))
                                  + List.length (minted_denominations items)))%N by lia.
    reflexivity.
Qed.

(** [mint_specific_denominations] validates the whole request before it
    mints anything.  A request whose every item has a valid denomination and
    a count from 1 to 10000 is minted in full: the tokens are worth the sum
    of [denomination * count], there are as many as the counts add up to,
    and the vault grows by their value.  Any other request returns an error
    and changes nothing. *)
Theorem mint_specific_outcome (denomination_counts : list (Z * Z)) (w : world) :
  (Forall request_ok denomination_counts ->
   exists w' r,
     mint_specific_denominations denomination_counts w = (w', Success r) /\
     mr_total_value r = dict_value denomination_counts /\
     TokenUtils.tokens_to_amount (mr_tokens r) = dict_value denomination_counts /\
     Z.of_nat (List.length (mr_tokens r)) = dict_tokens denomination_counts /\
     vault_total (store w') = vault_total (store w) + dict_value denomination_counts) /\
  (~ Forall request_ok denomination_counts ->
   exists e, mint_specific_denominations denomination_counts w = (w, Failure e)).
Proof.
  split.
  - intros Hok. destruct (minted_denominations_totals _ Hok) as (Hsum & Hlen & _).
    unfold mint_specific_denominations.
    rewrite (proj2 (validate_counts_ok denomination_counts) Hok).
    cbn [token_hex get_db pending].
    match goal with
    | |- context [mint_specific_loop _ ?ts ?b ?w1 ?p1 ?a1 ?t1] =>
        destruct (mint_specific_loop_minted denomination_counts ts b Hok w1 p1 a1 t1)
          as (bat' & ->)
    end.
    unfold commit, insert_ledger.
    cbn [store entropy clock pending app tokens ledger financial_institutions
         nullifiers token_batches].
    do 2 eexists. split; [reflexivity|]. cbn [mr_total_value mr_tokens store].
    rewrite OwnershipLedger.fresh_tokens_amount, fresh_tokens_length, vault_total_minted,
      OwnershipLedger.fresh_tokens_amount.
    repeat split; lia.
  - intros Hbad. unfold mint_specific_denominations.
    destruct (validate_counts denomination_counts) as [e|] eqn:Hv; [eauto|].
    exfalso. apply Hbad. now apply validate_counts_ok.
Qed.

Lemma mint_specific_outcome_witness :
  exists w' r,
    mint_specific_denominations [(2000, 5); (500, 10); (100, 20)] empty_world
      = (w', Success r) /\
    mr_total_value r = dict_value [(2000, 5); (500, 10); (100, 20)] /\
    TokenUtils.tokens_to_amount (mr_tokens r) = dict_value [(2000, 5); (500, 10); (100, 20)] /\
    Z.of_nat (List.length (mr_tokens r)) = dict_tokens [(2000, 5); (500, 10); (100, 20)] /\
    vault_total (store w')
      = vault_total (store empty_world) + dict_value [(2000, 5); (500, 10); (100, 20)].
Proof.
  apply (proj1 (mint_specific_outcome [(2000, 5); (500, 10); (100, 20)] empty_world)).
  repeat (apply Forall_cons; [split; cbn; [tauto|lia]|]). apply Forall_nil.
Defined.



(** *** Nothing is deleted or rewritten *)

Lemma grows_refl (d : db) : grows d d.
Proof.
  repeat split; try (exists []; now rewrite app_nil_r). auto.
Qed.

Lemma grows_trans (d1 d2 d3 : db) : grows d1 d2 -> grows d2 d3 -> grows d1 d3.
Proof.
  intros ((t1 & Ht1) & (l1 & Hl1) & (f1 & Hf1) & Hn1 & Hu1)
         ((t2 & Ht2) & (l2 & Hl2) & (f2 & Hf2) & Hn2 & Hu2).
  repeat split.
  - exists (t1 ++ t2). now rewrite Ht2, Ht1, app_assoc.
  - exists (l1 ++ l2). now rewrite Hl2, Hl1, app_assoc.
  - exists (f1 ++ f2). now rewrite Hf2, Hf1, app_assoc.
  - auto.
  - congruence.
Qed.

(** Minted rows and one ledger entry make the database grow. *)
Lemma grows_minted (d : db) (rows : list token_row) (e : ledger_row) bat :
  grows d (mkDb (tokens d ++ rows) (financial_institutions d) (ledger d ++ [e])
                (nullifiers d) bat).
Proof.
  repeat split; cbn [tokens ledger financial_institutions nullifiers].
  - exists (map token_core rows). now rewrite map_app.
  - now exists [e].
  - exists []. now rewrite app_nil_r.
  - auto.
Qed.

Lemma grows_update_tokens (s : serial) (f : token_row -> token_row) (d : db) :
  (forall r, token_core (f r) = token_core r) -> grows d (update_tokens s f d).
Proof.
  intros Hf. unfold update_tokens.
  repeat split; cbn [tokens ledger financial_institutions nullifiers];
    try (exists []; now rewrite app_nil_r); auto.
  exists []. rewrite app_nil_r, map_map. apply map_ext. intros r.
  destruct (serial_eqb (serial_number r) s); [apply Hf|reflexivity].
Qed.

Lemma grows_insert_ledger (e : ledger_row) (d : db) : grows d (insert_ledger e d).
Proof.
  unfold insert_ledger.
  repeat split; cbn [tokens ledger financial_institutions nullifiers];
    try (exists []; now rewrite app_nil_r); auto.
  now exists [e].
Qed.

Lemma mint_tokens_grows (denomination0 count : Z) (w : world) :
  grows (store w) (store (fst (mint_tokens denomination0 count w))).
Proof.
  unfold mint_tokens. destruct (negb _); [apply grows_refl|].
  destruct (_ || _); [apply grows_refl|].
  cbn [token_hex]. rewrite OwnershipLedger.mint_each_spec.
  unfold commit, insert_ledger, insert_batch.
  cbn [store entropy clock get_db pending fst tokens ledger financial_institutions
       nullifiers token_batches].
  apply grows_minted.
Qed.

Lemma mint_specific_denominations_grows (counts : list (Z * Z)) (w : world) :
  grows (store w) (store (fst (mint_specific_denominations counts w))).
Proof.
  unfold mint_specific_denominations.
  destruct (validate_counts counts) eqn:Hv; [apply grows_refl|].
  cbn [token_hex get_db pending].
  match goal with
  | |- context [mint_specific_loop counts ?ts ?b ?w1 ?p1 ?a1 ?t1] =>
      destruct (Conservation.mint_specific_loop_spec counts ts b w1 p1 a1 t1 Hv)
        as (bat' & denoms & -> & _)
  end.
  unfold commit, insert_ledger.
  cbn [store pending fst tokens ledger financial_institutions nullifiers token_batches].
  apply grows_minted.
Qed.

Lemma mint_mixed_tokens_grows (amount : Z) (w : world) :
  grows (store w) (store (fst (mint_mixed_tokens amount w))).
Proof.
  destruct (Z.leb_spec amount 0) as [Hle|Hgt].
  - unfold mint_mixed_tokens. destruct (Z.leb_spec amount 0); [|lia]. apply grows_refl.
  - destruct (OwnershipLedger.mint_mixed_tokens_spec amount w Hgt) as (e' & ->).
    cbn [fst store]. apply grows_minted.
Qed.

Lemma register_fi_grows (fi_id0 name0 : string) (w : world) :
  grows (store w) (store (fst (register_fi fi_id0 name0 w))).
Proof.
  unfold register_fi. cbn [get_db pending].
  destruct (existsb _ _) eqn:Hex; [apply grows_refl|].
  cbn [token_hex fst commit store pending]. unfold insert_fi.
  repeat split; cbn [tokens ledger financial_institutions nullifiers];
    try (exists []; now rewrite app_nil_r).
  - now eexists.
  - intros Hnd. rewrite map_app. cbn [map fi_id].
    apply NoDup_app; [exact Hnd|repeat constructor; intros []|].
    intros x Hx [<-|[]]. apply in_map_iff in Hx. destruct Hx as (f & Hid & Hf).
    assert (existsb (fun f => String.eqb (fi_id f) fi_id0)
                    (financial_institutions (store w)) = true) as Htrue.
    { apply existsb_exists. exists f. split; [exact Hf|]. now apply String.eqb_eq. }
    congruence.
Qed.

Lemma give_to_fi_grows (fi_id0 : string) (timestamp : Z) (sel : list TokenUtils.token) :
  forall d, grows d (fold_left (fun d t => give_to_fi fi_id0 timestamp t d) sel d).
Proof.
  induction sel as [|t sel IH]; intros d; cbn [fold_left]; [apply grows_refl|].
  eapply grows_trans; [|apply IH]. apply grows_update_tokens. reflexivity.
Qed.

Lemma record_allocation_grows (w : world) (conn : connection) (fi_id0 : string)
    (sel : list TokenUtils.token) (total : Z) :
  (is_open conn = true -> grows (store w) (pending conn)) ->
  grows (store w) (store (fst (record_allocation w conn fi_id0 sel total))).
Proof.
  intros Hconn. destruct conn as [d [|]].
  - unfold record_allocation. rewrite OwnershipLedger.execute_each_open.
    cbn [token_hex execute is_open pending fst commit store].
    eapply grows_trans; [exact (Hconn eq_refl)|].
    eapply grows_trans; [apply give_to_fi_grows|apply grows_insert_ledger].
  - destruct (OwnershipLedger.record_allocation_closed w d fi_id0 sel total)
      as (w' & -> & Hstore & _).
    cbn [fst]. rewrite Hstore. apply grows_refl.
Qed.

Lemma allocate_grows (depth : nat) (fi_id0 : string) (amount : Z) :
  forall w, grows (store w) (store (fst (allocate_tokens_to_fi depth fi_id0 amount w))).
Proof.
  induction depth as [|depth IH]; intros w; [apply grows_refl|].
  cbn [allocate_tokens_to_fi get_db pending].
  destruct (find _ (financial_institutions (store w))); [|apply grows_refl].
  destruct (accumulate_until _ amount (select_cb_vault (store w)) [] 0) as [sel total].
  destruct (total <? amount).
  - pose proof (mint_mixed_tokens_grows (amount - total) w) as Hm.
    destruct (mint_mixed_tokens (amount - total) w) as [w1 [r|e|x|]]; cbn [fst] in *;
      auto.
    eapply grows_trans; [exact Hm|apply IH].
  - destruct (total >? amount).
    + destruct (exact_subset amount _ [] 0) as [sel2 total2].
      destruct (total2 <? amount).
      * pose proof (mint_mixed_tokens_grows amount w) as Hm.
        destruct (mint_mixed_tokens amount w) as [w1 [r|e|x|]]; cbn [fst] in *; auto.
        eapply grows_trans; [exact Hm|].
        apply record_allocation_grows. cbn. discriminate.
      * apply (record_allocation_grows w (mkConn (store w) true)).
        intros _. apply grows_refl.
    + apply (record_allocation_grows w (mkConn (store w) true)).
      intros _. apply grows_refl.
Qed.

Lemma transfer_loop_grows (from_fi to_fi : string) (timestamp : Z) (serials : list serial) :
  forall pend total pend' total',
    transfer_loop from_fi to_fi timestamp serials pend total = inr (pend', total') ->
    grows pend pend'.
Proof.
  induction serials as [|s rest IH]; intros pend total pend' total' H.
  - cbn in H. inversion H. apply grows_refl.
  - cbn [transfer_loop] in H. destruct (find _ (tokens pend)); [|discriminate].
    eapply grows_trans; [|eapply IH; exact H].
    apply grows_update_tokens. reflexivity.
Qed.

Lemma transfer_grows (from_fi to_fi : string) (serials : list serial) (w : world) :
  grows (store w) (store (fst (transfer_tokens_between_fis from_fi to_fi serials w))).
Proof.
  unfold transfer_tokens_between_fis. cbn [get_db pending].
  destruct (transfer_loop _ _ _ serials (store w) 0) as [e|[pend total]] eqn:Hloop;
    [apply grows_refl|].
  cbn [token_hex fst commit store pending].
  eapply grows_trans; [eapply transfer_loop_grows; exact Hloop|apply grows_insert_ledger].
Qed.

Lemma step_grows (o : op) (w : world) : grows (store w) (store (step o w)).
Proof.
  destruct o; cbn [step].
  - apply mint_tokens_grows.
  - apply mint_specific_denominations_grows.
  - apply mint_mixed_tokens_grows.
  - apply register_fi_grows.
  - apply allocate_grows.
  - apply transfer_grows.
  - apply grows_refl.
Qed.

Lemma run_grows (ops : list op) : forall w, grows (store w) (store (run ops w)).
Proof.
  induction ops as [|o ops IH]; intros w; [apply grows_refl|].
  cbn [run fold_left]. eapply grows_trans; [apply step_grows|apply IH].
Qed.

(** The central bank's tables are append-only.  Whatever operations run,
    from any state: every token row stays in place with its serial,
    denomination, status and mint data, every ledger entry and every FI row
    stays as it was, new rows only come after them, and the nullifier table
    is never written. *)
Theorem history_append_only (ops : list op) (w : world) :
  (exists new, map token_core (tokens (store (run ops w)))
               = map token_core (tokens (store w)) ++ new) /\
  (exists new, ledger (store (run ops w)) = ledger (store w) ++ new) /\
  (exists new, financial_institutions (store (run ops w))
               = financial_institutions (store w) ++ new) /\
  nullifiers (store (run ops w)) = nullifiers (store w).
Proof.
  destruct (run_grows ops w) as (Ht & Hl & Hf & _ & Hn). auto.
Qed.

(** No FI id is ever registered twice: along every history from the empty
    ledger the ids of [financial_institutions] are pairwise distinct. *)
Theorem history_fi_ids_unique (ops : list op) :
  NoDup (map fi_id (financial_institutions (store (run ops empty_world)))).
Proof.
  destruct (run_grows ops empty_world) as (_ & _ & _ & Hnd & _).
  apply Hnd. constructor.
Qed.

(** *** Registration and allocation *)

Lemma registered_existsb (fi_id0 : string) (d : db) :
  registered fi_id0 d <->
  existsb (fun f => String.eqb (fi_id f) fi_id0) (financial_institutions d) = true.
Proof.
  unfold registered. split.
  - intros [f Hf]. apply find_some in Hf. apply existsb_exists. now exists f.
  - intros H. destruct (find _ (financial_institutions d)) as [f|] eqn:Hf; [eauto|].
    apply OwnershipLedger.find_none_existsb in Hf. congruence.
Qed.

Lemma mint_mixed_tokens_cases (amount : Z) (w : world) :
  (amount <= 0 /\ mint_mixed_tokens amount w = (w, Failure AmountNotPositive)) \/
  (0 < amount /\ exists w' r,
     mint_mixed_tokens amount w = (w', Success r) /\
     financial_institutions (store w') = financial_institutions (store w) /\
     mr_total_value r = amount /\ TokenUtils.tokens_to_amount (mr_tokens r) = amount).
Proof.
  destruct (Z.leb_spec amount 0) as [Hle|Hgt].
  - left. split; [exact Hle|]. unfold mint_mixed_tokens.
    destruct (Z.leb_spec amount 0); [reflexivity|lia].
  - right. split; [exact Hgt|].
    destruct (OwnershipLedger.mint_mixed_tokens_spec amount w Hgt) as (e' & ->).
    do 2 eexists. split; [reflexivity|]. cbn [store financial_institutions mr_total_value
      mr_tokens]. repeat split.
    rewrite OwnershipLedger.fresh_tokens_amount.
    apply DenominationEngine.greedy_descending_sum. lia.
Qed.

Lemma allocate_registered_known (depth : nat) (fi_id0 : string) (amount : Z) :
  forall w, registered fi_id0 (store w) ->
    snd (allocate_tokens_to_fi depth fi_id0 amount w) <> Failure FINotFound.
Proof.
  induction depth as [|depth IH]; intros w Hreg; [discriminate|].
  pose proof Hreg as [f Hf]. cbn [allocate_tokens_to_fi get_db pending]. rewrite Hf.
  destruct (accumulate_until _ amount (select_cb_vault (store w)) [] 0) as [sel total].
  destruct (total <? amount).
  - destruct (mint_mixed_tokens_cases (amount - total) w)
      as [[_ ->]|(_ & w1 & r & -> & Hfis & _)]; [discriminate|].
    apply IH. unfold registered. rewrite Hfis. exact Hreg.
  - destruct (total >? amount).
    + destruct (exact_subset amount _ [] 0) as [sel2 total2].
      destruct (total2 <? amount).
      * destruct (mint_mixed_tokens_cases amount w)
          as [[_ ->]|(_ & w1 & r & -> & _)]; [discriminate|].
        destruct (OwnershipLedger.record_allocation_closed w1 (store w) fi_id0
                    (mr_tokens r) amount) as (w2 & Hrec & _).
        unfold close, get_db. cbn [pending]. rewrite Hrec. discriminate.
      * fold (get_db w). rewrite OwnershipLedger.record_allocation_open. discriminate.
    + fold (get_db w). rewrite OwnershipLedger.record_allocation_open. discriminate.
Qed.

(** [allocate_tokens_to_fi] answers "FI not found" exactly for an id that
    is not registered, and then leaves the world as it was: the lookup comes
    before any minting. *)
Theorem allocate_fi_not_found (depth : nat) (fi_id0 : string) (amount : Z) (w : world) :
  (snd (allocate_tokens_to_fi (S depth) fi_id0 amount w) = Failure FINotFound
   <-> ~ registered fi_id0 (store w)) /\
  (~ registered fi_id0 (store w) ->
   allocate_tokens_to_fi (S depth) fi_id0 amount w = (w, Failure FINotFound)).
Proof.
  assert (~ registered fi_id0 (store w) ->
          allocate_tokens_to_fi (S depth) fi_id0 amount w = (w, Failure FINotFound)) as Hnot.
  { intros Hn. apply OwnershipLedger.allocate_unregistered.
    destruct (find _ (financial_institutions (store w))) as [f|] eqn:Hf; [|reflexivity].
    exfalso. apply Hn. now exists f. }
  split; [|exact Hnot]. split.
  - intros Hres Hreg. now apply (allocate_registered_known (S depth) fi_id0 amount w Hreg).
  - intros Hn. now rewrite (Hnot Hn).
Qed.

(** Once [register_fi] has run for an id, with success or with "FI already
    registered", the id is registered: a further [register_fi] for it is
    rejected and changes nothing, and [allocate_tokens_to_fi] never answers
    "FI not found" for it. *)
Theorem register_fi_makes_known (fi_id0 name0 : string) (w : world) :
  let w' := fst (register_fi fi_id0 name0 w) in
  registered fi_id0 (store w') /\
  (forall name1, register_fi fi_id0 name1 w' = (w', Failure FIAlreadyRegistered)) /\
  (forall depth amount,
     snd (allocate_tokens_to_fi depth fi_id0 amount w') <> Failure FINotFound).
Proof.
  intros w'.
  assert (registered fi_id0 (store w')) as Hreg.
  { apply registered_existsb. unfold w', register_fi. cbn [get_db pending].
    destruct (existsb _ (financial_institutions (store w))) eqn:Hex; [exact Hex|].
    cbn [token_hex fst commit store pending insert_fi financial_institutions].
    rewrite existsb_app. cbn [existsb fi_id]. rewrite String.eqb_refl.
    now rewrite orb_true_r. }
  split; [exact Hreg|]. split.
  - intros name1. unfold register_fi at 1. cbn [get_db pending].
    now rewrite (proj1 (registered_existsb fi_id0 (store w')) Hreg).
  - intros depth amount. now apply allocate_registered_known.
Qed.

(** The exact-subset pass keeps its running total in step with what it
    selects, never runs over the amount, and selects among the tokens given. *)
Lemma exact_subset_spec (amount : Z) (tokens : list TokenUtils.token) :
  forall selected total,
    total = TokenUtils.tokens_to_amount selected -> total <= amount ->
    exists selected' rest,
      exact_subset amount tokens selected total
        = (selected', TokenUtils.tokens_to_amount selected') /\
      TokenUtils.tokens_to_amount selected' <= amount /\
      Permutation (selected' ++ rest) (selected ++ tokens).
Proof.
  induction tokens as [|t ts IH]; intros selected total Htotal Hle.
  - exists selected, []. cbn [exact_subset]. subst total.
    split; [reflexivity|]. split; [lia|reflexivity].
  - cbn [exact_subset].
    destruct (Z.leb_spec (total + TokenUtils.denomination t) amount) as [Hfit|Hover].
    + destruct (IH (selected ++ [t]) (total + TokenUtils.denomination t))
        as (sel' & rest & Heq & Hle' & Hperm).
      { rewrite OwnershipLedger.tokens_to_amount_app. subst total.
        unfold TokenUtils.tokens_to_amount. cbn. lia. }
      { exact Hfit. }
      exists sel', rest. split; [exact Heq|]. split; [exact Hle'|].
      rewrite Hperm, <- app_assoc. reflexivity.
    + destruct (IH selected total Htotal Hle) as (sel' & rest & Heq & Hle' & Hperm).
      exists sel', (t :: rest). split; [exact Heq|]. split; [exact Hle'|].
      rewrite <- Permutation_middle, Hperm. apply Permutation_middle.
Qed.

(** A successful allocation is exact.  Whatever the vault holds, when
    [allocate_tokens_to_fi] returns success for a positive amount, the
    returned tokens sum to the requested amount, [amount] and [token_count]
    of the result agree with them, and the last ledger entry is the
    allocation of exactly these tokens and this amount to the FI. *)
Theorem allocate_success_exact (depth : nat) (fi_id0 : string) (amount : Z) :
  0 < amount ->
  forall w w' r,
    allocate_tokens_to_fi depth fi_id0 amount w = (w', Success r) ->
    al_fi_id r = fi_id0 /\
    al_amount r = amount /\
    TokenUtils.tokens_to_amount (al_tokens r) = amount /\
    al_token_count r = List.length (al_tokens r) /\
    exists earlier timestamp,
      ledger (store w') = earlier ++
        [mkLedger (al_transaction_id r) allocation "CB" fi_id0
                  (map TokenUtils.serial_number (al_tokens r)) amount timestamp].
Proof.
  intros Hpos. induction depth as [|depth IH]; intros w w' r Halloc; [discriminate|].
  cbn [allocate_tokens_to_fi get_db pending] in Halloc.
  destruct (find _ (financial_institutions (store w))); [|discriminate].
  destruct (accumulate_until_spec TokenUtils.denomination amount
              (select_cb_vault (store w)) [] 0) as (taken & rest & _ & Heq & _).
  rewrite Heq in Halloc. cbn [app] in Halloc. rewrite Z.add_0_l in Halloc.
  fold (TokenUtils.tokens_to_amount taken) in Halloc.
  destruct (Z.ltb_spec (TokenUtils.tokens_to_amount taken) amount) as [Hlow|Hhigh].
  - destruct (mint_mixed_tokens (amount - TokenUtils.tokens_to_amount taken) w)
      as [w1 [mr|e|x|]]; try discriminate.
    now apply (IH w1).
  - assert (forall sel,
              TokenUtils.tokens_to_amount sel = amount ->
              record_allocation w (mkConn (store w) true) fi_id0 sel
                                (TokenUtils.tokens_to_amount sel) = (w', Success r) ->
              al_fi_id r = fi_id0 /\ al_amount r = amount /\
              TokenUtils.tokens_to_amount (al_tokens r) = amount /\
              al_token_count r = List.length (al_tokens r) /\
              exists earlier timestamp,
                ledger (store w') = earlier ++
                  [mkLedger (al_transaction_id r) allocation "CB" fi_id0
                            (map TokenUtils.serial_number (al_tokens r)) amount timestamp])
      as Hrecord.
    { intros sel Hsum Hrec. fold (get_db w) in Hrec.
      rewrite OwnershipLedger.record_allocation_open in Hrec.
      injection Hrec as Hw Hr. rewrite <- Hw, <- Hr.
      cbn [al_fi_id al_amount al_tokens al_token_count al_transaction_id store
           insert_ledger ledger].
      repeat split; auto. do 2 eexists. rewrite Hsum. reflexivity. }
    destruct (Z.gtb_spec (TokenUtils.tokens_to_amount taken) amount) as [Hover|Hexact].
    + destruct (exact_subset_spec amount
                  (sorted_asc TokenUtils.denomination (select_cb_vault (store w))) [] 0)
        as (sel2 & rest2 & Heq2 & Hle2 & _); [reflexivity|lia|].
      rewrite Heq2 in Halloc.
      destruct (Z.ltb_spec (TokenUtils.tokens_to_amount sel2) amount) as [Hshort|Hfit].
      * destruct (mint_mixed_tokens amount w) as [w1 [mr|e|x|]]; try discriminate.
        destruct (OwnershipLedger.record_allocation_closed w1 (store w) fi_id0
                    (mr_tokens mr) amount) as (w2 & Hrec & _).
        unfold close, get_db in Halloc. cbn [pending] in Halloc.
        rewrite Hrec in Halloc. discriminate.
      * apply (Hrecord sel2); [lia|exact Halloc].
    + apply (Hrecord taken); [lia|exact Halloc].
Qed.

Lemma allocate_success_exact_witness :
  exists w' r,
    allocate_tokens_to_fi 2 "FI-A" 200 Examples.two_hundreds = (w', Success r) /\
    al_fi_id r = "FI-A"%string /\
    al_amount r = 200 /\
    TokenUtils.tokens_to_amount (al_tokens r) = 200 /\
    al_token_count r = List.length (al_tokens r) /\
    exists earlier timestamp,
      ledger (store w') = earlier ++
        [mkLedger (al_transaction_id r) allocation "CB" "FI-A"
                  (map TokenUtils.serial_number (al_tokens r)) 200 timestamp].
Proof.
  do 2 eexists. split; [vm_compute; reflexivity|].
  apply (allocate_success_exact 2 "FI-A" 200 ltac:(lia) Examples.two_hundreds).
  vm_compute. reflexivity.
Defined.

(** *** Where the value goes *)

Lemma sum_cons (x : Z) (l : list Z) : sum (x :: l) = x + sum l.
Proof. reflexivity. Qed.

(** Rewriting the rows picked by [P]: a filter that catches the rewritten
    rows and not the original ones gains their value; one that catches the
    original rows and not the rewritten ones loses it; one that cannot tell
    them apart is unmoved. *)
Lemma filter_update_gain (p P : token_row -> bool) (g : token_row -> token_row)
    (rows : list token_row) :
  (forall r, In r rows -> P r = true ->
     denomination (g r) = denomination r /\ p (g r) = true /\ p r = false) ->
  sum (map denomination (filter p (map (fun r => if P r then g r else r) rows)))
  = sum (map denomination (filter p rows)) + sum (map denomination (filter P rows)).
Proof.
  induction rows as [|r rows IH]; intros H; [reflexivity|].
  specialize (IH (fun r' Hr' => H r' (or_intror Hr'))).
  cbn [map filter]. destruct (P r) eqn:HP.
  - destruct (H r (or_introl eq_refl) HP) as (Hd & Hg & Hr). rewrite Hg, Hr.
    cbn [map]. rewrite !sum_cons. lia.
  - destruct (p r); cbn [map]; rewrite ?sum_cons; lia.
Qed.

Lemma filter_update_loss (p P : token_row -> bool) (g : token_row -> token_row)
    (rows : list token_row) :
  (forall r, In r rows -> P r = true -> p (g r) = false /\ p r = true) ->
  sum (map denomination (filter p (map (fun r => if P r then g r else r) rows)))
  = sum (map denomination (filter p rows)) - sum (map denomination (filter P rows)).
Proof.
  induction rows as [|r rows IH]; intros H; [reflexivity|].
  specialize (IH (fun r' Hr' => H r' (or_intror Hr'))).
  cbn [map filter]. destruct (P r) eqn:HP.
  - destruct (H r (or_introl eq_refl) HP) as (Hg & Hr). rewrite Hg, Hr.
    cbn [map]. rewrite !sum_cons. lia.
  - destruct (p r); cbn [map]; rewrite ?sum_cons; lia.
Qed.

Lemma filter_update_same (p P : token_row -> bool) (g : token_row -> token_row)
    (rows : list token_row) :
  (forall r, In r rows -> P r = true -> p (g r) = false /\ p r = false) ->
  sum (map denomination (filter p (map (fun r => if P r then g r else r) rows)))
  = sum (map denomination (filter p rows)).
Proof.
  induction rows as [|r rows IH]; intros H; [reflexivity|].
  specialize (IH (fun r' Hr' => H r' (or_intror Hr'))).
  cbn [map filter]. destruct (P r) eqn:HP.
  - destruct (H r (or_introl eq_refl) HP) as (Hg & Hr). rewrite Hg, Hr. exact IH.
  - destruct (p r); cbn [map]; rewrite ?sum_cons; lia.
Qed.

(** A [WHERE] clause keeps the serials of the selected rows distinct. *)
Lemma nodup_map_filter (held : token_row -> bool) (rows : list token_row) :
  NoDup (map serial_number rows) ->
  NoDup (map serial_number (filter held rows)).
Proof.
  induction rows as [|r rows IH]; cbn [map filter]; intros H; [constructor|].
  inversion H as [|? ? Hnotin Hnd]; subst. destruct (held r); [|now apply IH].
  cbn [map]. constructor; [|now apply IH].
  intros Hin. apply Hnotin. apply in_map_iff in Hin. destruct Hin as (y & Hy & Hin).
  apply filter_In in Hin. apply in_map_iff. exists y. tauto.
Qed.

Lemma cb_vault_serials_distinct (d : db) :
  serials_distinct d -> NoDup (map TokenUtils.serial_number (cb_vault d)).
Proof.
  intros H. unfold cb_vault. rewrite map_map. cbn [TokenUtils.serial_number].
  now apply nodup_map_filter.
Qed.

(** The rows an allocation rewrites are the selected vault tokens, one row
    for each. *)
Lemma selected_rows (d : db) (sel : list TokenUtils.token) :
  serials_distinct d ->
  NoDup (map TokenUtils.serial_number sel) ->
  (forall t, In t sel -> In t (cb_vault d)) ->
  let P := fun r => existsb (fun t => serial_eqb (serial_number r)
                                                 (TokenUtils.serial_number t)) sel in
  (forall r, In r (tokens d) -> P r = true -> held_in_cb_vault r = true) /\
  sum (map denomination (filter P (tokens d))) = TokenUtils.tokens_to_amount sel.
Proof.
  intros Hnd Hsel Hvault P.
  assert (forall r, In r (tokens d) -> P r = true ->
            held_in_cb_vault r = true /\
            In (TokenUtils.mkToken (serial_number r) (denomination r)) sel) as Hrow.
  { intros r Hr HP. unfold P in HP. apply existsb_exists in HP.
    destruct HP as (t & Ht & Hs). apply OwnershipLedger.serial_eqb_eq in Hs.
    pose proof (Hvault t Ht) as Hin. unfold cb_vault in Hin.
    apply in_map_iff in Hin. destruct Hin as (r' & Heq & Hr').
    apply filter_In in Hr'. destruct Hr' as [Hr' Hcb].
    assert (r' = r) as ->.
    { apply (Balance.nodup_serial_same_row (tokens d)); auto.
      rewrite <- Heq in Hs. cbn in Hs. congruence. }
    split; [exact Hcb|]. now rewrite Heq. }
  split; [intros r Hr HP; apply (Hrow r Hr HP)|].
  unfold TokenUtils.tokens_to_amount.
  replace (map denomination (filter P (tokens d)))
    with (map TokenUtils.denomination
              (map (fun r => TokenUtils.mkToken (serial_number r) (denomination r))
                   (filter P (tokens d)))) by (rewrite map_map; reflexivity).
  apply sum_perm, Permutation_map, NoDup_Permutation.
  - apply (NoDup_map_inv TokenUtils.serial_number). rewrite map_map.
    cbn [TokenUtils.serial_number]. now apply nodup_map_filter.
  - now apply (NoDup_map_inv TokenUtils.serial_number).
  - intros x. split.
    + intros Hx. apply in_map_iff in Hx. destruct Hx as (r & <- & Hr).
      apply filter_In in Hr. destruct Hr as [Hr HP]. apply (Hrow r Hr HP).
    + intros Hx. pose proof (Hvault x Hx) as Hin. unfold cb_vault in Hin.
      apply in_map_iff in Hin. destruct Hin as (r & Heq & Hr).
      apply filter_In in Hr. destruct Hr as [Hr _].
      apply in_map_iff. exists r. split; [exact Heq|]. apply filter_In.
      split; [exact Hr|]. unfold P. apply existsb_exists. exists x.
      split; [exact Hx|]. rewrite <- Heq. cbn. now apply OwnershipLedger.serial_eqb_eq.
Qed.

(** The ownership updates of an allocation move exactly the selected value
    from the vault to the FI. *)
Lemma give_to_fi_moves (fi_id0 : string) (timestamp : Z) (d : db)
    (sel rest : list TokenUtils.token) :
  serials_distinct d -> fi_id0 <> "CB"%string ->
  Permutation (sel ++ rest) (cb_vault d) ->
  let d' := fold_left (fun d t => give_to_fi fi_id0 timestamp t d) sel d in
  balance fi_id0 d' = balance fi_id0 d + TokenUtils.tokens_to_amount sel /\
  vault_total d' = vault_total d - TokenUtils.tokens_to_amount sel.
Proof.
  intros Hnd Hfi Hperm d'.
  assert (NoDup (map TokenUtils.serial_number sel)) as Hsel.
  { pose proof (cb_vault_serials_distinct d Hnd) as Hv.
    eapply Permutation_NoDup in Hv; [|symmetry; apply Permutation_map; exact Hperm].
    rewrite map_app in Hv. now apply NoDup_app_remove_r in Hv. }
  assert (forall t, In t sel -> In t (cb_vault d)) as Hvault.
  { intros t Ht. eapply Permutation_in; [exact Hperm|]. apply in_or_app. now left. }
  destruct (selected_rows d sel Hnd Hsel Hvault) as [Hrows Hsum]. cbv zeta in Hrows, Hsum.
  assert (vault_total d' = sum (map denomination (filter held_in_cb_vault (tokens d'))))
    as Hv'.
  { unfold vault_total, cb_vault, TokenUtils.tokens_to_amount. now rewrite map_map. }
  assert (vault_total d = sum (map denomination (filter held_in_cb_vault (tokens d))))
    as Hv.
  { unfold vault_total, cb_vault, TokenUtils.tokens_to_amount. now rewrite map_map. }
  rewrite Hv', Hv. unfold balance, sum_where, d'.
  rewrite OwnershipLedger.give_to_fi_tokens, <- Hsum. split.
  - apply filter_update_gain. intros r Hr HP. specialize (Hrows r Hr HP).
    unfold held_in_cb_vault in Hrows. apply andb_true_iff in Hrows.
    destruct Hrows as [Hcb Hact]. apply String.eqb_eq in Hcb.
    split; [reflexivity|]. unfold Queries.held_by.
    cbn [allocated_row current_owner status]. rewrite String.eqb_refl, Hact, Hcb.
    split; [reflexivity|].
    destruct (String.eqb_spec "CB" fi_id0) as [Heq|Hne]; [congruence|reflexivity].
  - apply filter_update_loss. intros r Hr HP. specialize (Hrows r Hr HP).
    split; [|exact Hrows]. unfold held_in_cb_vault.
    cbn [allocated_row current_owner status].
    destruct (String.eqb_spec fi_id0 "CB") as [Heq|Hne]; [congruence|reflexivity].
Qed.

Lemma minted_into_serials (w w' : world) :
  serials_fresh w -> minted_into w w' -> serials_fresh w'.
Proof.
  intros [Hnd Hold] (denoms & timestamp & batch & e0 & He0 & He' & Htokens).
  unfold serials_fresh. rewrite Htokens. split.
  - rewrite map_app, Balance.row_of_serials.
    apply NoDup_app; [exact Hnd|apply Balance.fresh_tokens_nodup|].
    intros s Hs Hnew. apply in_map_iff in Hs. destruct Hs as (r & <- & Hr).
    apply in_map_iff in Hnew. destruct Hnew as (t & Heq & Ht).
    apply Balance.fresh_tokens_hashes in Ht. rewrite Forall_forall in Hold.
    specialize (Hold r Hr). rewrite Heq in Ht. lia.
  - apply Forall_app. split.
    + eapply Forall_impl; [|exact Hold]. cbn beta. intros r Hr. lia.
    + apply Forall_forall. intros r Hr. apply in_map_iff in Hr.
      destruct Hr as (t & <- & Ht). apply Balance.fresh_tokens_hashes in Ht. cbn. lia.
Qed.

Lemma same_serials_fresh (w w' : world) :
  serials_fresh w -> (entropy w <= entropy w')%N ->
  map serial_number (tokens (store w')) = map serial_number (tokens (store w)) ->
  serials_fresh w'.
Proof.
  intros [Hnd Hold] Hent Hserials. unfold serials_fresh. rewrite Hserials.
  split; [exact Hnd|].
  apply Forall_forall. intros r Hr.
  assert (In (serial_number r) (map serial_number (tokens (store w)))) as Hin
    by (rewrite <- Hserials; now apply in_map).
  apply in_map_iff in Hin. destruct Hin as (r0 & Heq & Hr0).
  rewrite Forall_forall in Hold. specialize (Hold r0 Hr0). rewrite <- Heq. lia.
Qed.

Lemma give_to_fi_serials (fi_id0 : string) (timestamp : Z) (sel : list TokenUtils.token)
    (d : db) :
  map serial_number (tokens (fold_left (fun d t => give_to_fi fi_id0 timestamp t d) sel d))
  = map serial_number (tokens d).
Proof.
  rewrite OwnershipLedger.give_to_fi_tokens, map_map. apply map_ext.
  intros r. destruct (existsb _ sel); reflexivity.
Qed.

Lemma balance_minted (owner : string) (d : db) (timestamp : Z) (batch : N)
    (minted : list TokenUtils.token) fis led nul bat :
  owner <> "CB"%string ->
  balance owner (mkDb (tokens d ++ map (row_of timestamp batch) minted) fis led nul bat)
  = balance owner d.
Proof.
  intros Hne. unfold balance, sum_where. cbn [tokens].
  rewrite filter_app, map_app, sum_app.
  replace (filter (Queries.held_by owner) (map (row_of timestamp batch) minted))
    with (@nil token_row); [cbn; lia|].
  induction minted as [|t minted IH]; [reflexivity|]. cbn [map filter].
  unfold Queries.held_by at 1. cbn [row_of minted_row current_owner status].
  destruct (String.eqb_spec "CB" owner) as [Heq|_]; [congruence|exact IH].
Qed.

Lemma ledger_minted_app_mint (led : list ledger_row) (e : N) (serials : list serial)
    (amount timestamp : Z) tok fis nul bat :
  ledger_minted (mkDb tok fis
                      (led ++ [mkLedger e mint "CENTRAL_BANK" "CB_VAULT" serials amount
                                        timestamp]) nul bat)
  = ledger_minted (mkDb tok fis led nul bat) + amount.
Proof.
  unfold ledger_minted. cbn [ledger]. rewrite filter_app, map_app, sum_app. cbn. lia.
Qed.

(** A successful allocation moves the amount: the FI's balance rises by
    exactly the requested amount, and the vault changes by what the call
    minted less that amount. *)
Theorem allocate_moves_value (depth : nat) (fi_id0 : string) (amount : Z) :
  fi_id0 <> "CB"%string -> 0 < amount ->
  forall w w' r,
    serials_fresh w ->
    allocate_tokens_to_fi depth fi_id0 amount w = (w', Success r) ->
    balance fi_id0 (store w') = balance fi_id0 (store w) + amount /\
    vault_total (store w')
    = vault_total (store w) + (ledger_minted (store w') - ledger_minted (store w)) - amount.
Proof.
  intros Hfi Hpos. induction depth as [|depth IH]; intros w w' r Hfresh Halloc;
    [discriminate|].
  cbn [allocate_tokens_to_fi get_db pending] in Halloc.
  destruct (find _ (financial_institutions (store w))); [|discriminate].
  destruct (accumulate_until_spec TokenUtils.denomination amount
              (select_cb_vault (store w)) [] 0) as (taken & rest & Hsplit & Heq & _).
  rewrite Heq in Halloc. cbn [app] in Halloc. rewrite Z.add_0_l in Halloc.
  fold (TokenUtils.tokens_to_amount taken) in Halloc.
  destruct (Z.ltb_spec (TokenUtils.tokens_to_amount taken) amount) as [Hlow|Hhigh].
  - set (short := amount - TokenUtils.tokens_to_amount taken) in *.
    pose proof (Balance.mint_mixed_tokens_minted short w) as Hminted.
    destruct (OwnershipLedger.mint_mixed_tokens_spec short w ltac:(unfold short; lia))
      as (e' & Hmint).
    cbv zeta in Hmint. rewrite Hmint in Halloc, Hminted. cbn [fst] in Hminted.
    match type of Hmint with _ = (?x, _) => set (w1 := x) in * end.
    destruct (IH w1 w' r (minted_into_serials w w1 Hfresh Hminted) Halloc) as [Hb Hv].
    assert (balance fi_id0 (store w1) = balance fi_id0 (store w)) as Hb1
      by (apply balance_minted; exact Hfi).
    assert (vault_total (store w1) = vault_total (store w) + short) as Hv1.
    { unfold w1. cbn [store]. rewrite vault_total_minted, OwnershipLedger.fresh_tokens_amount.
      rewrite DenominationEngine.greedy_descending_sum by (unfold short; lia). reflexivity. }
    assert (ledger_minted (store w1) = ledger_minted (store w) + short) as Hl1.
    { unfold w1. cbn [store]. rewrite ledger_minted_app_mint. unfold ledger_minted.
      reflexivity. }
    split; lia.
  - assert (forall sel others,
              Permutation (sel ++ others) (cb_vault (store w)) ->
              TokenUtils.tokens_to_amount sel = amount ->
              record_allocation w (mkConn (store w) true) fi_id0 sel
                                (TokenUtils.tokens_to_amount sel) = (w', Success r) ->
              balance fi_id0 (store w') = balance fi_id0 (store w) + amount /\
              vault_total (store w')
              = vault_total (store w)
                + (ledger_minted (store w') - ledger_minted (store w)) - amount)
      as Hrecord.
    { intros sel others Hperm Hsum Hrec. fold (get_db w) in Hrec.
      rewrite OwnershipLedger.record_allocation_open in Hrec.
      injection Hrec as Hw _. rewrite <- Hw. cbn [store].
      destruct (give_to_fi_moves fi_id0 (clock w) (store w) sel others
                  (proj1 Hfresh) Hfi Hperm) as [Hb Hv].
      cbv zeta in Hb, Hv.
      match goal with
      | |- context [insert_ledger ?e ?d] =>
          assert (ledger_minted (insert_ledger e d) = ledger_minted (store w)) as Hl
      end.
      { destruct (Conservation.insert_ledger_same_value
                    (mkLedger (entropy w) allocation "CB" fi_id0
                              (map TokenUtils.serial_number sel)
                              (TokenUtils.tokens_to_amount sel) (clock w))
                    (fold_left (fun d t => give_to_fi fi_id0 (clock w) t d) sel (store w))
                    ltac:(discriminate)) as (_ & _ & Hl).
        destruct (Conservation.give_to_fi_same_value fi_id0 (clock w) sel (store w))
          as (_ & _ & Hl'). congruence. }
      rewrite Hl. unfold insert_ledger.
      change (balance fi_id0 (mkDb ?t ?f ?l ?n ?b)) with (sum (map denomination
        (filter (Queries.held_by fi_id0) t))).
      split.
      - unfold balance, sum_where in Hb. cbn [tokens]. rewrite Hb, Hsum. reflexivity.
      - unfold vault_total, cb_vault in Hv |- *. cbn [tokens]. rewrite Hv, Hsum. lia. }
    destruct (Z.gtb_spec (TokenUtils.tokens_to_amount taken) amount) as [Hover|Hexact].
    + destruct (exact_subset_spec amount
                  (sorted_asc TokenUtils.denomination (select_cb_vault (store w))) [] 0)
        as (sel2 & rest2 & Heq2 & Hle2 & Hperm2); [reflexivity|lia|].
      rewrite Heq2 in Halloc.
      destruct (Z.ltb_spec (TokenUtils.tokens_to_amount sel2) amount) as [Hshort|Hfit].
      * destruct (mint_mixed_tokens amount w) as [w1 [mr|e|x|]]; try discriminate.
        destruct (OwnershipLedger.record_allocation_closed w1 (store w) fi_id0
                    (mr_tokens mr) amount) as (w2 & Hrec & _).
        unfold close, get_db in Halloc. cbn [pending] in Halloc.
        rewrite Hrec in Halloc. discriminate.
      * apply (Hrecord sel2 rest2); [|lia|exact Halloc].
        rewrite Hperm2. cbn [app]. rewrite sorted_asc_perm.
        apply OwnershipLedger.select_cb_vault_perm.
    + apply (Hrecord taken rest); [|lia|exact Halloc].
      rewrite <- Hsplit. apply OwnershipLedger.select_cb_vault_perm.
Qed.

Lemma record_allocation_serials (w : world) (conn : connection) (fi_id0 : string)
    (sel : list TokenUtils.token) (total : Z) :
  (is_open conn = true -> pending conn = store w) ->
  serials_fresh w -> serials_fresh (fst (record_allocation w conn fi_id0 sel total)).
Proof.
  intros Hconn Hfresh. destruct conn as [d [|]].
  - cbn in Hconn. rewrite (Hconn eq_refl). fold (get_db w).
    rewrite OwnershipLedger.record_allocation_open. cbn [fst].
    apply (same_serials_fresh w); [exact Hfresh|cbn; lia|].
    cbn [store insert_ledger tokens]. apply give_to_fi_serials.
  - destruct (OwnershipLedger.record_allocation_closed w d fi_id0 sel total)
      as (w' & -> & Hstore & Hent).
    cbn [fst]. apply (same_serials_fresh w); [exact Hfresh|exact Hent|now rewrite Hstore].
Qed.

Lemma allocate_serials (depth : nat) (fi_id0 : string) (amount : Z) :
  forall w, serials_fresh w ->
    serials_fresh (fst (allocate_tokens_to_fi depth fi_id0 amount w)).
Proof.
  induction depth as [|depth IH]; intros w Hfresh; [exact Hfresh|].
  cbn [allocate_tokens_to_fi get_db pending].
  destruct (find _ (financial_institutions (store w))); [|exact Hfresh].
  destruct (accumulate_until _ amount (select_cb_vault (store w)) [] 0) as [sel total].
  destruct (total <? amount).
  - pose proof (minted_into_serials w _ Hfresh
                  (Balance.mint_mixed_tokens_minted (amount - total) w)) as Hm.
    destruct (mint_mixed_tokens (amount - total) w) as [w1 [r|e|x|]]; cbn [fst] in *; auto.
  - destruct (total >? amount).
    + destruct (exact_subset amount _ [] 0) as [sel2 total2].
      destruct (total2 <? amount).
      * pose proof (minted_into_serials w _ Hfresh
                      (Balance.mint_mixed_tokens_minted amount w)) as Hm.
        destruct (mint_mixed_tokens amount w) as [w1 [r|e|x|]]; cbn [fst] in *; auto.
        apply record_allocation_serials; [cbn; discriminate|exact Hm].
      * apply record_allocation_serials; auto.
    + apply record_allocation_serials; auto.
Qed.

Lemma transfer_loop_serials (from_fi to_fi : string) (timestamp : Z) (serials : list serial) :
  forall pend total pend' total',
    transfer_loop from_fi to_fi timestamp serials pend total = inr (pend', total') ->
    map serial_number (tokens pend') = map serial_number (tokens pend) /\
    map status (tokens pend') = map status (tokens pend).
Proof.
  induction serials as [|s rest IH]; intros pend total pend' total' H.
  - cbn in H. inversion H. auto.
  - cbn [transfer_loop] in H. destruct (find _ (tokens pend)); [|discriminate].
    destruct (IH _ _ _ _ H) as [Hs Hst]. rewrite Hs, Hst.
    unfold move_token, update_tokens. cbn [tokens]. rewrite !map_map.
    split; apply map_ext; intros r; destruct (serial_eqb (serial_number r) s); reflexivity.
Qed.

Lemma transfer_serials (from_fi to_fi : string) (serials : list serial) (w : world) :
  serials_fresh w ->
  serials_fresh (fst (transfer_tokens_between_fis from_fi to_fi serials w)).
Proof.
  intros Hfresh. unfold transfer_tokens_between_fis. cbn [get_db pending].
  destruct (transfer_loop _ _ _ serials (store w) 0) as [e|[pend total]] eqn:Hloop;
    [exact Hfresh|].
  cbn [token_hex fst]. apply (same_serials_fresh w); [exact Hfresh|cbn; lia|].
  cbn [commit store pending insert_ledger tokens].
  apply (transfer_loop_serials _ _ _ _ _ _ _ _ Hloop).
Qed.

Lemma step_serials (o : op) (w : world) : serials_fresh w -> serials_fresh (step o w).
Proof.
  intros Hfresh. destruct o; cbn [step].
  - eapply minted_into_serials; eauto using Balance.mint_tokens_minted.
  - eapply minted_into_serials; eauto using Balance.mint_specific_denominations_minted.
  - eapply minted_into_serials; eauto using Balance.mint_mixed_tokens_minted.
  - eapply minted_into_serials; eauto using Balance.register_fi_minted.
  - now apply allocate_serials.
  - now apply transfer_serials.
  - exact Hfresh.
Qed.

Lemma run_serials (ops : list op) :
  forall w, serials_fresh w -> serials_fresh (run ops w).
Proof.
  induction ops as [|o ops IH]; intros w Hfresh; [exact Hfresh|].
  cbn [run fold_left]. apply IH. now apply step_serials.
Qed.

Lemma empty_serials_fresh : serials_fresh empty_world.
Proof. split; constructor. Qed.

Lemma allocate_moves_value_witness :
  exists w' r,
    allocate_tokens_to_fi 2 "FI-A" 150 Examples.one_hundred = (w', Success r) /\
    balance "FI-A" (store w') = balance "FI-A" (store Examples.one_hundred) + 150 /\
    vault_total (store w')
    = vault_total (store Examples.one_hundred)
      + (ledger_minted (store w') - ledger_minted (store Examples.one_hundred)) - 150.
Proof.
  do 2 eexists. split; [vm_compute; reflexivity|].
  eapply (allocate_moves_value 2 "FI-A" 150 ltac:(discriminate) ltac:(lia)
            Examples.one_hundred).
  - apply run_serials, empty_serials_fresh.
  - vm_compute. reflexivity.
Defined.

(** *** Transfers that succeed *)

Lemma serial_eqb_neq (a b : serial) : serial_eqb a b = false <-> a <> b.
Proof.
  destruct (serial_eqb a b) eqn:E.
  - apply OwnershipLedger.serial_eqb_eq in E. split; [discriminate|congruence].
  - split; [|reflexivity]. intros _ Heq. apply OwnershipLedger.serial_eqb_eq in Heq.
    congruence.
Qed.

(** Moving one serial does not disturb the ownership query for another. *)
Lemma find_after_move (from_fi to_fi : string) (timestamp : Z) (s0 s : serial) (d : db) :
  s <> s0 ->
  find (fun r => serial_eqb (serial_number r) s && String.eqb (current_owner r) from_fi)
       (tokens (move_token to_fi timestamp s0 d))
  = find (fun r => serial_eqb (serial_number r) s && String.eqb (current_owner r) from_fi)
         (tokens d).
Proof.
  intros Hne. unfold move_token, update_tokens. cbn [tokens].
  induction (tokens d) as [|r rows IH]; [reflexivity|]. cbn [map find].
  destruct (serial_eqb (serial_number r) s0) eqn:E0.
  - apply OwnershipLedger.serial_eqb_eq in E0.
    cbn [moved_row serial_number current_owner].
    assert (serial_eqb (serial_number r) s = false) as ->
      by (apply serial_eqb_neq; congruence).
    cbn [andb]. exact IH.
  - destruct (serial_eqb (serial_number r) s && String.eqb (current_owner r) from_fi);
      [reflexivity|exact IH].
Qed.

Lemma owned_by_find (from_fi : string) (s : serial) (d : db) :
  owned_by from_fi s d = true ->
  exists token,
    find (fun r => serial_eqb (serial_number r) s && String.eqb (current_owner r) from_fi)
         (tokens d) = Some token.
Proof.
  intros H. destruct (find _ (tokens d)) as [token|] eqn:Hfind; [eauto|].
  apply OwnershipLedger.find_owned_by in Hfind. congruence.
Qed.

Lemma transfer_loop_succeeds (from_fi to_fi : string) (timestamp : Z)
    (serials : list serial) :
  NoDup serials ->
  forall pend total,
    Forall (fun s => owned_by from_fi s pend = true) serials ->
    exists pend',
      transfer_loop from_fi to_fi timestamp serials pend total
      = inr (pend', total + sum (map (owned_denomination from_fi pend) serials)) /\
      ledger pend' = ledger pend.
Proof.
  induction 1 as [|s0 rest Hnotin Hnd IH]; intros pend total Howned.
  - exists pend. cbn. now rewrite Z.add_0_r.
  - inversion Howned as [|? ? Hs0 Hrest]; subst.
    destruct (owned_by_find _ _ _ Hs0) as (token & Hfind).
    cbn [transfer_loop map]. unfold owned_denomination at 1. rewrite Hfind.
    assert (forall s, In s rest ->
              find (fun r => serial_eqb (serial_number r) s
                             && String.eqb (current_owner r) from_fi)
                   (tokens (move_token to_fi timestamp s0 pend))
              = find (fun r => serial_eqb (serial_number r) s
                               && String.eqb (current_owner r) from_fi)
                     (tokens pend)) as Hsame.
    { intros s Hs. apply find_after_move. congruence. }
    destruct (IH (move_token to_fi timestamp s0 pend) (total + denomination token))
      as (pend' & Heq & Hledger).
    { rewrite Forall_forall in *. intros s Hs. specialize (Hrest s Hs).
      destruct (owned_by from_fi s (move_token to_fi timestamp s0 pend)) eqn:E;
        [reflexivity|].
      apply OwnershipLedger.find_owned_by in E. rewrite (Hsame s Hs) in E.
      apply OwnershipLedger.find_owned_by in E. congruence. }
    exists pend'. split; [|exact Hledger].
    rewrite Heq. do 2 f_equal. rewrite sum_cons.
    rewrite (map_ext_in (owned_denomination from_fi (move_token to_fi timestamp s0 pend))
                        (owned_denomination from_fi pend)).
    + lia.
    + intros s Hs. unfold owned_denomination. now rewrite (Hsame s Hs).
Qed.

(** A transfer that names distinct serials, each owned by the sender,
    succeeds: its amount is the sum of the denominations of the named
    tokens, its token count is the number of serials, and it appends one
    [cross_fi_transfer] entry listing the serials and the amount. *)
Theorem transfer_succeeds (from_fi to_fi : string) (token_serials : list serial)
    (w : world) :
  NoDup token_serials ->
  Forall (fun s => owned_by from_fi s (store w) = true) token_serials ->
  exists w' r,
    transfer_tokens_between_fis from_fi to_fi token_serials w = (w', Success r) /\
    tr_amount r = sum (map (owned_denomination from_fi (store w)) token_serials) /\
    tr_token_count r = List.length token_serials /\
    ledger (store w') = ledger (store w) ++
      [mkLedger (tr_transaction_id r) cross_fi_transfer from_fi to_fi token_serials
                (tr_amount r) (clock w)].
Proof.
  intros Hnd Howned. unfold transfer_tokens_between_fis. cbn [get_db pending].
  destruct (transfer_loop_succeeds from_fi to_fi (clock w) token_serials Hnd (store w) 0
              Howned) as (pend' & -> & Hledger).
  cbn [token_hex]. do 2 eexists. split; [reflexivity|].
  cbn [tr_amount tr_token_count tr_transaction_id commit store pending insert_ledger ledger].
  rewrite Hledger. repeat split.
Qed.

Lemma transfer_succeeds_witness :
  exists w' r,
    transfer_tokens_between_fis "FI-A" "FI-B" [(100, 2%N); (100, 3%N)] Examples.allocated
      = (w', Success r) /\
    tr_amount r
      = sum (map (owned_denomination "FI-A" (store Examples.allocated))
                 [(100, 2%N); (100, 3%N)]) /\
    tr_token_count r = List.length [(100, 2%N); (100, 3%N)] /\
    ledger (store w') = ledger (store Examples.allocated) ++
      [mkLedger (tr_transaction_id r) cross_fi_transfer "FI-A" "FI-B"
                [(100, 2%N); (100, 3%N)] (tr_amount r) (clock Examples.allocated)].
Proof.
  apply (transfer_succeeds "FI-A" "FI-B" [(100, 2%N); (100, 3%N)] Examples.allocated).
  - constructor; [cbn; intros [H|[]]; discriminate|]. constructor; [intros []|constructor].
  - repeat constructor.
Defined.

Lemma owned_by_after_move (from_fi to_fi : string) (timestamp : Z) (s0 : serial) (d : db) :
  from_fi <> to_fi -> owned_by from_fi s0 (move_token to_fi timestamp s0 d) = false.
Proof.
  intros Hne. unfold owned_by, move_token, update_tokens. cbn [tokens].
  induction (tokens d) as [|r rows IH]; [reflexivity|]. cbn [map existsb].
  rewrite IH, orb_false_r.
  destruct (serial_eqb (serial_number r) s0) eqn:E0.
  - cbn [moved_row serial_number current_owner]. rewrite E0. cbn [andb].
    apply String.eqb_neq. congruence.
  - now rewrite E0.
Qed.

Lemma transfer_loop_distinct (from_fi to_fi : string) (timestamp : Z)
    (serials : list serial) :
  from_fi <> to_fi ->
  forall pend total pend' total',
    transfer_loop from_fi to_fi timestamp serials pend total = inr (pend', total') ->
    NoDup serials.
Proof.
  intros Hne. induction serials as [|s0 rest IH]; intros pend total pend' total' Hloop;
    [constructor|].
  cbn [transfer_loop] in Hloop.
  destruct (find _ (tokens pend)) as [token|]; [|discriminate].
  constructor; [|eapply IH; exact Hloop].
  intros Hin.
  destruct (OwnershipLedger.transfer_loop_rejects from_fi to_fi timestamp rest
              (move_token to_fi timestamp s0 pend) (total + denomination token))
    as (e & He).
  - exists s0. split; [exact Hin|]. now apply owned_by_after_move.
  - congruence.
Qed.

(** A serial named twice in one request is rejected: between two different
    parties the whole transfer fails and nothing is committed. *)
Theorem transfer_rejects_repeated_serial (from_fi to_fi : string)
    (token_serials : list serial) (w : world) :
  from_fi <> to_fi -> ~ NoDup token_serials ->
  exists e, transfer_tokens_between_fis from_fi to_fi token_serials w = (w, Failure e).
Proof.
  intros Hne Hdup. unfold transfer_tokens_between_fis. cbn [get_db pending].
  destruct (transfer_loop _ _ _ token_serials (store w) 0) as [e|[pend total]] eqn:Hloop;
    [eauto|].
  exfalso. apply Hdup. eapply transfer_loop_distinct; eauto.
Qed.

Lemma transfer_rejects_repeated_serial_witness :
  exists e,
    transfer_tokens_between_fis "FI-A" "FI-B" [(100, 2%N); (100, 2%N)] Examples.allocated
    = (Examples.allocated, Failure e).
Proof.
  apply (transfer_rejects_repeated_serial "FI-A" "FI-B" [(100, 2%N); (100, 2%N)]
           Examples.allocated).
  - discriminate.
  - intros H. inversion H as [|? ? Hnotin _]; subst. apply Hnotin. now left.
Defined.

(** *** Transfers move value *)

Lemma filter_serial_none (s : serial) (rows : list token_row) :
  ~ In s (map serial_number rows) ->
  filter (fun r => serial_eqb (serial_number r) s) rows = [].
Proof.
  induction rows as [|r rows IH]; intros Hnotin; [reflexivity|].
  cbn [filter map] in *.
  assert (serial_eqb (serial_number r) s = false) as ->
    by (apply serial_eqb_neq; intros Heq; apply Hnotin; now left).
  apply IH. intros Hin. apply Hnotin. now right.
Qed.

Lemma filter_serial_one (s : serial) (rows : list token_row) (token : token_row) :
  NoDup (map serial_number rows) -> In token rows -> serial_number token = s ->
  filter (fun r => serial_eqb (serial_number r) s) rows = [token].
Proof.
  induction rows as [|r rows IH]; intros Hnd Hin Hs; [destruct Hin|].
  cbn [map] in Hnd. inversion Hnd as [|? ? Hnotin Hnd']; subst.
  cbn [filter]. destruct Hin as [->|Hin].
  - assert (serial_eqb (serial_number token) (serial_number token) = true) as ->
      by now apply OwnershipLedger.serial_eqb_eq.
    now rewrite filter_serial_none.
  - assert (serial_eqb (serial_number r) (serial_number token) = false) as ->.
    { apply serial_eqb_neq. intros Heq. apply Hnotin. rewrite Heq. now apply in_map. }
    now apply IH.
Qed.

Lemma move_token_serials (to_fi : string) (timestamp : Z) (s : serial) (d : db) :
  map serial_number (tokens (move_token to_fi timestamp s d))
  = map serial_number (tokens d).
Proof.
  unfold move_token, update_tokens. cbn [tokens]. rewrite map_map.
  apply map_ext. intros r. now destruct (serial_eqb (serial_number r) s).
Qed.

Lemma move_token_active (to_fi : string) (timestamp : Z) (s : serial) (d : db) :
  all_active d -> all_active (move_token to_fi timestamp s d).
Proof.
  unfold all_active, move_token, update_tokens. cbn [tokens]. intros H.
  rewrite Forall_forall in *. intros r' Hin. apply in_map_iff in Hin.
  destruct Hin as (r & <- & Hin). specialize (H r Hin).
  now destruct (serial_eqb (serial_number r) s).
Qed.

(** One turn of the transfer loop takes the token's denomination from the
    sender's balance and adds it to the receiver's. *)
Lemma move_token_balances (from_fi to_fi : string) (timestamp : Z) (s : serial)
    (pend : db) (token : token_row) :
  from_fi <> to_fi -> serials_distinct pend -> all_active pend ->
  find (fun r => serial_eqb (serial_number r) s && String.eqb (current_owner r) from_fi)
       (tokens pend) = Some token ->
  let pend' := move_token to_fi timestamp s pend in
  balance from_fi pend' = balance from_fi pend - denomination token /\
  balance to_fi pend' = balance to_fi pend + denomination token /\
  (forall other, other <> from_fi -> other <> to_fi ->
     balance other pend' = balance other pend).
Proof.
  intros Hne Hnd Hact Hfind pend'.
  apply find_some in Hfind. destruct Hfind as (Hin & Hq).
  apply andb_true_iff in Hq. destruct Hq as (Hs & Ho).
  apply OwnershipLedger.serial_eqb_eq in Hs. apply String.eqb_eq in Ho.
  pose proof (filter_serial_one s (tokens pend) token Hnd Hin Hs) as Hone.
  assert (forall r, In r (tokens pend) -> serial_eqb (serial_number r) s = true ->
            r = token) as Hrow.
  { intros r Hr Hrs. apply OwnershipLedger.serial_eqb_eq in Hrs.
    eapply Balance.nodup_serial_same_row; eauto. congruence. }
  assert (status token = active) as Hst.
  { unfold all_active in Hact. rewrite Forall_forall in Hact. now apply Hact. }
  unfold pend', balance, sum_where, move_token, update_tokens. cbn [tokens].
  repeat split.
  - rewrite filter_update_loss.
    + rewrite Hone. cbn [map]. rewrite sum_cons. cbn [map sum fold_right]. lia.
    + intros r Hr HP. rewrite (Hrow r Hr HP). unfold Queries.held_by.
      cbn [moved_row current_owner status]. rewrite Ho, Hst, String.eqb_refl.
      split; [|reflexivity]. apply andb_false_iff. left.
      apply String.eqb_neq. congruence.
  - rewrite filter_update_gain.
    + rewrite Hone. cbn [map]. rewrite sum_cons. cbn [map sum fold_right]. lia.
    + intros r Hr HP. rewrite (Hrow r Hr HP). unfold Queries.held_by.
      cbn [moved_row current_owner status denomination].
      rewrite Ho, Hst, String.eqb_refl. repeat split.
      apply andb_false_iff. left. now apply String.eqb_neq.
  - intros other Hof Hot. rewrite filter_update_same; [reflexivity|].
    intros r Hr HP. rewrite (Hrow r Hr HP). unfold Queries.held_by.
    cbn [moved_row current_owner status]. rewrite Ho.
    split; apply andb_false_iff; left; apply String.eqb_neq; congruence.
Qed.

Lemma transfer_loop_balances (from_fi to_fi : string) (timestamp : Z)
    (serials : list serial) :
  from_fi <> to_fi ->
  forall pend total pend' total',
    serials_distinct pend -> all_active pend ->
    transfer_loop from_fi to_fi timestamp serials pend total = inr (pend', total') ->
    balance from_fi pend' = balance from_fi pend - (total' - total) /\
    balance to_fi pend' = balance to_fi pend + (total' - total) /\
    (forall other, other <> from_fi -> other <> to_fi ->
       balance other pend' = balance other pend).
Proof.
  intros Hne. induction serials as [|s rest IH];
    intros pend total pend' total' Hnd Hact Hloop; cbn [transfer_loop] in Hloop.
  - injection Hloop as <- <-. repeat split; lia.
  - destruct (find _ (tokens pend)) as [token|] eqn:Hfind; [|discriminate].
    destruct (move_token_balances from_fi to_fi timestamp s pend token Hne Hnd Hact
                Hfind) as (Hf & Ht & Ho).
    apply IH in Hloop.
    + destruct Hloop as (Hf' & Ht' & Ho'). repeat split.
      * rewrite Hf', Hf. lia.
      * rewrite Ht', Ht. lia.
      * intros other H1 H2. rewrite Ho', Ho by assumption. reflexivity.
    + unfold serials_distinct. now rewrite move_token_serials.
    + now apply move_token_active.
Qed.

(** A successful transfer between two different parties, on a table of
    active tokens with distinct serials, takes the reported amount from the
    sender's balance, adds it to the receiver's, and leaves every other
    owner's balance (the vault's included) as it was. *)
Theorem transfer_moves_value (from_fi to_fi : string) (token_serials : list serial)
    (w w' : world) (r : transfer_result) :
  from_fi <> to_fi ->
  serials_distinct (store w) -> all_active (store w) ->
  transfer_tokens_between_fis from_fi to_fi token_serials w = (w', Success r) ->
  balance from_fi (store w') = balance from_fi (store w) - tr_amount r /\
  balance to_fi (store w') = balance to_fi (store w) + tr_amount r /\
  (forall other, other <> from_fi -> other <> to_fi ->
     balance other (store w') = balance other (store w)).
Proof.
  intros Hne Hnd Hact. unfold transfer_tokens_between_fis. cbn [get_db pending].
  destruct (transfer_loop _ _ _ token_serials (store w) 0) as [e|[pend total]] eqn:Hloop;
    [discriminate|].
  cbn [token_hex]. intros Heq. injection Heq as <- <-.
  apply (transfer_loop_balances from_fi to_fi (clock w) token_serials Hne) in Hloop;
    [|assumption|assumption].
  cbn [tr_amount commit store pending]. unfold balance, sum_where, insert_ledger in *.
  cbn [tokens]. rewrite Z.sub_0_r in Hloop. exact Hloop.
Qed.

Lemma transfer_moves_value_witness :
  exists w' r,
    transfer_tokens_between_fis "FI-A" "FI-B" [(100, 2%N)] Examples.allocated
      = (w', Success r) /\
    balance "FI-A" (store w') = balance "FI-A" (store Examples.allocated) - tr_amount r /\
    balance "FI-B" (store w') = balance "FI-B" (store Examples.allocated) + tr_amount r.
Proof.
  do 2 eexists. split; [vm_compute; reflexivity|].
  edestruct (transfer_moves_value "FI-A" "FI-B" [(100, 2%N)] Examples.allocated)
    as (Hf & Ht & _).
  - discriminate.
  - vm_compute. repeat constructor; cbn; intuition discriminate.
  - vm_compute. repeat constructor.
  - vm_compute. reflexivity.
  - split; [exact Hf|exact Ht].
Defined.

(** *** The read-only queries *)

Lemma holdings_total (rows : list token_row) :
  sum (map Queries.h_denomination
         (map (fun r => Queries.mkHolding (serial_number r) (denomination r) (minted_at r)
                                          (last_transfer_at r)) rows))
  = sum (map denomination rows).
Proof. rewrite map_map. reflexivity. Qed.

(** The three balance queries agree.  The listing of [get_fi_tokens] is in
    descending denomination order and its denominations sum to the owner's
    balance; [validate_wallet] answers valid exactly when that listing is
    not empty, with the same balance; and [get_all_fis] reports for each
    institution the total of its own listing. *)
Theorem balance_queries_agree (owner : string) (w : world) :
  ordered_desc Queries.h_denomination (Queries.get_fi_tokens owner w) /\
  sum (map Queries.h_denomination (Queries.get_fi_tokens owner w))
    = balance owner (store w) /\
  Queries.validate_wallet owner w
    = match Queries.get_fi_tokens owner w with
      | [] => None
      | _ :: _ => Some (balance owner (store w))
      end /\
  map Queries.s_balance (Queries.get_all_fis w)
    = map (fun f => sum (map Queries.h_denomination (Queries.get_fi_tokens (fi_id f) w)))
          (financial_institutions (store w)).
Proof.
  assert (forall o, sum (map Queries.h_denomination (Queries.get_fi_tokens o w))
                    = balance o (store w)) as Htotal.
  { intros o. unfold Queries.get_fi_tokens, balance, sum_where.
    rewrite <- holdings_total. apply sum_perm, Permutation_map, sorted_desc_perm. }
  split; [apply ChangeMaking.sorted_desc_ordered|]. split; [apply Htotal|]. split.
  - unfold Queries.validate_wallet, Queries.get_fi_tokens, balance, sum_where.
    pose proof (Permutation_length
                  (sorted_desc_perm Queries.h_denomination
                     (map (fun r => Queries.mkHolding (serial_number r) (denomination r)
                                      (minted_at r) (last_transfer_at r))
                          (filter (Queries.held_by owner) (tokens (store w)))))) as Hlen.
    rewrite length_map in Hlen.
    destruct (sorted_desc _ _) as [|h hs]; cbn [List.length] in Hlen.
    + rewrite <- Hlen. reflexivity.
    + rewrite <- Hlen. reflexivity.
  - unfold Queries.get_all_fis. rewrite map_map. apply map_ext. intros f.
    cbn [Queries.s_balance]. symmetry. apply Htotal.
Qed.

(** Along every history from the empty ledger, [validate_wallet] answers
    valid exactly for the owners with a positive balance, and reports that
    balance; an owner it calls invalid holds nothing. *)
Theorem validate_wallet_positive (ops : list op) (wallet_id : string) :
  match Queries.validate_wallet wallet_id (run ops empty_world) with
  | Some b => 0 < b /\ b = balance wallet_id (store (run ops empty_world))
  | None => balance wallet_id (store (run ops empty_world)) = 0
  end.
Proof.
  destruct (Conservation.run_conserved ops empty_world Conservation.empty_conserved)
    as [Hvalid _].
  unfold Queries.validate_wallet, balance, sum_where.
  set (rows := filter (Queries.held_by wallet_id) (tokens (store (run ops empty_world)))).
  assert (Forall (fun r => 0 < denomination r) rows) as Hpos.
  { unfold tokens_valid in Hvalid. rewrite Forall_forall in *. intros r Hr.
    apply filter_In in Hr. destruct Hr as [Hr _]. destruct (Hvalid r Hr) as [_ Hd].
    cbn in Hd. intuition lia. }
  destruct rows as [|r rows']; cbn [List.length map].
  - reflexivity.
  - replace (Z.of_nat (S (List.length rows')) >? 0) with true
      by (symmetry; apply Z.gtb_lt; lia).
    split; [|reflexivity]. rewrite sum_cons. inversion Hpos as [|? ? Hr Hrest]; subst.
    assert (0 <= sum (map denomination rows')).
    { apply sum_nonneg. rewrite Forall_forall in *. intros x Hx.
      apply in_map_iff in Hx. destruct Hx as (r' & <- & Hr'). specialize (Hrest r' Hr').
      cbn beta in Hrest. lia. }
    lia.
Qed.





(** *** The money supply report *)

(** Along every history in which the vault is neither the target of an
    allocation nor a party of a transfer, the report of [get_money_supply]
    has empty wallet and sub-wallet tiers, and [in_circulation] is exactly
    what the institutions hold; it is never negative. *)
Theorem money_supply_breakdown (ops : list op) :
  Forall vault_not_a_party ops ->
  let supply := get_money_supply (run ops empty_world) in
  in_wallets supply = 0 /\
  in_subwallets supply = 0 /\
  in_circulation supply = in_fis supply /\
  0 <= in_circulation supply.
Proof.
  intros Hops supply.
  assert (serials_fresh empty_world) as Hfresh0 by (split; constructor).
  assert (tiers_consistent (store empty_world)) as Htiers0 by constructor.
  destruct (Balance.run_invariant ops Hops empty_world Hfresh0 Htiers0) as [_ Htiers].
  destruct (Conservation.run_conserved ops empty_world Conservation.empty_conserved)
    as [Hvalid _].
  set (w := run ops empty_world) in *.
  assert (Forall (fun r => status r = active /\
                   ((current_owner r = "CB"%string /\ owner_type r = cb)
                    \/ (current_owner r <> "CB"%string /\ owner_type r = fi)))
                 (tokens (store w))) as Hrows.
  { unfold tokens_valid, tiers_consistent in *. rewrite Forall_forall in *.
    intros r Hr. split; [apply (Hvalid r Hr)|apply (Htiers r Hr)]. }
  pose proof (Balance.tiers_add_up _ Hrows) as Hsum.
  assert (forall k, k <> cb -> k <> fi -> sum_where (active_of_kind k) (store w) = 0)
    as Hnone.
  { intros k Hcb Hfi. apply Conservation.sum_where_none. intros r Hr.
    rewrite Forall_forall in Hrows. destruct (Hrows r Hr) as [_ Hk].
    unfold active_of_kind.
    destruct Hk as [[_ Hk]|[_ Hk]]; rewrite Hk; destruct k; try congruence; reflexivity. }
  assert (0 <= sum_where (active_of_kind fi) (store w)) as Hpos.
  { unfold sum_where. apply sum_nonneg. rewrite Forall_forall. intros x Hx.
    apply in_map_iff in Hx. destruct Hx as (r & <- & Hr). apply filter_In in Hr.
    destruct Hr as [Hr _]. unfold tokens_valid in Hvalid.
    rewrite Forall_forall in Hvalid. destruct (Hvalid r Hr) as [_ Hd].
    cbn in Hd. intuition lia. }
  unfold supply, get_money_supply.
  cbn [in_wallets in_subwallets in_circulation in_fis].
  pose proof (Hnone wallet ltac:(discriminate) ltac:(discriminate)) as Hw.
  pose proof (Hnone subwallet ltac:(discriminate) ltac:(discriminate)) as Hs.
  unfold sum_where in *. repeat split; lia.
Qed.

Lemma money_supply_breakdown_witness :
  let supply := get_money_supply Examples.allocated in
  in_wallets supply = 0 /\
  in_subwallets supply = 0 /\
  in_circulation supply = in_fis supply /\
  0 <= in_circulation supply.
Proof.
  apply (money_supply_breakdown
           [OpRegister "FI-A" "Bank A"; OpMint 100 3; OpAllocate "FI-A" 200]).
  repeat constructor. discriminate.
Defined.

Lemma history_balanced_witness :
  NoDup (map serial_number (tokens (store Examples.allocated))) /\
  is_balanced (get_money_supply Examples.allocated) = true.
Proof.
  apply (Balance.history_balanced
           [OpRegister "FI-A" "Bank A"; OpMint 100 3; OpAllocate "FI-A" 200]).
  repeat constructor. discriminate.
Defined.

End LedgerOperations.

(** ** The simulated proofs of shared/zkp.py *)

Module ProofChecks.

Import Zkp.









Section Hashing.

Variable sha256 : string -> string.
Variable str_tx_data : string -> string -> list string -> Z -> Z -> string.

(** An ownership proof that was just generated verifies against a public
    key exactly when that key is the one it was generated for and the proof
    is at most five minutes old, whatever private key, nonce, challenge and
    token serial went into it. *)
Theorem ownership_proof_roundtrip (timestamp : Z) (nonce random_challenge : string)
    (private_key public_key : string) (token_serial challenge : option string)
    (expected_public_key : string) (now : Z) :
  verify_ownership_proof sha256
    (generate_ownership_proof sha256 timestamp nonce random_challenge
       private_key public_key token_serial challenge)
    expected_public_key now
  = String.eqb public_key expected_public_key && (now - timestamp <=? MAX_AGE).
Proof.
  unfold verify_ownership_proof, generate_ownership_proof.
  cbn [op_type op_public_key op_timestamp op_challenge op_token_serial
       op_verification_hash].
  rewrite String.eqb_refl. cbn [negb].
  destruct (String.eqb public_key expected_public_key); cbn [negb andb]; [|reflexivity].
  rewrite Z.gtb_ltb, Z.ltb_antisym.
  destruct (now - timestamp <=? MAX_AGE); cbn [negb]; [|reflexivity].
  apply String.eqb_refl.
Qed.

(** A compliance proof that was just generated passes verification while
    it is at most five minutes old, compliant or not: the verdict is valid
    and hands back the five checks and their conjunction; an older proof is
    rejected as expired. *)
Theorem compliance_proof_roundtrip (timestamp : Z) (nonce : string)
    (amount daily_spent monthly_spent : Z) (is_offline is_iot : bool) (now : Z) :
  verify_compliance_proof sha256
    (generate_compliance_proof sha256 timestamp nonce amount daily_spent monthly_spent
       is_offline is_iot) now
  = if now - timestamp >? MAX_AGE then Invalid "Proof expired"
    else
      let checks :=
        compliance_checks_of amount daily_spent monthly_spent is_offline is_iot in
      Valid (all_checks checks) checks.
Proof.
  unfold verify_compliance_proof, generate_compliance_proof.
  cbn [cp_type cp_timestamp cp_commitment cp_is_compliant cp_verification_tag cp_checks].
  rewrite !String.eqb_refl. cbn [negb].
  destruct (now - timestamp >? MAX_AGE); reflexivity.
Qed.

(** Compliance is monotone: a payment that is compliant stays compliant
    when the amount and the amounts already spent are lowered, in the same
    online or offline, device or wallet setting. *)
Theorem compliance_monotone (timestamp timestamp' : Z) (nonce nonce' : string)
    (amount daily_spent monthly_spent amount' daily_spent' monthly_spent' : Z)
    (is_offline is_iot : bool) :
  amount' <= amount -> daily_spent' <= daily_spent -> monthly_spent' <= monthly_spent ->
  cp_is_compliant
    (generate_compliance_proof sha256 timestamp nonce amount daily_spent monthly_spent
       is_offline is_iot) = true ->
  cp_is_compliant
    (generate_compliance_proof sha256 timestamp' nonce' amount' daily_spent'
       monthly_spent' is_offline is_iot) = true.
Proof.
  intros Ha Hd Hm. unfold generate_compliance_proof, all_checks, compliance_checks_of.
  cbn [cp_is_compliant single_tx_valid daily_valid monthly_valid offline_valid iot_valid].
  unfold SINGLE_TX_LIMIT, DAILY_LIMIT, MONTHLY_LIMIT, OFFLINE_LIMIT, IOT_DEVICE_LIMIT.
  rewrite !andb_true_iff, !orb_true_iff, !Z.leb_le.
  intros ((((H1 & H2) & H3) & H4) & H5). repeat split; try lia.
  - destruct H4 as [H4|H4]; [now left|right; lia].
  - destruct H5 as [H5|H5]; [now left|right; lia].
Qed.


End Hashing.

Lemma compliance_monotone_witness :
  cp_is_compliant
    (generate_compliance_proof (fun s => s) 0 "n1" 4000 1000 1000 true true) = true /\
  cp_is_compliant
    (generate_compliance_proof (fun s => s) 5 "n2" 3000 0 1000 true true) = true.
Proof.
  split; [reflexivity|].
  apply (compliance_monotone (fun s => s) 0 5 "n1" "n2" 4000 1000 1000 3000 0 1000
           true true); [lia|lia|lia|reflexivity].
Defined.


End ProofChecks.
